(** * Formula extraction, dependency cycles and evaluation

    A shallow embedding of [utils/formula_extractor.py] (class
    [FormulaExtractor]) and of the formula export of
    [modules/excel_processor.py] (class [ExcelProcessor]).

    Python [str] values are modelled as [string] (one-byte characters: the
    embedding covers ASCII text, where [\d], [\w] and [\s] of the [re] module
    are the ASCII classes).  An insertion-ordered [dict] whose iteration
    order is observable is an association list; a [dict] that is only looked
    up is a [gmap]; a [set] is a [gset]. *)

From Stdlib Require Import Ascii String List ZArith Lia Bool DecimalString.
From stdpp Require Import base option list gmap strings.

Import ListNotations.
Local Open Scope string_scope.
Local Open Scope list_scope.
Local Open Scope nat_scope.

(** ** Characters and strings *)

Definition str_chars (s : string) : list ascii := list_ascii_of_string s.
Definition chars_str (l : list ascii) : string := string_of_list_ascii l.

Definition code (c : ascii) : nat := nat_of_ascii c.

Definition in_range (lo hi : nat) (c : ascii) : bool :=
  (lo <=? code c)%nat && (code c <=? hi)%nat.

Definition is_upper (c : ascii) : bool := in_range 65 90 c.
Definition is_lower (c : ascii) : bool := in_range 97 122 c.
Definition is_digit (c : ascii) : bool := in_range 48 57 c.
Definition is_char (x c : ascii) : bool := Ascii.eqb x c.

(** [\w] on ASCII text: letters, digits and the underscore. *)
Definition is_word (c : ascii) : bool :=
  is_upper c || is_lower c || is_digit c || is_char "_" c.

(** [\s] on ASCII text: space, tab, newline, vertical tab, form feed,
    carriage return and the four separators 28..31. *)
Definition is_space (c : ascii) : bool :=
  (code c =? 32)%nat || in_range 9 13 c || in_range 28 31 c.

(** [x in s] for a one-character [x]. *)
Definition contains_char (x : ascii) (s : string) : bool :=
  existsb (is_char x) (str_chars s).

(** [s.count(x)] for a one-character [x]. *)
Definition count_char (x : ascii) (s : string) : nat :=
  length (filter (fun c => is_char x c = true) (str_chars s)).

(** [s.startswith('=')] *)
Definition startswith_eq (s : string) : bool :=
  match s with
  | String c _ => is_char "=" c
  | EmptyString => false
  end.

(** [s[1:]] *)
Definition drop_first (s : string) : string :=
  match s with
  | String _ t => t
  | EmptyString => EmptyString
  end.

(** The text from its first character outside the class [p] on. *)
Fixpoint skip_while (p : ascii -> bool) (l : list ascii) : list ascii :=
  match l with
  | c :: l' => if p c then skip_while p l' else l
  | [] => []
  end.

(** ** A backtracking matcher for the patterns of the [re] module

    The patterns of the source are written as terms of [regex]; [run] lists
    the ways a pattern matches at the current position in the order in which
    a backtracking engine tries them (greedy repetition first), so the head
    of the list is the match the engine reports. *)

Module Re.

Inductive regex : Type :=
| Cls (p : ascii -> bool)        (* a character class *)
| Seq (r1 r2 : regex)            (* r1 r2 *)
| Star (r : regex)               (* r*  (greedy) *)
| Opt (r : regex)                (* r?  (greedy) *)
| Grp (n : nat) (r : regex)      (* capturing group number n *)
| WordB.                         (* \b *)

(** [r+] *)
Definition Plus (r : regex) : regex := Seq r (Star r).

Record mstate : Type := MState {
  prev : option ascii;            (* the character before the position *)
  rest : list ascii;                   (* the text from the position on *)
  groups : list (nat * list ascii)     (* captured groups, latest first *)
}.

Definition is_word_opt (o : option ascii) : bool :=
  match o with
  | Some c => is_word c
  | None => false
  end.

(** The text consumed between the state [st] and a later state [st']. *)
Definition consumed (st st' : mstate) : list ascii :=
  take (length (rest st) - length (rest st')) (rest st).

Fixpoint run (r : regex) (st : mstate) : list mstate :=
  match r with
  | Cls p =>
      match rest st with
      | c :: s' => if p c then [MState (Some c) s' (groups st)] else []
      | [] => []
      end
  | Seq r1 r2 => flat_map (run r2) (run r1 st)
  | Opt r1 => run r1 st ++ [st]
  | Star r1 =>
      (fix loop (n : nat) (st : mstate) {struct n} : list mstate :=
         match n with
         | O => [st]
         | S n' =>
             flat_map
               (fun st' =>
                  if (length (rest st') <? length (rest st))%nat
                  then loop n' st' else [])
               (run r1 st) ++ [st]
         end) (length (rest st)) st
  | Grp n r1 =>
      map (fun st' =>
             MState (prev st') (rest st') ((n, consumed st st') :: groups st'))
          (run r1 st)
  | WordB =>
      if xorb (is_word_opt (prev st)) (is_word_opt (head (rest st)))
      then [st] else []
  end.

(** One match: the whole matched text and the captured groups. *)
Record rmatch : Type := RMatch {
  whole : list ascii;
  captured : list (nat * list ascii)
}.

(** [m.group(n)]; a group that did not take part is the empty text. *)
Definition group (n : nat) (m : rmatch) : list ascii :=
  match find (fun g => (fst g =? n)%nat) (captured m) with
  | Some g => snd g
  | None => []
  end.

Definition match_at (r : regex) (p : option ascii) (s : list ascii)
  : option (rmatch * nat) :=
  match run r (MState p s []) with
  | st :: _ =>
      let len := (length s - length (rest st))%nat in
      Some (RMatch (take len s) (groups st), len)
  | [] => None
  end.

(** The non-overlapping matches from left to right.  [skip] counts the
    characters of the last match that are still to be passed over. *)
Fixpoint scan (r : regex) (skip : nat) (p : option ascii) (s : list ascii)
  {struct s} : list rmatch :=
  match skip with
  | S k =>
      match s with
      | [] => []
      | c :: s' => scan r k (Some c) s'
      end
  | O =>
      match match_at r p s with
      | Some (m, len) =>
          m :: match s with
               | [] => []
               | c :: s' => scan r (len - 1) (Some c) s'
               end
      | None =>
          match s with
          | [] => []
          | c :: s' => scan r 0 (Some c) s'
          end
      end
  end.

(** [re.findall(r, s)] for a pattern with one group: the texts of group 1. *)
Definition findall (r : regex) (s : string) : list string :=
  map (fun m => chars_str (group 1 m)) (scan r 0 None (str_chars s)).

(** [re.sub(r, repl, s)] with a function [repl] of the matched text. *)
Fixpoint sub_scan (r : regex) (repl : string -> string) (skip : nat)
  (p : option ascii) (s : list ascii) {struct s} : list ascii :=
  match skip with
  | S k =>
      match s with
      | [] => []
      | c :: s' => sub_scan r repl k (Some c) s'
      end
  | O =>
      match match_at r p s with
      | Some (m, len) =>
          str_chars (repl (chars_str (whole m))) ++
          match s with
          | [] => []
          | c :: s' =>
              (if (len =? 0)%nat then [c] else []) ++
              sub_scan r repl (len - 1) (Some c) s'
          end
      | None =>
          match s with
          | [] => []
          | c :: s' => c :: sub_scan r repl 0 (Some c) s'
          end
      end
  end.

Definition sub (r : regex) (repl : string -> string) (s : string) : string :=
  chars_str (sub_scan r repl 0 None (str_chars s)).

End Re.

Import Re.

(** ** [FormulaExtractor._analyze_formula] *)

(** [[A-Z]+\d+] *)
Definition cell_ref_re : regex := Seq (Plus (Cls is_upper)) (Plus (Cls is_digit)).

(** ** The greedy match of a reference

    Helper notions for the matches of [[A-Z]+\d+]: the states of a greedy run
    of one character class, and the length of the reference that stands at
    the head of a text. *)

(** The text begins with a character of the class [p]. *)
Definition starts_with_class (p : ascii -> bool) (s : list ascii) : bool :=
  match s with
  | c :: _ => p c
  | [] => false
  end.

(** The states of a run of [p*] from [st]: the first has consumed the whole
    run of [p], the others stand before a character of the class. *)
Definition greedy_states (p : ascii -> bool) (st : mstate) (l : list mstate)
  : Prop :=
  exists hd tl,
    l = hd :: tl /\
    rest hd = skip_while p (rest st) /\
    Forall (fun st' => groups st' = groups st /\
                       (prev st' = prev st /\ rest st' = rest st \/
                        exists c, prev st' = Some c /\ p c = true)) (hd :: tl) /\
    Forall (fun st' => starts_with_class p (rest st') = true) tl.

(** The states of a run of [p+]: as before, and every state has consumed a
    character of the class. *)
Definition plus_states (p : ascii -> bool) (st : mstate) (l : list mstate)
  : Prop :=
  exists hd tl,
    l = hd :: tl /\
    rest hd = skip_while p (rest st) /\
    Forall (fun st' => groups st' = groups st /\
                       exists c, prev st' = Some c /\ p c = true) (hd :: tl) /\
    Forall (fun st' => starts_with_class p (rest st') = true) tl.

(** The length of the reference at the head of a text: capital letters, then
    digits, as many of each as there are. *)
Definition reference_length (s : list ascii) : option nat :=
  let s1 := skip_while is_upper s in
  let s2 := skip_while is_digit s1 in
  if starts_with_class is_upper s && starts_with_class is_digit s1
  then Some (length s - length s2)
  else None.

(** The same for [\b[A-Z]+\d+\b]: the character before and the character
    behind the reference are outside the words. *)
Definition token_length (p : option ascii) (s : list ascii) : option nat :=
  match reference_length s with
  | Some n =>
      if negb (is_word_opt p) &&
         negb (is_word_opt
                 (head (skip_while is_digit (skip_while is_upper s))))
      then Some n
      else None
  | None => None
  end.

(** [r'([A-Z]+\d+(?::[A-Z]+\d+)?)'] *)
Definition cell_pattern : regex :=
  Grp 1 (Seq cell_ref_re (Opt (Seq (Cls (is_char ":")) cell_ref_re))).

(** [r'([A-Z]+)\s*\('] *)
Definition function_pattern : regex :=
  Seq (Grp 1 (Plus (Cls is_upper)))
      (Seq (Star (Cls is_space)) (Cls (is_char "("))).

Definition is_operator (c : ascii) : bool :=
  is_char "+" c || is_char "-" c || is_char "*" c || is_char "/" c ||
  is_char "^" c || is_char "<" c || is_char ">" c || is_char "=" c.

(** [r'([\+\-\*\/\^\<\>\=])'] *)
Definition operator_pattern : regex := Grp 1 (Cls is_operator).

(** [r'\b(\d+\.?\d* )\b'] (written here with a space before the closing
    parenthesis) *)
Definition constant_pattern : regex :=
  Seq WordB
      (Seq (Grp 1 (Seq (Plus (Cls is_digit))
                       (Seq (Opt (Cls (is_char "."))) (Star (Cls is_digit)))))
           WordB).

Inductive formula_type_t : Type :=
| simple
| function
| complex_reference
| complex_arithmetic.

(** The metadata record of [_analyze_formula].  [excel_functions] and
    [operators] are [list(set(...))] in the source: their order is not
    determined, only their elements and their number are, so they are sets
    here.  [constants] keeps the matched decimal texts, to which the source
    applies [float]. *)
Record metadata : Type := Metadata {
  original_formula : string;
  cell_address : string;
  referenced_cells : list string;
  referenced_ranges : list string;
  excel_functions : gset string;
  operators : gset string;
  constants : list string;
  formula_type : formula_type_t;
  complexity_score : nat
}.

Definition empty_metadata (formula cell : string) : metadata :=
  Metadata formula cell [] [] ∅ ∅ [] simple 0.

Definition _analyze_formula (formula cell : string) : metadata :=
  if negb (startswith_eq formula) then empty_metadata formula cell
  else
    let formula_body := drop_first formula in
    let cell_matches := findall cell_pattern formula_body in
    let ranges := filter (fun m => contains_char ":" m = true) cell_matches in
    let cells := filter (fun m => contains_char ":" m = false) cell_matches in
    let functions : gset string :=
      list_to_set (findall function_pattern formula_body) in
    let ops : gset string :=
      list_to_set (findall operator_pattern formula_body) in
    let consts := findall constant_pattern formula_body in
    let ftype :=
      if (0 <? size functions)%nat then function
      else if (5 <? length cells)%nat || (0 <? length ranges)%nat
           then complex_reference
      else if (3 <? size ops)%nat then complex_arithmetic
      else simple in
    let complexity :=
      (length cells + length ranges * 2 + size functions * 3 + size ops)%nat in
    Metadata formula cell cells ranges functions ops consts ftype complexity.


(** The classification rule in the words of the specification: the first
    rule that applies decides. *)
Definition classification_rule (n_functions n_cells n_ranges n_operators : nat)
  : formula_type_t :=
  if decide (1 ≤ n_functions) then function
  else if decide (5 < n_cells ∨ 1 ≤ n_ranges) then complex_reference
  else if decide (3 < n_operators) then complex_arithmetic
  else simple.

(** The tokens of a formula text, in the order in which they occur: the
    matches of the patterns in the text behind the leading equals sign.  A
    match of the cell pattern with a colon is a range, one without is a cell
    reference. *)
Definition function_tokens (formula : string) : list string :=
  findall function_pattern (drop_first formula).

Definition cell_tokens (formula : string) : list string :=
  filter (fun m => contains_char ":" m = false)
         (findall cell_pattern (drop_first formula)).

Definition range_tokens (formula : string) : list string :=
  filter (fun m => contains_char ":" m = true)
         (findall cell_pattern (drop_first formula)).

Definition operator_tokens (formula : string) : list string :=
  findall operator_pattern (drop_first formula).

(** The number of different operator symbols among the operator tokens. *)
Definition distinct_operators (formula : string) : nat :=
  size (list_to_set (operator_tokens formula) : gset string).



(** Every match of the pattern [r] consumes a character of the class [P]. *)
Fixpoint needs (P : ascii -> bool) (r : regex) : Prop :=
  match r with
  | Cls p => forall c, p c = true -> P c = true
  | Seq r1 r2 => needs P r1 \/ needs P r2
  | Grp _ r1 => needs P r1
  | Star _ | Opt _ | WordB => False
  end.

(** The text [s] has no character of the class [P]. *)
Definition free (P : ascii -> bool) (s : list ascii) : Prop :=
  Forall (fun c => P c = false) s.


(** ** Python values and the expression evaluator

    [_safe_eval] hands the rewritten formula text to the interpreter's
    [eval].  [Py.eval] models that primitive on the expressions the
    properties below evaluate: integer, boolean and string atoms, names,
    unary and binary arithmetic and a single comparison, and the bracket
    check of the tokenizer.  Whatever lies outside this fragment yields
    [Unmodelled], about which nothing is claimed. *)

Module Py.

Inductive value : Type :=
| VInt (z : Z)
| VBool (b : bool)
| VStr (s : string)
| VNone.

(** The double quote character. *)
Definition dquote : ascii := "034"%char.
Definition squote : ascii := "039"%char.

(** [str(v)], for integers whose decimal form stays within the
    interpreter's limit on the length of that conversion (4300 digits by
    default), beyond which [str] raises [ValueError]. *)
Definition str (v : value) : string :=
  match v with
  | VInt z => DecimalString.NilZero.string_of_int (Z.to_int z)
  | VBool true => "True"
  | VBool false => "False"
  | VStr s => s
  | VNone => "None"
  end.

Inductive exc : Type :=
| SyntaxError
| NameError (name : string)
| TypeError
| ZeroDivisionError.

Inductive outcome : Type :=
| Value (v : value)
| Raises (e : exc)
| Unmodelled.

Inductive sym : Type :=
| SPlus | SMinus | SStar | SSlash | SPow
| SLt | SGt | SLe | SGe | SEq | SNe
| SLPar | SRPar | SLBrk | SRBrk | SComma | SDot | SAssign | SBang.

Inductive token : Type :=
| TNum (digits : list ascii)
| TStr (s : list ascii)
| TName (s : list ascii)
| TSym (s : sym)
| TSpace.

Definition sym_of_char (c : ascii) : option sym :=
  if is_char "+" c then Some SPlus else
  if is_char "-" c then Some SMinus else
  if is_char "*" c then Some SStar else
  if is_char "/" c then Some SSlash else
  if is_char "<" c then Some SLt else
  if is_char ">" c then Some SGt else
  if is_char "(" c then Some SLPar else
  if is_char ")" c then Some SRPar else
  if is_char "[" c then Some SLBrk else
  if is_char "]" c then Some SRBrk else
  if is_char "," c then Some SComma else
  if is_char "." c then Some SDot else
  if is_char "=" c then Some SAssign else
  if is_char "!" c then Some SBang else None.

Definition is_name_start (c : ascii) : bool :=
  is_upper c || is_lower c || is_char "_" c.

Inductive lex_state : Type :=
| LStart
| LNum (acc : list ascii)
| LName (acc : list ascii)
| LStr (q : ascii) (acc : list ascii).

(** The characters of the text, one by one; accumulators are reversed. *)
Fixpoint lex (st : lex_state) (s : list ascii) : option (list token) :=
  match s with
  | [] =>
      match st with
      | LStart => Some []
      | LNum acc => Some [TNum (rev acc)]
      | LName acc => Some [TName (rev acc)]
      | LStr _ _ => None
      end
  | c :: s' =>
      match st with
      | LStr q acc =>
          if is_char q c then cons (TStr (rev acc)) <$> lex LStart s'
          else if is_char "\" c || negb (in_range 32 126 c) then None
          else lex (LStr q (c :: acc)) s'
      | LNum acc =>
          if is_digit c then lex (LNum (c :: acc)) s'
          else if is_name_start c then cons (TNum (rev acc)) <$> lex (LName [c]) s'
          else if is_char " " c then
            (fun l => TNum (rev acc) :: TSpace :: l) <$> lex LStart s'
          else if is_char dquote c || is_char squote c then
            cons (TNum (rev acc)) <$> lex (LStr c []) s'
          else match sym_of_char c with
               | Some y => (fun l => TNum (rev acc) :: TSym y :: l) <$> lex LStart s'
               | None => None
               end
      | LName acc =>
          if is_word c then lex (LName (c :: acc)) s'
          else if is_char " " c then
            (fun l => TName (rev acc) :: TSpace :: l) <$> lex LStart s'
          else if is_char dquote c || is_char squote c then
            cons (TName (rev acc)) <$> lex (LStr c []) s'
          else match sym_of_char c with
               | Some y => (fun l => TName (rev acc) :: TSym y :: l) <$> lex LStart s'
               | None => None
               end
      | LStart =>
          if is_digit c then lex (LNum [c]) s'
          else if is_name_start c then lex (LName [c]) s'
          else if is_char " " c then cons TSpace <$> lex LStart s'
          else if is_char dquote c || is_char squote c then lex (LStr c []) s'
          else match sym_of_char c with
               | Some y => cons (TSym y) <$> lex LStart s'
               | None => None
               end
      end
  end.

(** Two-character operators are joined and the spaces dropped. *)
Fixpoint join (l : list token) : list token :=
  match l with
  | TSym SStar :: TSym SStar :: l' => TSym SPow :: join l'
  | TSym SLt :: TSym SAssign :: l' => TSym SLe :: join l'
  | TSym SGt :: TSym SAssign :: l' => TSym SGe :: join l'
  | TSym SAssign :: TSym SAssign :: l' => TSym SEq :: join l'
  | TSym SBang :: TSym SAssign :: l' => TSym SNe :: join l'
  | TSpace :: l' => join l'
  | t :: l' => t :: join l'
  | [] => []
  end.

(** The tokenizer's bracket check: every closing bracket closes the
    bracket opened last, and none is left open. *)
Fixpoint brackets_ok (stack : list sym) (l : list token) : bool :=
  match l with
  | [] => match stack with [] => true | _ => false end
  | TSym SLPar :: l' => brackets_ok (SLPar :: stack) l'
  | TSym SLBrk :: l' => brackets_ok (SLBrk :: stack) l'
  | TSym SRPar :: l' =>
      match stack with
      | SLPar :: stack' => brackets_ok stack' l'
      | _ => false
      end
  | TSym SRBrk :: l' =>
      match stack with
      | SLBrk :: stack' => brackets_ok stack' l'
      | _ => false
      end
  | _ :: l' => brackets_ok stack l'
  end.

Inductive binop : Type := Add | Sub | Mul | Div | Pow.
Inductive cmpop : Type := Lt | Gt | Le | Ge | Eq | Ne.

Inductive expr : Type :=
| ENum (z : Z)
| EStr (s : string)
| EName (s : string)
| ENeg (e : expr)
| EPos (e : expr)
| EBin (o : binop) (e1 e2 : expr)
| ECmp (o : cmpop) (e1 e2 : expr).

Definition keywords : list string :=
  ["None"; "and"; "as"; "assert"; "async"; "await"; "break"; "class";
   "continue"; "def"; "del"; "elif"; "else"; "except"; "finally"; "for";
   "from"; "global"; "if"; "import"; "in"; "is"; "lambda"; "nonlocal";
   "not"; "or"; "pass"; "raise"; "return"; "try"; "while"; "with"; "yield"].

Definition digit_value (c : ascii) : Z := Z.of_nat (code c) - 48.

Definition number_value (digits : list ascii) : Z :=
  fold_left (fun acc c => 10 * acc + digit_value c)%Z digits 0%Z.

(** A decimal literal with a leading zero is only legal when it is zero;
    literals beyond the interpreter's default limit of 4300 digits are left
    out of the model. *)
Definition legal_number (digits : list ascii) : bool :=
  (length digits <=? 4300) &&
  match digits with
  | c :: _ :: _ => negb (is_char "0" c) || forallb (is_char "0") digits
  | _ => true
  end.

Definition parse_atom (l : list token) : option (expr * list token) :=
  match l with
  | TNum d :: l' =>
      if legal_number d then Some (ENum (number_value d), l') else None
  | TStr s :: l' => Some (EStr (chars_str s), l')
  | TName s :: l' =>
      if bool_decide (chars_str s ∈ keywords) then None
      else Some (EName (chars_str s), l')
  | _ => None
  end.

(** unary: [-u], [+u] or an atom with an optional [** u] *)
Fixpoint parse_unary (fuel : nat) (l : list token) : option (expr * list token) :=
  match fuel with
  | O => None
  | S fuel' =>
      match l with
      | TSym SMinus :: l' =>
          '(e, r) ← parse_unary fuel' l'; Some (ENeg e, r)
      | TSym SPlus :: l' =>
          '(e, r) ← parse_unary fuel' l'; Some (EPos e, r)
      | _ =>
          '(a, r) ← parse_atom l;
          match r with
          | TSym SPow :: r' =>
              '(b, r'') ← parse_unary fuel' r'; Some (EBin Pow a b, r'')
          | _ => Some (a, r)
          end
      end
  end.

(** term: unary operands joined by [*] and [/], to the left *)
Fixpoint parse_term_rest (fuel : nat) (lhs : expr) (l : list token)
  : option (expr * list token) :=
  match fuel with
  | O => None
  | S fuel' =>
      match l with
      | TSym SStar :: l' =>
          '(b, r) ← parse_unary (S (length l')) l';
          parse_term_rest fuel' (EBin Mul lhs b) r
      | TSym SSlash :: l' =>
          '(b, r) ← parse_unary (S (length l')) l';
          parse_term_rest fuel' (EBin Div lhs b) r
      | _ => Some (lhs, l)
      end
  end.

Definition parse_term (l : list token) : option (expr * list token) :=
  '(a, r) ← parse_unary (S (length l)) l;
  parse_term_rest (S (length r)) a r.

(** arithmetic: terms joined by [+] and [-], to the left *)
Fixpoint parse_arith_rest (fuel : nat) (lhs : expr) (l : list token)
  : option (expr * list token) :=
  match fuel with
  | O => None
  | S fuel' =>
      match l with
      | TSym SPlus :: l' =>
          '(b, r) ← parse_term l';
          parse_arith_rest fuel' (EBin Add lhs b) r
      | TSym SMinus :: l' =>
          '(b, r) ← parse_term l';
          parse_arith_rest fuel' (EBin Sub lhs b) r
      | _ => Some (lhs, l)
      end
  end.

Definition parse_arith (l : list token) : option (expr * list token) :=
  '(a, r) ← parse_term l;
  parse_arith_rest (S (length r)) a r.

Definition cmp_of_sym (s : sym) : option cmpop :=
  match s with
  | SLt => Some Lt | SGt => Some Gt | SLe => Some Le | SGe => Some Ge
  | SEq => Some Eq | SNe => Some Ne
  | _ => None
  end.

(** An arithmetic expression or one comparison of two; the whole token
    list must be used up. *)
Definition parse (l : list token) : option expr :=
  '(a, r) ← parse_arith l;
  match r with
  | [] => Some a
  | TSym s :: r' =>
      o ← cmp_of_sym s;
      '(b, r'') ← parse_arith r';
      match r'' with
      | [] => Some (ECmp o a b)
      | _ => None
      end
  | _ => None
  end.

(** The names that [eval] resolves besides the constants [True] and
    [False]: the keys of [safe_dict], its key [__builtins__] included, and
    the interpreter's constant [__debug__].  Their values lie outside the
    modelled values. *)
Definition safe_names : list string :=
  ["abs"; "max"; "min"; "sum"; "pow"; "round"; "np"; "__builtins__";
   "__debug__"].

Definition as_int (v : value) : option Z :=
  match v with
  | VInt z => Some z
  | VBool b => Some (if b then 1 else 0)%Z
  | _ => None
  end.

Definition arith (o : binop) (a b : value) : outcome :=
  match as_int a, as_int b with
  | Some x, Some y =>
      match o with
      | Add => Value (VInt (x + y))
      | Sub => Value (VInt (x - y))
      | Mul => Value (VInt (x * y))
      | Div => if (y =? 0)%Z then Raises ZeroDivisionError else Unmodelled
      | Pow => if (0 <=? y)%Z then Value (VInt (x ^ y)) else Unmodelled
      end
  | _, _ =>
      match o, a, b with
      | Add, VStr x, VStr y => Value (VStr (x +:+ y))
      | Add, VStr _, _ | Add, _, VStr _ => Raises TypeError
      | Sub, _, _ | Div, _, _ | Pow, _, _ => Raises TypeError
      | _, _, _ => Unmodelled
      end
  end.

Definition compare (o : cmpop) (a b : value) : outcome :=
  match as_int a, as_int b with
  | Some x, Some y =>
      Value (VBool match o with
                   | Lt => (x <? y)%Z | Gt => (y <? x)%Z
                   | Le => (x <=? y)%Z | Ge => (y <=? x)%Z
                   | Eq => (x =? y)%Z | Ne => negb (x =? y)%Z
                   end)
  | _, _ => Unmodelled
  end.

Fixpoint eval_expr (e : expr) : outcome :=
  match e with
  | ENum z => Value (VInt z)
  | EStr s => Value (VStr s)
  | EName s =>
      if String.eqb s "True" then Value (VBool true)
      else if String.eqb s "False" then Value (VBool false)
      else if bool_decide (s ∈ safe_names) then Unmodelled
      else Raises (NameError s)
  | ENeg e1 =>
      match eval_expr e1 with
      | Value v =>
          match as_int v with
          | Some x => Value (VInt (- x))
          | None => Raises TypeError
          end
      | o => o
      end
  | EPos e1 =>
      match eval_expr e1 with
      | Value v =>
          match as_int v with
          | Some x => Value (VInt x)
          | None => Raises TypeError
          end
      | o => o
      end
  | EBin o e1 e2 =>
      match eval_expr e1 with
      | Value a =>
          match eval_expr e2 with
          | Value b => arith o a b
          | r => r
          end
      | r => r
      end
  | ECmp o e1 e2 =>
      match eval_expr e1 with
      | Value a =>
          match eval_expr e2 with
          | Value b => compare o a b
          | r => r
          end
      | r => r
      end
  end.

(** [eval(expression, safe_dict)] *)
Definition eval (expression : string) : outcome :=
  match lex LStart (str_chars expression) with
  | None => Unmodelled
  | Some raw =>
      let toks := join raw in
      if negb (brackets_ok [] toks) then Raises SyntaxError
      else match parse toks with
           | Some e => eval_expr e
           | None => Unmodelled
           end
  end.

End Py.

Import Py.

(** A Python string literal in double quotes. *)
Definition quoted (s : string) : string :=
  String dquote s +:+ String dquote EmptyString.

(** ** The evaluator of [FormulaExtractor] *)

(** [s.replace(old, new)] for a non-empty [old].  [skip] counts the
    characters of the last occurrence that are still to be passed over. *)
Fixpoint replace_scan (old new : list ascii) (skip : nat) (s : list ascii)
  : list ascii :=
  match s with
  | [] => []
  | c :: s' =>
      match skip with
      | S k => replace_scan old new k s'
      | O =>
          if bool_decide (old `prefix_of` s)
          then new ++ replace_scan old new (length old - 1) s'
          else c :: replace_scan old new 0 s'
      end
  end.

Definition replace (old new s : string) : string :=
  chars_str (replace_scan (str_chars old) (str_chars new) 0 (str_chars s)).

(** [s.endswith('[')] *)
Definition endswith_bracket (s : string) : bool :=
  match last (str_chars s) with
  | Some c => is_char "[" c
  | None => false
  end.

(** The [replacements] table of [_replace_excel_functions], in the order in
    which the source lists (and so iterates) it. *)
Definition replacements : list (string * string) :=
  [("SUM(", "sum([");
   ("AVERAGE(", "np.mean([");
   ("MAX(", "max([");
   ("MIN(", "min([");
   ("SQRT(", "np.sqrt(");
   ("ABS(", "abs(");
   ("POWER(", "pow(");
   ("EXP(", "np.exp(");
   ("LN(", "np.log(");
   ("LOG(", "np.log10(");
   ("PI()", "np.pi");
   ("TRUE", "True");
   ("FALSE", "False")].

Definition _replace_excel_functions (formula : string) : string :=
  fold_left
    (fun formula '(excel_func, python_func) =>
       let formula := replace excel_func python_func formula in
       if endswith_bracket python_func then replace ")" "])" formula
       else formula)
    replacements formula.

(** [r'\b[A-Z]+\d+\b'] *)
Definition single_cell_pattern : regex := Seq WordB (Seq cell_ref_re WordB).

(** The inner function [replace_cell] of [_substitute_cell_references],
    applied to the matched text. *)
Definition replace_cell (context : gmap string value) (cell_ref : string)
  : string :=
  match context !! cell_ref with
  | Some (VStr s) => quoted s
  | Some v => str v
  | None => "0"
  end.

Definition _substitute_cell_references (formula : string)
  (context : gmap string value) : string :=
  Re.sub single_cell_pattern (replace_cell context) formula.

Section Evaluator.

(** [str(e)] for an exception raised by [eval]: the interpreter's message
    text, which the source only passes on. *)
Variable message : exc -> string.

(** [_safe_eval]: the value, or the [ValueError] it raises, given by its
    message. *)
Definition _safe_eval (expression : string) : option (value + string) :=
  match Py.eval expression with
  | Value v => Some (inl v)
  | Raises e =>
      Some (inr ("Cannot evaluate expression '" +:+ expression +:+ "': " +:+
                 message e))
  | Unmodelled => None
  end.

(** [evaluate_formula]; [None] stands for an expression outside the
    modelled part of [eval].  A missing or empty context ([if context:])
    leaves the references in place. *)
Definition evaluate_formula (formula : string) (context : gmap string value)
  : option value :=
  if negb (startswith_eq formula) then Some (VStr formula)
  else
    let formula_body := drop_first formula in
    let formula_body :=
      if bool_decide (context = ∅) then formula_body
      else _substitute_cell_references formula_body context in
    let formula_body := _replace_excel_functions formula_body in
    match _safe_eval formula_body with
    | Some (inl result) => Some result
    | Some (inr e) => Some (VStr ("#ERROR: " +:+ e))
    | None => None
    end.

End Evaluator.

(** ** Insertion-ordered dictionaries

    A Python [dict] whose iteration order the code observes: the entries in
    insertion order.  Assigning to a key that is present replaces its value
    in place. *)

Module Dict.

Definition t (V : Type) : Type := list (string * V).

Fixpoint get {V} (d : t V) (k : string) : option V :=
  match d with
  | [] => None
  | (k', v) :: d' => if String.eqb k k' then Some v else get d' k
  end.

Fixpoint set {V} (d : t V) (k : string) (v : V) : t V :=
  match d with
  | [] => [(k, v)]
  | (k', v') :: d' =>
      if String.eqb k k' then (k, v) :: d' else (k', v') :: set d' k v
  end.

Definition keys {V} (d : t V) : list string := map fst d.

(** The representation invariant of a [dict]: no key occurs twice. *)
Definition wf {V} (d : t V) : Prop := NoDup (keys d).

End Dict.

(** ** The extracted document: [formula_data] *)

(** One sheet's entry as [_extract_sheet_formulas] builds it (the fields the
    functions below read). *)
Record sheet_data : Type := SheetData {
  formulas : Dict.t string;
  values : Dict.t value;
  formula_metadata : Dict.t metadata
}.

(** [formula_data['sheets']] *)
Definition sheets_t : Type := Dict.t sheet_data.

(** A cell as the workbook loader hands it over: its address
    ([column_letter] followed by [row]), its value if any, and whether its
    [data_type] is ['f'].  The value of a formula cell is the formula text. *)
Record cell : Type := Cell {
  address : string;
  cell_value : option value;
  is_formula_cell : bool
}.

(** The cell loop of [_extract_sheet_formulas]. *)
Definition extract_cell (sd : sheet_data) (c : cell) : sheet_data :=
  let sd :=
    match cell_value c with
    | Some v => SheetData (formulas sd) (Dict.set (values sd) (address c) v)
                          (formula_metadata sd)
    | None => sd
    end in
  match is_formula_cell c, cell_value c with
  | true, Some (VStr formula) =>
      SheetData (Dict.set (formulas sd) (address c) formula)
                (values sd)
                (Dict.set (formula_metadata sd) (address c)
                          (_analyze_formula formula (address c)))
  | _, _ => sd
  end.

Definition _extract_sheet_formulas (cells : list cell) : sheet_data :=
  fold_left extract_cell cells (SheetData [] [] []).

(** The sheet loop of [extract_formulas_from_workbook]. *)
Definition extract_formulas_from_workbook (wb : list (string * list cell))
  : sheets_t :=
  fold_left
    (fun sheets '(sheet_name, cells) =>
       Dict.set sheets sheet_name (_extract_sheet_formulas cells))
    wb [].

(** A cell holding the formula [text]. *)
Definition formula_cell (addr text : string) : cell :=
  Cell addr (Some (VStr text)) true.

(** A cell holding the literal [v]. *)
Definition literal_cell (addr : string) (v : value) : cell :=
  Cell addr (Some v) false.

(** ** [FormulaExtractor._detect_circular_references] *)

(** [f"{sheet_name}!{cell_address}"] *)
Definition full_address (sheet_name cell_address : string) : string :=
  sheet_name +:+ "!" +:+ cell_address.

(** [metadata.get('referenced_cells', [])] where [metadata] is
    [sheet_data.get('formula_metadata', {}).get(cell_address, {})] *)
Definition metadata_referenced_cells (sd : sheet_data) (cell_address : string)
  : list string :=
  match Dict.get (formula_metadata sd) cell_address with
  | Some md => referenced_cells md
  | None => []
  end.

(** The dependency graph: for every formula cell, in order, the list of the
    cells it refers to, each prefixed with the formula's own sheet name. *)
Definition build_dependencies (sheets : sheets_t) : Dict.t (list string) :=
  fold_left
    (fun dependencies '(sheet_name, sd) =>
       fold_left
         (fun dependencies '(cell_address, formula) =>
            Dict.set dependencies (full_address sheet_name cell_address)
              (map (full_address sheet_name)
                   (metadata_referenced_cells sd cell_address)))
         (formulas sd) dependencies)
    sheets [].

(** The mutable state of the traversal: the sets [visited] and [rec_stack],
    the list [path] and the result list [circular_refs] (the cycle of each
    entry; its description is derived from it). *)
Record dfs : Type := Dfs {
  visited : gset string;
  rec_stack : gset string;
  path : list string;
  circular_refs : list (list string)
}.

(** [path[path.index(neighbor):]] *)
Fixpoint from_first (neighbor : string) (path : list string) : list string :=
  match path with
  | [] => []
  | n :: path' =>
      if String.eqb n neighbor then path else from_first neighbor path'
  end.

(** [dependencies.get(node, [])] *)
Definition neighbors (dependencies : Dict.t (list string)) (node : string)
  : list string :=
  default [] (Dict.get dependencies node).

(** The [for] loop of [has_cycle] over the neighbours [l] that are left,
    followed by the lines after it; [call] is the recursive call. *)
Fixpoint for_neighbors (call : string -> dfs -> option (bool * dfs))
  (node : string) (l : list string) (st : dfs) : option (bool * dfs) :=
  match l with
  | [] =>
      Some (false,
            Dfs (visited st) (rec_stack st ∖ {[node]})
                (removelast (path st)) (circular_refs st))
  | neighbor :: l' =>
      if bool_decide (neighbor ∉ visited st) then
        match call neighbor st with
        | None => None
        | Some (true, st') => Some (true, st')
        | Some (false, st') => for_neighbors call node l' st'
        end
      else if bool_decide (neighbor ∈ rec_stack st) then
        let cycle := from_first neighbor (path st) ++ [neighbor] in
        Some (true,
              Dfs (visited st) (rec_stack st) (path st)
                  (circular_refs st ++ [cycle]))
      else for_neighbors call node l' st
  end.

(** The inner function [has_cycle].  [fuel] is the number of nested calls
    that the interpreter's recursion limit still allows; [None] is the
    [RecursionError] raised when a further call is made with none left. *)
Fixpoint has_cycle (dependencies : Dict.t (list string)) (fuel : nat)
  (node : string) (st : dfs) : option (bool * dfs) :=
  match fuel with
  | O => None
  | S fuel' =>
      for_neighbors (has_cycle dependencies fuel') node
        (neighbors dependencies node)
        (Dfs ({[node]} ∪ visited st) ({[node]} ∪ rec_stack st)
             (path st ++ [node]) (circular_refs st))
  end.

(** Every node of the graph: the keys and the cells referred to. *)
Definition graph_nodes (dependencies : Dict.t (list string)) : list string :=
  flat_map (fun '(node, l) => node :: l) dependencies.

(** The loop over the roots: a node not yet visited starts a traversal with
    a fresh [rec_stack] and a fresh [path]; [visited] and [circular_refs] are
    shared by all traversals. *)
Fixpoint for_roots (dependencies : Dict.t (list string)) (fuel : nat)
  (roots : list string) (seen : gset string) (found : list (list string))
  : option (list (list string)) :=
  match roots with
  | [] => Some found
  | node :: roots' =>
      if bool_decide (node ∉ seen) then
        match has_cycle dependencies fuel node (Dfs seen ∅ [] found) with
        | None => None
        | Some (_, st) =>
            for_roots dependencies fuel roots' (visited st) (circular_refs st)
        end
      else for_roots dependencies fuel roots' seen found
  end.

Definition graph_set (dependencies : Dict.t (list string)) : gset string :=
  list_to_set (graph_nodes dependencies).

(** The traversal of a given graph when the recursion limit leaves room for
    [depth] nested calls of [has_cycle]; [None] is the [RecursionError] that
    leaves [_detect_circular_references] when a chain of references is longer
    than that. *)
Definition detect_cycles_within (depth : nat)
  (dependencies : Dict.t (list string)) : option (list (list string)) :=
  for_roots dependencies depth (Dict.keys dependencies) ∅ [].

(** The traversal with room for one nested call more than the graph has
    nodes, which no traversal exceeds. *)
Definition detect_cycles (dependencies : Dict.t (list string))
  : option (list (list string)) :=
  detect_cycles_within (S (size (graph_set dependencies))) dependencies.

Definition _detect_circular_references (sheets : sheets_t)
  : option (list (list string)) :=
  detect_cycles (build_dependencies sheets).

(** [' -> '.join(cycle)] behind the fixed text of the ['description']. *)
Definition description (cycle : list string) : string :=
  "Circular reference detected: " +:+ String.concat " -> " cycle.

(** An edge of the graph, and a closed path: a list of nodes each joined to
    the next by an edge, whose last node is its first. *)
Definition edge (dependencies : Dict.t (list string)) (a b : string) : Prop :=
  In b (neighbors dependencies a).

Fixpoint chain (dependencies : Dict.t (list string)) (a : string)
  (l : list string) : Prop :=
  match l with
  | [] => True
  | b :: l' => edge dependencies a b /\ chain dependencies b l'
  end.

Definition closed_path (dependencies : Dict.t (list string))
  (l : list string) : Prop :=
  match l with
  | [] => False
  | a :: l' => l' <> [] /\ chain dependencies a l' /\ last l = Some a
  end.

(** A node takes part in a cycle when one of its edges leads to a node from
    which it can be reached again. *)
Definition on_cycle (dependencies : Dict.t (list string)) (n : string) : Prop :=
  exists m, edge dependencies n m /\ rtc (edge dependencies) m n.

(** A node is reported when it occurs in one of the reported cycles. *)
Definition reported (found : list (list string)) (n : string) : Prop :=
  exists cycle, In cycle found /\ In n cycle.

(** A set of nodes that the traversal has left for good: it holds the
    targets of all edges of its nodes, and none of its nodes takes part in a
    cycle. *)
Definition finished (dependencies : Dict.t (list string)) (C : gset string)
  : Prop :=
  (forall n m, n ∈ C -> edge dependencies n m -> m ∈ C) /\
  (forall n, n ∈ C -> ~ on_cycle dependencies n).

Definition is_chain (dependencies : Dict.t (list string)) (l : list string)
  : Prop :=
  match l with
  | [] => True
  | a :: l' => chain dependencies a l'
  end.

(** What holds of the traversal state between two steps: [path] follows
    edges, [rec_stack] holds the nodes of [path], and they are visited. *)
Definition path_inv (dependencies : Dict.t (list string)) (st : dfs) : Prop :=
  is_chain dependencies (path st) /\
  rec_stack st = list_to_set (path st) /\
  rec_stack st ⊆ visited st.

(** What a call of [has_cycle] on [node] establishes. *)
Definition post (dependencies : Dict.t (list string)) (node : string)
  (st : dfs) (b : bool) (st' : dfs) : Prop :=
  visited st ⊆ visited st' /\ node ∈ visited st' /\
  if b then
    exists cycle, circular_refs st' = circular_refs st ++ [cycle] /\
                  closed_path dependencies cycle
  else
    circular_refs st' = circular_refs st /\ path st' = path st /\
    rec_stack st' = rec_stack st /\
    (finished dependencies (visited st ∖ rec_stack st) ->
     finished dependencies (visited st' ∖ rec_stack st') /\
     node ∈ visited st' ∖ rec_stack st').

(** The recursive call [call] returns, with [post], on every unvisited node
    of the graph as long as fewer than [k] nodes are unvisited. *)
Definition call_ok (dependencies : Dict.t (list string)) (k : nat)
  (call : string -> dfs -> option (bool * dfs)) : Prop :=
  forall n st,
    n ∈ graph_set dependencies -> n ∉ visited st ->
    size (graph_set dependencies ∖ visited st) < k ->
    path_inv dependencies st ->
    is_chain dependencies (path st ++ [n]) ->
    exists b st', call n st = Some (b, st') /\ post dependencies n st b st'.

(** ** [FormulaExtractor._analyze_cross_sheet_dependencies] *)

Definition is_sheet_char (c : ascii) : bool :=
  is_char squote c || is_word c || is_space c.

(** [r"(['\w\s]+)!([A-Z]+\d+(?::[A-Z]+\d+)?)"] *)
Definition cross_sheet_pattern : regex :=
  Seq (Grp 1 (Plus (Cls is_sheet_char)))
      (Seq (Cls (is_char "!"))
           (Grp 2 (Seq cell_ref_re (Opt (Seq (Cls (is_char ":")) cell_ref_re))))).

(** [s.strip("'")] *)
Definition strip_quotes (s : list ascii) : list ascii :=
  rev (skip_while (is_char squote) (rev (skip_while (is_char squote) s))).

(** The sheets named in the qualified references of a formula, with the
    quotes stripped. *)
Definition referenced_sheets (formula : string) : list string :=
  map (fun m => chars_str (strip_quotes (group 1 m)))
      (scan cross_sheet_pattern 0 None (str_chars formula)).

Definition _analyze_cross_sheet_dependencies (sheets : sheets_t)
  : Dict.t (list string) :=
  fold_left
    (fun dependencies '(sheet_name, sd) =>
       let sheet_dependencies :=
         fold_left
           (fun acc '(_, formula) =>
              fold_left
                (fun acc referenced_sheet =>
                   if negb (String.eqb referenced_sheet sheet_name) &&
                      negb (bool_decide (referenced_sheet ∈ acc))
                   then acc ++ [referenced_sheet] else acc)
                (referenced_sheets formula) acc)
           (formulas sd) [] in
       match sheet_dependencies with
       | [] => dependencies
       | _ => Dict.set dependencies sheet_name sheet_dependencies
       end)
    sheets [].

(** ** [FormulaExtractor.validate_formula_integrity] *)

(** The characters of [valid_chars]. *)
Definition valid_chars : string :=
  "ABCDEFGHIJKLMNOPQRSTUVWXYZabcdefghijklmnopqrstuvwxyz0123456789+-*/^().,!:;<>=&% ".

Definition _validate_formula_syntax (formula : string) : bool :=
  if negb (startswith_eq formula) then false
  else if negb (count_char "(" formula =? count_char ")" formula) then false
  else if negb (forallb (fun c => contains_char c valid_chars)
                        (str_chars formula)) then false
  else true.

(** An entry of ['syntax_errors'] (its ['error'] text is fixed) and an entry
    of ['missing_references']. *)
Record syntax_error : Type := SyntaxErrorEntry {
  se_sheet : string;
  se_cell : string;
  se_formula : string
}.

Record missing_reference : Type := MissingReference {
  mr_sheet : string;
  mr_cell : string;
  mr_formula : string;
  mr_missing : list string
}.

Record validation_results : Type := ValidationResults {
  syntax_errors : list syntax_error;
  circular_references : option (list (list string));
  missing_references : list missing_reference;
  total_formulas : nat;
  valid_formulas : nat;
  error_formulas : nat;
  warning_formulas : nat
}.

(** [all_cells]: the addresses of all values and formulas of all sheets. *)
Definition all_cells (sheets : sheets_t) : gset string :=
  fold_left
    (fun acc '(_, sd) =>
       acc ∪ list_to_set (Dict.keys (values sd))
           ∪ list_to_set (Dict.keys (formulas sd)))
    sheets ∅.

(** The body of the loop over the formulas of one sheet. *)
Definition validate_one (cells : gset string) (sheet_name : string)
  (sd : sheet_data) (r : validation_results) (entry : string * string)
  : validation_results :=
  let '(cell_address, formula) := entry in
  let total := S (total_formulas r) in
  if negb (_validate_formula_syntax formula) then
    ValidationResults
      (syntax_errors r ++ [SyntaxErrorEntry sheet_name cell_address formula])
      (circular_references r) (missing_references r)
      total (valid_formulas r) (S (error_formulas r)) (warning_formulas r)
  else
    let missing_refs :=
      filter (fun ref_cell => ref_cell ∉ cells)
             (metadata_referenced_cells sd cell_address) in
    match missing_refs with
    | _ :: _ =>
        ValidationResults
          (syntax_errors r) (circular_references r)
          (missing_references r ++
             [MissingReference sheet_name cell_address formula missing_refs])
          total (valid_formulas r) (error_formulas r) (S (warning_formulas r))
    | [] =>
        ValidationResults
          (syntax_errors r) (circular_references r) (missing_references r)
          total (S (valid_formulas r)) (error_formulas r) (warning_formulas r)
    end.

Definition validate_formula_integrity (sheets : sheets_t) : validation_results :=
  let cells := all_cells sheets in
  let r :=
    fold_left
      (fun r '(sheet_name, sd) =>
         fold_left (validate_one cells sheet_name sd) (formulas sd) r)
      sheets (ValidationResults [] (Some []) [] 0 0 0 0) in
  ValidationResults
    (syntax_errors r) (_detect_circular_references sheets)
    (missing_references r)
    (total_formulas r) (valid_formulas r) (error_formulas r)
    (warning_formulas r).

(** Every formula of the document with its sheet and its cell, in the order
    of the two loops. *)
Definition formula_entries (sheets : sheets_t) : list (string * string * string) :=
  flat_map
    (fun '(sheet_name, sd) =>
       map (fun '(cell_address, formula) => (sheet_name, cell_address, formula))
           (formulas sd))
    sheets.

(** ** The formula export of [ExcelProcessor] *)

(** [processed_data['sheets']]: per sheet the dictionary ['formulas'] (the
    other fields do not enter the export of the formulas). *)
Definition processed_sheets : Type := Dict.t (Dict.t string).


(** An entry of ['global_formulas']. *)
Record global_formula : Type := GlobalFormula {
  gf_formula : string;
  gf_source_file : string;
  gf_sheet : string;
  gf_cell : string
}.

(** [f"{filename}#{sheet_name}!{cell_ref}"] *)
Definition global_ref (filename sheet_name cell_ref : string) : string :=
  filename +:+ "#" +:+ sheet_name +:+ "!" +:+ cell_ref.

(** The loop "Collect all formulas" of [create_master_formula_mapping]: the
    content of [master_mapping['global_formulas']]. *)
Definition global_formulas (multiple_files : list (string * processed_sheets))
  : Dict.t global_formula :=
  fold_left
    (fun out '(filename, sheets) =>
       fold_left
         (fun out '(sheet_name, sheet_formulas) =>
            fold_left
              (fun out '(cell_ref, formula) =>
                 Dict.set out (global_ref filename sheet_name cell_ref)
                   (GlobalFormula formula filename sheet_name cell_ref))
              sheet_formulas out)
         sheets out)
    multiple_files [].


(** A cell reference as [_process_sheet] writes it,
    [f"{cell.column_letter}{cell.row}"]: capital letters, then digits. *)
Definition is_cell_ref (s : string) : bool :=
  match str_chars s with
  | c :: l =>
      is_upper c &&
      match skip_while is_upper l with
      | [] => false
      | digits => forallb is_digit digits
      end
  | [] => false
  end.

(** The nested dictionaries of a processed document: dictionaries, keyed by
    cell references. *)
Definition processed_document (sheets : processed_sheets) : Prop :=
  Dict.wf sheets /\
  forall sheet_name sheet_formulas,
    In (sheet_name, sheet_formulas) sheets ->
    Dict.wf sheet_formulas /\
    forall cell_ref, In cell_ref (Dict.keys sheet_formulas) ->
                     is_cell_ref cell_ref = true.

(** The conditional of the specification's reference results:
    [=IF(1>0,"SAFE","UNSAFE")]. *)
Definition if_safe_unsafe : string :=
  "=IF(1>0," +:+ quoted "SAFE" +:+ "," +:+ quoted "UNSAFE" +:+ ")".

(** The text [IF(1>0,"SAFE","UNSAFE"]]]])] that reaches [eval] for it. *)
Definition if_safe_unsafe_rewritten : string :=
  "IF(1>0," +:+ quoted "SAFE" +:+ "," +:+ quoted "UNSAFE" +:+ "]]]])".

(** The references of a formula that a context does not hold: the matches
    of the cell pattern in the formula body that are no key of the context. *)
Definition defaulted_references (formula : string) (context : gmap string value)
  : list string :=
  filter (fun r => context !! r = None)
         (map (fun m => chars_str (whole m))
              (scan single_cell_pattern 0 None (str_chars (drop_first formula)))).

(** An error result of [evaluate_formula]: a string that begins with
    [#ERROR: ]. *)
Definition is_error_result (v : value) : bool :=
  match v with
  | VStr s => bool_decide (str_chars "#ERROR: " `prefix_of` str_chars s)
  | _ => false
  end.

(** An entry of the graph belongs to a formula cell, and its targets are the
    referenced cells of that formula under the name of the formula's sheet. *)
Definition own_sheet_entry (sheets : sheets_t) (entry : string * list string)
  : Prop :=
  exists sheet_name sd cell_address,
    In (sheet_name, sd) sheets /\
    fst entry = full_address sheet_name cell_address /\
    snd entry = map (full_address sheet_name)
                    (metadata_referenced_cells sd cell_address).

(** ** Sample documents *)

(** A1 and B1 refer to each other, and so do B1 and C1. *)
Definition overlapping_cycles_workbook : list (string * list cell) :=
  [("Sheet1", [formula_cell "A1" "=B1";
               formula_cell "B1" "=C1+A1";
               formula_cell "C1" "=B1*2"])].

(** The cycle A1, B1, C1, A1, with a second cycle B1, D1, B1 at B1. *)
Definition three_cycle_workbook : list (string * list cell) :=
  [("Sheet1", [formula_cell "A1" "=B1";
               formula_cell "B1" "=D1+C1";
               formula_cell "C1" "=A1";
               formula_cell "D1" "=B1"])].

(** The document of the end-to-end scenario: A1 holds [=B1+1] and B1 holds
    [=A1+1], in a sheet of any name. *)
Definition mutual_workbook (sheet_name : string) : list (string * list cell) :=
  [(sheet_name, [formula_cell "A1" "=B1+1"; formula_cell "B1" "=A1+1"])].

(** Two sheets; Sheet2!B6 refers to Sheet1!B15, which holds a number. *)
Definition cross_sheet_workbook : list (string * list cell) :=
  [("Sheet1", [literal_cell "B15" (VInt 5)]);
   ("Sheet2", [formula_cell "B6" "=Sheet1!B15*2"])].

(** Two sheets; Sheet2!A1 refers to the cell of the same address in Sheet1. *)
Definition same_address_workbook : list (string * list cell) :=
  [("Sheet1", [literal_cell "A1" (VInt 5)]);
   ("Sheet2", [formula_cell "A1" "=Sheet1!A1+1"])].

(** A formula with a character that [valid_chars] does not hold. *)
Definition outside_whitelist (formula : string) : Prop :=
  exists c, In c (str_chars formula) /\ contains_char c valid_chars = false.

(** An entry of the missing references whose formula passes the syntax
    check. *)
Definition valid_missing (m : missing_reference) : Prop :=
  _validate_formula_syntax (mr_formula m) = true.

(** The formula of the repository's test sheet, [=IF(B4>50,"OK","Check")]. *)
Definition if_ok_check : string :=
  "=IF(B4>50," +:+ quoted "OK" +:+ "," +:+ quoted "Check" +:+ ")".

Definition test_sheet_workbook : list (string * list cell) :=
  [("Test Sheet", [literal_cell "B2" (VInt 10); literal_cell "B3" (VInt 5);
                   formula_cell "B4" "=B2*B3";
                   formula_cell "B5" if_ok_check])].

(** The formulas of a processed document under their flat keys, in the
    order of the sheets and of their cells. *)
Definition flat_entries (sheets : processed_sheets) : Dict.t string :=
  flat_map
    (fun '(sheet_name, sheet_formulas) =>
       map (fun '(cell_ref, formula) =>
              (full_address sheet_name cell_ref, formula))
           sheet_formulas)
    sheets.

(** The same under the keys of the master mapping of the file [filename]. *)
Definition global_entries (filename : string) (sheets : processed_sheets)
  : Dict.t global_formula :=
  flat_map
    (fun '(sheet_name, sheet_formulas) =>
       map (fun '(cell_ref, formula) =>
              (global_ref filename sheet_name cell_ref,
               GlobalFormula formula filename sheet_name cell_ref))
           sheet_formulas)
    sheets.

(** The text after the last exclamation mark of a key, if it has one. *)
Fixpoint key_cell_ref (k : string) : option string :=
  match k with
  | EmptyString => None
  | String x k' =>
      match key_cell_ref k' with
      | Some r => Some r
      | None => if is_char "!" x then Some k' else None
      end
  end.

(** The processed test sheet of the repository's test. *)
Definition test_processed_sheets : processed_sheets :=
  [("Test Sheet", [("B4", "=B2*B3"); ("B5", if_ok_check)]);
   ("Notes!", [("A1", "=1+1")])].

(** ** The language of a pattern *)

(** The texts a pattern can match, word boundaries left aside. *)
Inductive lang : regex -> list ascii -> Prop :=
| lang_cls p c : p c = true -> lang (Cls p) [c]
| lang_seq r1 r2 w1 w2 : lang r1 w1 -> lang r2 w2 -> lang (Seq r1 r2) (w1 ++ w2)
| lang_star_nil r : lang (Star r) []
| lang_star_cons r w1 w2 :
    lang r w1 -> lang (Star r) w2 -> lang (Star r) (w1 ++ w2)
| lang_opt_none r : lang (Opt r) []
| lang_opt_some r w : lang r w -> lang (Opt r) w
| lang_grp n r w : lang r w -> lang (Grp n r) w
| lang_wordb : lang WordB [].

(** The pattern [r] has a group number [n] around [body]. *)
Fixpoint subgroup (n : nat) (body r : regex) : Prop :=
  match r with
  | Grp m r1 => (m = n /\ body = r1) \/ subgroup n body r1
  | Seq r1 r2 => subgroup n body r1 \/ subgroup n body r2
  | Star r1 | Opt r1 => subgroup n body r1
  | Cls _ | WordB => False
  end.

(** Every way through the pattern records group [n]. *)
Fixpoint captures (n : nat) (r : regex) : Prop :=
  match r with
  | Grp m r1 => m = n \/ captures n r1
  | Seq r1 r2 => captures n r1 \/ captures n r2
  | Star _ | Opt _ | Cls _ | WordB => False
  end.

(** What a run of the pattern [r] from [st] to [st'] has done: it has
    consumed a text of the language of [r], kept the groups recorded before,
    and recorded only texts of the languages of the groups of [r]. *)
Definition run_rel (r : regex) (st st' : mstate) : Prop :=
  (exists w, rest st = w ++ rest st' /\ lang r w) /\
  (forall x, In x (groups st) -> In x (groups st')) /\
  (forall n g, In (n, g) (groups st') ->
     In (n, g) (groups st) \/ exists body, subgroup n body r /\ lang body g).

(** The body of the one group of [cell_pattern]. *)
Definition cell_pattern_body : regex :=
  Seq cell_ref_re (Opt (Seq (Cls (is_char ":")) cell_ref_re)).

(** The body of the group of [constant_pattern]. *)
Definition constant_body : regex :=
  Seq (Plus (Cls is_digit))
      (Seq (Opt (Cls (is_char "."))) (Star (Cls is_digit))).

(** A range as [_analyze_formula] records it: two cell references joined by
    a colon. *)
Definition is_range_ref (s : string) : Prop :=
  exists a b, s = a +:+ ":" +:+ b /\
              is_cell_ref a = true /\ is_cell_ref b = true.

(** A decimal numeral that [float] accepts: digits, then possibly a point
    and further digits. *)
Definition is_decimal (s : string) : Prop :=
  exists whole_part fraction,
    whole_part <> [] /\ forallb is_digit whole_part = true /\
    forallb is_digit fraction = true /\
    (str_chars s = whole_part ++ fraction \/
     str_chars s = whole_part ++ "."%char :: fraction).

(** The eight operator symbols. *)
Definition operator_symbols : gset string :=
  {[ "+"; "-"; "*"; "/"; "^"; "<"; ">"; "=" ]}.

(** ** Keywords in formula texts *)

(** [str.lower()] on an ASCII text. *)
Definition lower_char (c : ascii) : ascii :=
  if is_upper c then ascii_of_nat (code c + 32) else c.

Definition lower (s : string) : string :=
  chars_str (map lower_char (str_chars s)).

(** [keyword in text] *)
Fixpoint occurs_in (keyword text : list ascii) : bool :=
  bool_decide (keyword `prefix_of` text) ||
  match text with
  | [] => false
  | _ :: text' => occurs_in keyword text'
  end.

Definition contains (keyword text : string) : bool :=
  occurs_in (str_chars keyword) (str_chars text).

(** [any(keyword in formula_lower for keyword in keywords)] where
    [formula_lower = formula.lower()] *)
Definition mentions (keywords : list string) (formula : string) : bool :=
  existsb (fun keyword => contains keyword (lower formula)) keywords.

(** The text has [n] characters of the class [p] in a row. *)
Fixpoint run_of (p : ascii -> bool) (n : nat) (s : list ascii) : bool :=
  match n, s with
  | O, _ => true
  | S n', c :: s' => p c && run_of p n' s'
  | S _, [] => false
  end.

Fixpoint has_run (p : ascii -> bool) (n : nat) (s : list ascii) : bool :=
  run_of p n s ||
  match s with
  | [] => false
  | _ :: s' => has_run p n s'
  end.

Definition is_letter (c : ascii) : bool := is_upper c || is_lower c.

(** ** Further functions of [ExcelProcessor] *)

Module ExcelProcessor.

(** [invalid_chars] *)
Definition invalid_chars : list ascii := ["#"; "@"; "&"; "|"]%char.

(** [ExcelProcessor._validate_formula_syntax]; on a string none of its
    steps raises, so the [except] branch is not taken. *)
Definition _validate_formula_syntax (formula : string) : bool :=
  if negb (count_char "(" formula =? count_char ")" formula) then false
  else if negb (startswith_eq formula) then false
  else if existsb (fun c => contains_char c formula) invalid_chars then false
  else true.

(** ** [ExcelProcessor._analyze_formula_dependencies] *)

(** [re.findall(r, s)] for a pattern without a group: the matched texts. *)
Definition findall_whole (r : regex) (s : string) : list string :=
  map (fun m => chars_str (whole m)) (scan r 0 None (str_chars s)).

(** [re.findall(r'[A-Z]+\d+', formula_text)] *)
Definition get_references (formula_text : string) : list string :=
  findall_whole cell_ref_re formula_text.

(** The references of a formula other than the cell itself. *)
Definition other_references (cell_ref formula : string) : list string :=
  List.filter (fun ref => negb (String.eqb ref cell_ref)) (get_references formula).

(** [list(set(referenced_cells))] is kept as the set. *)
Definition _analyze_formula_dependencies (formulas : Dict.t string)
  : Dict.t (gset string) :=
  fold_left
    (fun dependencies '(cell_ref, formula) =>
       match other_references cell_ref formula with
       | [] => dependencies
       | referenced_cells =>
           Dict.set dependencies cell_ref (list_to_set referenced_cells)
       end)
    formulas [].

(** ** [ExcelProcessor._check_circular_reference] *)

(** A loop that returns [True] at the first call that does, and [False]
    after the last one. *)
Fixpoint first_true (call : string -> option bool) (references : list string)
  : option bool :=
  match references with
  | [] => Some false
  | ref :: references' =>
      match call ref with
      | None => None
      | Some true => Some true
      | Some false => first_true call references'
      end
  end.

(** The inner function [has_circular_ref].  [visited] is the callee's own set:
    every recursive call gets a copy of it, taken after the current cell has
    been added.  [fuel] is the number of nested calls that the interpreter's
    recursion limit still allows; [None] is the [RecursionError] raised when
    a further call is made with none left. *)
Fixpoint has_circular_ref (fuel : nat) (formulas : Dict.t string)
  (current_cell target_cell : string) (visited : gset string) : option bool :=
  match fuel with
  | O => None
  | S fuel' =>
      if bool_decide (current_cell ∈ visited) then Some true
      else
        match Dict.get formulas current_cell with
        | None => Some false
        | Some formula_text =>
            let visited := {[current_cell]} ∪ visited in
            first_true
              (fun ref =>
                 if String.eqb ref target_cell then Some true
                 else has_circular_ref fuel' formulas ref target_cell visited)
              (get_references formula_text)
        end
  end.

(** [_check_circular_reference(cell_ref, formula, all_formulas)] when the
    recursion limit leaves room for [depth] nested calls of
    [has_circular_ref]; [None] is the [RecursionError], which nothing
    catches. *)
Definition _check_circular_reference (depth : nat) (cell_ref formula : string)
  (all_formulas : Dict.t string) : option bool :=
  first_true
    (fun ref => has_circular_ref depth all_formulas ref cell_ref ∅)
    (get_references formula).

(** The relation that the check follows: the formula text of the cell [a]
    holds the token [b], a match of [[A-Z]+\d+].  What stands before the
    token is not read, so a reference to a cell of another sheet counts as
    one to the cell with that address in the dictionary at hand. *)
Definition names_token (formulas : Dict.t string) (a b : string) : Prop :=
  exists formula_text,
    Dict.get formulas a = Some formula_text /\
    In b (get_references formula_text).

(** A cell is on a token cycle when it names a cell from which the tokens
    lead back to it; a cell reaches a token cycle when the tokens lead from
    it, in any number of steps, to a cell that is on one. *)
Definition on_token_cycle (formulas : Dict.t string) (n : string) : Prop :=
  exists m, names_token formulas n m /\ rtc (names_token formulas) m n.

Definition reaches_token_cycle (formulas : Dict.t string) (cell_ref : string)
  : Prop :=
  exists n,
    rtc (names_token formulas) cell_ref n /\ on_token_cycle formulas n.

(** ** [ExcelProcessor.validate_formulas] *)

(** An entry of [syntax_errors] or [circular_references]. *)
Record formula_issue : Type := FormulaIssue {
  issue_sheet : string;
  issue_cell : string;
  issue_formula : string
}.

(** [validation_results]; [validation_rate], a float computed from the two
    counts, is left out. *)
Record formula_validation : Type := FormulaValidation {
  syntax_errors : list formula_issue;
  reference_errors : list formula_issue;
  circular_references : list formula_issue;
  warnings : list formula_issue;
  total_formulas : nat;
  valid_formulas : nat
}.

(** The body of the inner loop, for one formula of a sheet. *)
Definition validate_cell (depth : nat) (sheet_name : string)
  (sheet_formulas : Dict.t string)
  (results : option formula_validation) (entry : string * string)
  : option formula_validation :=
  let '(cell_ref, formula) := entry in
  match results with
  | None => None
  | Some r =>
      match _check_circular_reference depth cell_ref formula sheet_formulas with
      | None => None
      | Some circular =>
          let issue := FormulaIssue sheet_name cell_ref formula in
          let valid := _validate_formula_syntax formula in
          Some (FormulaValidation
                  (if valid then syntax_errors r else syntax_errors r ++ [issue])
                  (reference_errors r)
                  (if circular then circular_references r ++ [issue]
                   else circular_references r)
                  (warnings r)
                  (S (total_formulas r))
                  (if valid then S (valid_formulas r) else valid_formulas r))
      end
  end.

(** [validate_formulas] when the recursion limit leaves room for [depth]
    nested calls of [has_circular_ref]; [None] is the [RecursionError]. *)
Definition validate_formulas (depth : nat) (sheets : processed_sheets)
  : option formula_validation :=
  fold_left
    (fun results '(sheet_name, sheet_formulas) =>
       fold_left (validate_cell depth sheet_name sheet_formulas)
                 sheet_formulas results)
    sheets (Some (FormulaValidation [] [] [] [] 0 0)).

(** The formulas of a document in the order of the loops, each as the entry
    it would give and with the dictionary of its sheet. *)
Definition tagged_issues (sheets : processed_sheets)
  : list (Dict.t string * formula_issue) :=
  flat_map
    (fun '(sheet_name, sheet_formulas) =>
       map (fun '(cell_ref, formula) =>
              (sheet_formulas, FormulaIssue sheet_name cell_ref formula))
           sheet_formulas)
    sheets.

(** What the loops have established after the formulas [done]. *)
Definition validated (done : list (Dict.t string * formula_issue))
  (r : formula_validation) : Prop :=
  total_formulas r = length done /\
  valid_formulas r + length (syntax_errors r) = total_formulas r /\
  reference_errors r = [] /\
  warnings r = [] /\
  (forall i, In i (syntax_errors r) <->
     exists fs, In (fs, i) done /\
                _validate_formula_syntax (issue_formula i) = false) /\
  (forall i, In i (circular_references r) <->
     exists fs, In (fs, i) done /\ reaches_token_cycle fs (issue_cell i)).

(** What an entry of the dependencies says: the set is not empty, does not
    hold the cell itself, holds cell references only, and is the set of the
    other references of a formula of that cell. *)
Definition dependency_entry_ok (formulas : Dict.t string)
  (entry : string * gset string) : Prop :=
  let '(cell_ref, deps) := entry in
  deps <> ∅ /\ (cell_ref ∉ deps) /\
  (forall ref, ref ∈ deps -> is_cell_ref ref = true) /\
  exists formula,
    In (cell_ref, formula) formulas /\
    deps = list_to_set (other_references cell_ref formula).

(** ** [ExcelProcessor._process_sheet] and [process_excel_file] *)

(** A cell of a worksheet as [_process_sheet] reads it: the reference
    [f"{cell.column_letter}{cell.row}"], [cell.value] ([None] for an empty
    cell) and the attribute [formula], if the cell has one. *)
Record worksheet_cell : Type := WorksheetCell {
  wc_ref : string;
  wc_value : option value;
  wc_formula : option string
}.

(** The fields ['formulas'] and ['values'] of the entry of a sheet. *)
Record processed_sheet : Type := ProcessedSheet {
  sheet_formulas : Dict.t string;
  sheet_values : Dict.t value
}.

(** [hasattr(cell, 'formula') and cell.formula] *)
Definition formula_attribute (c : worksheet_cell) : option string :=
  match wc_formula c with
  | Some EmptyString => None
  | other => other
  end.

(** The body of the cell loop. *)
Definition process_cell (sd : processed_sheet) (c : worksheet_cell)
  : processed_sheet :=
  match wc_value c with
  | None => sd
  | Some v =>
      let values' := Dict.set (sheet_values sd) (wc_ref c) v in
      match formula_attribute c with
      | Some formula =>
          ProcessedSheet (Dict.set (sheet_formulas sd) (wc_ref c) formula)
                         values'
      | None =>
          match v with
          | VStr text =>
              if startswith_eq text
              then ProcessedSheet (Dict.set (sheet_formulas sd) (wc_ref c) text)
                                  values'
              else ProcessedSheet (sheet_formulas sd) values'
          | _ => ProcessedSheet (sheet_formulas sd) values'
          end
      end
  end.

Definition _process_sheet (cells : list worksheet_cell) : processed_sheet :=
  fold_left process_cell cells (ProcessedSheet [] []).

(** The sheet loop of [process_excel_file]: [processed_data['sheets']]. *)
Definition process_excel_file (wb : list (string * list worksheet_cell))
  : Dict.t processed_sheet :=
  fold_left
    (fun sheets '(sheet_name, cells) =>
       Dict.set sheets sheet_name (_process_sheet cells))
    wb [].

(** The formulas of the processed sheets, as the functions above read
    them. *)
Definition formulas_of_sheets (sheets : Dict.t processed_sheet)
  : processed_sheets :=
  map (fun '(sheet_name, sd) => (sheet_name, sheet_formulas sd)) sheets.

(** What holds of the entry of a sheet built from the cells [cells]: every
    formula has a value under its reference, and it is the formula attribute
    of a cell with that reference or the text, starting with the equals sign,
    of such a cell. *)
Definition processed_ok (cells : list worksheet_cell) (sd : processed_sheet)
  : Prop :=
  forall ref formula,
    Dict.get (sheet_formulas sd) ref = Some formula ->
    (exists v, Dict.get (sheet_values sd) ref = Some v) /\
    exists c, In c cells /\ wc_ref c = ref /\
      (formula_attribute c = Some formula \/
       (formula_attribute c = None /\ wc_value c = Some (VStr formula) /\
        startswith_eq formula = true)).

(** A workbook none of whose cells has a formula attribute. *)
Definition plain_cells (wb : list (string * list worksheet_cell)) : Prop :=
  forall sheet_name cells c,
    In (sheet_name, cells) wb -> In c cells -> wc_formula c = None.

(** A syntax error that lies in the content of the formula: its parentheses
    do not balance in number, or it holds one of the invalid characters. *)
Definition content_error (i : formula_issue) : Prop :=
  count_char "(" (issue_formula i) <> count_char ")" (issue_formula i) \/
  existsb (fun c => contains_char c (issue_formula i)) invalid_chars = true.

(** ** [ExcelProcessor._identify_calculation_sequences] *)

(** [s.split()]: the words of [s], separated by white space.  [word] holds
    the characters of the current word, the last one first. *)
Fixpoint split_scan (word s : list ascii) : list string :=
  match s with
  | [] =>
      match word with
      | [] => []
      | _ => [chars_str (rev word)]
      end
  | c :: s' =>
      if is_space c then
        match word with
        | [] => split_scan [] s'
        | _ => chars_str (rev word) :: split_scan [] s'
        end
      else split_scan (c :: word) s'
  end.

Definition str_split (s : string) : list string := split_scan [] (str_chars s).

(** [sequence_patterns] *)
Definition sequence_patterns : Dict.t (list string) :=
  [("stability_analysis",
    ["dead_load_calculation"; "earth_pressure_calculation";
     "moment_calculation"; "overturning_check"; "sliding_check";
     "bearing_pressure_check"]);
   ("hydraulic_analysis",
    ["regime_width_calculation"; "velocity_calculation"; "afflux_calculation";
     "scour_depth_calculation"; "waterway_adequacy_check"]);
   ("structural_design",
    ["load_calculation"; "moment_calculation"; "reinforcement_design";
     "deflection_check"; "crack_width_check"])].

(** [step.replace('_', ' ').split()] *)
Definition step_keywords (step : string) : list string :=
  str_split (replace "_" " " step).

(** The loop over the steps, left at the first step one of whose keywords
    occurs in the lower-cased formula. *)
Fixpoint first_step (steps : list string) (formula : string) : option string :=
  match steps with
  | [] => None
  | step :: steps' =>
      if mentions (step_keywords step) formula then Some step
      else first_step steps' formula
  end.

(** An entry of [sequence_formulas]. *)
Record sequence_formula : Type := SequenceFormula {
  sf_step : string;
  sf_sheet : string;
  sf_cell : string;
  sf_formula : string
}.

(** The loops over the sheets and their formulas, for one sequence. *)
Definition sequence_formulas (steps : list string) (sheets : processed_sheets)
  : list sequence_formula :=
  fold_left
    (fun found '(sheet_name, fs) =>
       fold_left
         (fun found '(cell_ref, formula) =>
            match first_step steps formula with
            | Some step =>
                found ++ [SequenceFormula step sheet_name cell_ref formula]
            | None => found
            end)
         fs found)
    sheets [].

Definition _identify_calculation_sequences (sheets : processed_sheets)
  : Dict.t (list sequence_formula) :=
  fold_left
    (fun sequences '(sequence_name, steps) =>
       match sequence_formulas steps sheets with
       | [] => sequences
       | found => Dict.set sequences sequence_name found
       end)
    sequence_patterns [].

(** The formulas of a document that some step of [steps] mentions, each
    with the first such step, in the order of the document. *)
Definition assigned_steps (steps : list string) (sheets : processed_sheets)
  : list sequence_formula :=
  flat_map
    (fun '(sheet_name, fs) =>
       flat_map
         (fun '(cell_ref, formula) =>
            match first_step steps formula with
            | Some step => [SequenceFormula step sheet_name cell_ref formula]
            | None => []
            end)
         fs)
    sheets.

(** A document none of whose formulas has four letters in a row. *)
Definition short_formulas_only (sheets : processed_sheets) : Prop :=
  forall sheet_name fs cell_ref formula,
    In (sheet_name, fs) sheets -> In (cell_ref, formula) fs ->
    has_run is_letter 4 (str_chars formula) = false.

End ExcelProcessor.

(** What an entry of the missing references says: it has at least one
    reference; the sheet of the entry holds the formula at the cell; and each
    reference listed is a referenced cell of the formula's metadata at which
    no sheet of the document has a value or a formula. *)
Definition missing_entry_ok (sheets : sheets_t) (m : missing_reference) : Prop :=
  mr_missing m <> [] /\
  exists sd,
    In (mr_sheet m, sd) sheets /\
    In (mr_cell m, mr_formula m) (formulas sd) /\
    forall ref_cell, In ref_cell (mr_missing m) ->
      In ref_cell (metadata_referenced_cells sd (mr_cell m)) /\
      forall s' sd', In (s', sd') sheets ->
        ~ In ref_cell (Dict.keys (values sd')) /\
        ~ In ref_cell (Dict.keys (formulas sd')).

(** The number of occurrences of a character in a list of characters. *)
Definition cnt (x : ascii) (l : list ascii) : nat :=
  length (filter (fun c => is_char x c = true) l).

(** The body of the loop of [_replace_excel_functions]. *)
Definition replace_step (formula : string) (entry : string * string) : string :=
  let '(excel_func, python_func) := entry in
  let formula := replace excel_func python_func formula in
  if endswith_bracket python_func then replace ")" "])" formula else formula.

(** The result of [evaluate_formula] for the text handed to [_safe_eval]. *)
Definition evaluation_result (r : option (value + string)) : option value :=
  match r with
  | Some (inl result) => Some result
  | Some (inr e) => Some (VStr ("#ERROR: " +:+ e))
  | None => None
  end.

(** An entry whose texts have neither a closing parenthesis nor a closing
    bracket. *)
Definition plain_entry (entry : string * string) : Prop :=
  fst entry <> EmptyString /\
  count_char ")" (fst entry) = 0 /\ count_char ")" (snd entry) = 0 /\
  count_char "]" (fst entry) = 0 /\ count_char "]" (snd entry) = 0.

(** An entry that neither has nor brings a closing bracket. *)
Definition bracket_free_entry (entry : string * string) : Prop :=
  fst entry <> EmptyString /\ endswith_bracket (snd entry) = false /\
  count_char "]" (fst entry) = 0 /\ count_char "]" (snd entry) = 0.


(** What an entry of the cross-sheet dependencies says: the list is not
    empty, does not name the sheet itself, names no sheet twice, and each
    sheet it names is read off a qualified reference in a formula of the
    sheet. *)
Definition cross_sheet_entry_ok (sheets : sheets_t)
  (entry : string * list string) : Prop :=
  snd entry <> [] /\ ~ In (fst entry) (snd entry) /\ NoDup (snd entry) /\
  forall t, In t (snd entry) ->
    exists sd c f, In (fst entry, sd) sheets /\ In (c, f) (formulas sd) /\
                   In t (referenced_sheets f).

(** What holds of the sheet entry that [_extract_sheet_formulas] builds. *)
Definition extracted_ok (sd : sheet_data) : Prop :=
  Dict.keys (formulas sd) = Dict.keys (formula_metadata sd) /\
  (forall c f, Dict.get (formulas sd) c = Some f ->
     Dict.get (formula_metadata sd) c = Some (_analyze_formula f c)) /\
  (forall c, In c (Dict.keys (formulas sd)) -> In c (Dict.keys (values sd))) /\
  Dict.wf (formulas sd) /\ Dict.wf (values sd).

(** [formula_summary['total_formulas']] of [extract_formulas_from_workbook]:
    the lengths of the formula dictionaries of the sheets, added up in the
    sheet loop. *)
Definition workbook_total_formulas (wb : list (string * list cell)) : nat :=
  fold_left
    (fun total '(sheet_name, cells) =>
       total + length (formulas (_extract_sheet_formulas cells)))
    wb 0.

(** The formulas of several files under the keys of the master mapping, in
    the order of the files. *)
Definition all_global_entries (files : list (string * processed_sheets))
  : Dict.t global_formula :=
  flat_map (fun '(filename, sheets) => global_entries filename sheets) files.

(** Files that the master mapping keeps apart: their names are pairwise
    distinct and have no number sign, and each is a processed document. *)
Definition separable_files (files : list (string * processed_sheets)) : Prop :=
  NoDup (map fst files) /\
  forall filename sheets, In (filename, sheets) files ->
    contains_char "#" filename = false /\ processed_document sheets.

(** ** [FormulaExtractor.extract_engineering_formulas] *)

(** An entry of the list ['formulas'] of a category; [metadata] is [None]
    where the source falls back to the empty dictionary. *)
Record engineering_formula : Type := EngineeringFormula {
  ef_sheet : string;
  ef_cell : string;
  ef_formula : string;
  ef_metadata : option metadata
}.

Record category_data : Type := CategoryData {
  keywords : list string;
  category_formulas : list engineering_formula
}.

(** [engineering_categories] as the function sets it up. *)
Definition engineering_categories : Dict.t category_data :=
  [("structural",
    CategoryData ["moment"; "shear"; "stress"; "strain"; "deflection";
                  "force"; "load"] []);
   ("hydraulic",
    CategoryData ["discharge"; "velocity"; "flow"; "pressure"; "head";
                  "regime"; "afflux"] []);
   ("geotechnical",
    CategoryData ["bearing"; "settlement"; "earth"; "pressure"; "friction";
                  "cohesion"] []);
   ("material",
    CategoryData ["concrete"; "steel"; "strength"; "modulus"; "grade";
                  "density"] []);
   ("geometric",
    CategoryData ["area"; "volume"; "length"; "width"; "height"; "thickness";
                  "span"] [])].

(** The loop over the categories, for one formula: the entry is appended to
    the list of every category one of whose keywords occurs in it. *)
Definition categorize (entry : engineering_formula)
  (categories : Dict.t category_data) : Dict.t category_data :=
  map (fun '(category, data) =>
         (category,
          if mentions (keywords data) (ef_formula entry)
          then CategoryData (keywords data) (category_formulas data ++ [entry])
          else data))
      categories.

Definition extract_engineering_formulas (sheets : sheets_t)
  : Dict.t category_data :=
  fold_left
    (fun categories '(sheet_name, sd) =>
       fold_left
         (fun categories '(cell_address, formula) =>
            categorize
              (EngineeringFormula sheet_name cell_address formula
                 (Dict.get (formula_metadata sd) cell_address))
              categories)
         (formulas sd) categories)
    sheets engineering_categories.

(** The formulas of a document as entries, in the order of the loops. *)
Definition engineering_entries (sheets : sheets_t) : list engineering_formula :=
  flat_map
    (fun '(sheet_name, sd) =>
       map (fun '(cell_address, formula) =>
              EngineeringFormula sheet_name cell_address formula
                (Dict.get (formula_metadata sd) cell_address))
           (formulas sd))
    sheets.

(** The categories with the entries [done] sorted into them. *)
Definition sorted_into (categories : Dict.t category_data)
  (done : list engineering_formula) : Dict.t category_data :=
  map (fun '(category, data) =>
         (category,
          CategoryData (keywords data)
            (category_formulas data ++
             List.filter (fun entry => mentions (keywords data) (ef_formula entry))
                         done)))
      categories.

(** A document none of whose formulas has four letters in a row: cell
    references, numbers, operators and names of at most three letters. *)
Definition short_names_only (sheets : sheets_t) : Prop :=
  forall sheet_name sd cell_address formula,
    In (sheet_name, sd) sheets ->
    In (cell_address, formula) (formulas sd) ->
    has_run is_letter 4 (str_chars formula) = false.

(** ** Facts about the matcher *)

Section MatcherFacts.

Variable P : ascii -> bool.

Lemma free_tail c s : free P (c :: s) -> free P s.
Proof. unfold free. intros H. by inversion H. Qed.

Lemma star_loop_free (f : mstate -> list mstate) :
  (forall st st', In st' (f st) -> free P (rest st) -> free P (rest st')) ->
  forall n st st',
    In st'
      ((fix loop (n : nat) (st : mstate) {struct n} : list mstate :=
          match n with
          | O => [st]
          | S n' =>
              flat_map
                (fun st' =>
                   if (length (rest st') <? length (rest st))%nat
                   then loop n' st' else [])
                (f st) ++ [st]
          end) n st) ->
    free P (rest st) -> free P (rest st').
Proof.
  intros Hf. induction n as [|n IH]; intros st st' Hin Hfree.
  - destruct Hin as [<-|[]]. exact Hfree.
  - apply in_app_or in Hin. destruct Hin as [Hin|[<-|[]]]; [|exact Hfree].
    apply in_flat_map in Hin. destruct Hin as (st1 & H1 & H2).
    destruct (length (rest st1) <? length (rest st))%nat; [|destruct H2].
    eapply IH; [exact H2|]. eapply Hf; eauto.
Qed.

(** The text left after a match is a part of the text matched on. *)
Lemma run_free r : forall st st',
  In st' (run r st) -> free P (rest st) -> free P (rest st').
Proof.
  induction r as [p|r1 IH1 r2 IH2|r1 IH1|r1 IH1|n r1 IH1|];
    intros st st' Hin Hfree; simpl in Hin.
  - destruct (rest st) as [|c s'] eqn:E; [destruct Hin|].
    destruct (p c); [|destruct Hin]. destruct Hin as [<-|[]]. simpl.
    eapply free_tail; eauto.
  - apply in_flat_map in Hin. destruct Hin as (st1 & H1 & H2). eauto.
  - eapply star_loop_free; eauto.
  - apply in_app_or in Hin. destruct Hin as [Hin|[<-|[]]]; eauto.
  - apply in_map_iff in Hin. destruct Hin as (st1 & <- & H1). simpl. eauto.
  - destruct (xorb _ _); [|destruct Hin]. by destruct Hin as [<-|[]].
Qed.

Lemma flat_map_nil {A B} (f : A -> list B) (l : list A) :
  (forall x, In x l -> f x = []) -> flat_map f l = [].
Proof.
  induction l as [|x l IH]; intros H; simpl; [done|].
  rewrite (H x) by (left; done). apply IH. intros y Hy. apply H. by right.
Qed.

(** A pattern that needs a character of [P] does not match in a text that
    has none. *)
Lemma run_needs r : needs P r -> forall st, free P (rest st) -> run r st = [].
Proof.
  induction r as [p|r1 IH1 r2 IH2|r1 IH1|r1 IH1|n r1 IH1|];
    simpl; intros Hn st Hfree; try done.
  - destruct (rest st) as [|c s'] eqn:E; [done|].
    destruct (p c) eqn:Epc; [|done].
    apply Hn in Epc. inversion Hfree; congruence.
  - destruct Hn as [Hn|Hn].
    + by rewrite IH1.
    + apply flat_map_nil. intros st1 H1. apply IH2; [done|].
      eapply run_free; eauto.
  - by rewrite IH1.
Qed.



End MatcherFacts.









(** ** Classification and complexity *)

Lemma classification_chain nf nc nr no :
  (if 0 <? nf then function
   else if (5 <? nc) || (0 <? nr) then complex_reference
   else if 3 <? no then complex_arithmetic
   else simple) = classification_rule nf nc nr no.
Proof.
  unfold classification_rule.
  destruct (Nat.ltb_spec 0 nf), (Nat.ltb_spec 5 nc), (Nat.ltb_spec 0 nr),
    (Nat.ltb_spec 3 no); simpl; repeat case_decide; try reflexivity; lia.
Qed.

Lemma analyze_type_rule (formula cell : string) :
  formula_type (_analyze_formula formula cell) =
  classification_rule
    (size (excel_functions (_analyze_formula formula cell)))
    (length (referenced_cells (_analyze_formula formula cell)))
    (length (referenced_ranges (_analyze_formula formula cell)))
    (size (operators (_analyze_formula formula cell))).
Proof.
  unfold _analyze_formula. destruct (startswith_eq formula); simpl.
  - apply classification_chain.
  - reflexivity.
Qed.

(** An operator token is one character of the operator class, and every
    such character of the text is a token. *)
Lemma scan_operator_pattern : forall s p,
  map (fun m => chars_str (group 1 m)) (scan operator_pattern 0 p s) =
  map (fun c => String c EmptyString) (List.filter is_operator s).
Proof.
  induction s as [|c s IH]; intros p; [reflexivity|].
  unfold operator_pattern in *.
  cbn [scan List.filter]. unfold match_at. cbn [run rest groups prev map].
  destruct (is_operator c) eqn:E.
  - cbn [map length rest]. replace (S (length s) - length s) with 1 by lia.
    cbn [Nat.sub]. rewrite IH. f_equal.
    unfold group, consumed. cbn [captured find fst snd Nat.eqb rest length].
    replace (S (length s) - length s) with 1 by lia. reflexivity.
  - cbn [map]. apply IH.
Qed.

Lemma operator_tokens_chars formula :
  operator_tokens formula =
  map (fun c => String c EmptyString)
      (List.filter is_operator (str_chars (drop_first formula))).
Proof. unfold operator_tokens, findall. apply scan_operator_pattern. Qed.

(** C6 (as stated) fails: [=1+2+3+4+5] has four operator tokens, no
    function, no cell reference and no range, and its type is [simple]: the
    operators are counted after duplicates have been removed. *)
Lemma C6_counterexample :
  ~ (forall formula cell,
       startswith_eq formula = true ->
       formula_type (_analyze_formula formula cell) =
       classification_rule
         (length (function_tokens formula)) (length (cell_tokens formula))
         (length (range_tokens formula)) (length (operator_tokens formula))) /\
  operator_tokens "=1+2+3+4+5" = ["+"; "+"; "+"; "+"] /\
  function_tokens "=1+2+3+4+5" = [] /\
  cell_tokens "=1+2+3+4+5" = [] /\
  range_tokens "=1+2+3+4+5" = [] /\
  formula_type (_analyze_formula "=1+2+3+4+5" "A1") = simple.
Proof.
  split; [|repeat split; by vm_compute].
  intros H. specialize (H "=1+2+3+4+5" "A1" eq_refl).
  vm_compute in H. discriminate H.
Qed.

(** C6 (amended): for a formula text, the formula type that
    [_analyze_formula] records is [function] if the text has a function
    token; else [complex_reference] if it has more than five cell-reference
    tokens, repetitions counted, or a range token; else [complex_arithmetic]
    if more than three different operator symbols occur in it; else
    [simple].  The operator tokens are the characters [+ - * / ^ < > =] of
    the text behind the leading equals sign. *)
Theorem C6_classification_first_match_wins (formula cell : string) :
  startswith_eq formula = true ->
  formula_type (_analyze_formula formula cell) =
    classification_rule
      (length (function_tokens formula)) (length (cell_tokens formula))
      (length (range_tokens formula)) (distinct_operators formula) /\
  operator_tokens formula =
    map (fun c => String c EmptyString)
        (List.filter is_operator (str_chars (drop_first formula))).
Proof.
  intros Hs. split; [|apply operator_tokens_chars].
  rewrite analyze_type_rule. unfold _analyze_formula. rewrite Hs.
  cbn [negb excel_functions referenced_cells referenced_ranges operators].
  unfold classification_rule, distinct_operators, function_tokens,
    cell_tokens, range_tokens, operator_tokens.
  destruct (findall function_pattern (drop_first formula)) as [|f fs] eqn:Ef.
  - rewrite list_to_set_nil, size_empty. cbn [length]. reflexivity.
  - assert (Hpos : 1 <= size (list_to_set (f :: fs) : gset string)).
    { destruct (size (list_to_set (f :: fs) : gset string)) eqn:Es; [|lia].
      apply size_empty_iff in Es. set_solver. }
    rewrite (decide_True (P := 1 ≤ size _)) by exact Hpos.
    rewrite (decide_True (P := 1 ≤ length (f :: fs))) by (cbn [length]; lia).
    reflexivity.
Qed.

Lemma C6_witness :
  formula_type (_analyze_formula "=A1+B1*C1-D1/2" "E1") =
    classification_rule
      (length (function_tokens "=A1+B1*C1-D1/2"))
      (length (cell_tokens "=A1+B1*C1-D1/2"))
      (length (range_tokens "=A1+B1*C1-D1/2"))
      (distinct_operators "=A1+B1*C1-D1/2") /\
  operator_tokens "=A1+B1*C1-D1/2" =
    map (fun c => String c EmptyString)
        (List.filter is_operator (str_chars (drop_first "=A1+B1*C1-D1/2"))).
Proof.
  apply (C6_classification_first_match_wins "=A1+B1*C1-D1/2" "E1").
  reflexivity.
Defined.






(** ** The evaluator *)

(** C2: with no context [=2+3*4] evaluates to 14, but [=SQRT(16)] and
    [=IF(1>0,"SAFE","UNSAFE")] do not evaluate to 4 and to ["SAFE"]: each
    closing parenthesis has received four closing square brackets, [eval]
    rejects the text and the result is the [#ERROR: ] string. *)
Theorem C2_reference_results (message : exc -> string) :
  evaluate_formula message "=2+3*4" ∅ = Some (VInt 14) /\
  _replace_excel_functions "SQRT(16)" = "np.sqrt(16]]]])" /\
  evaluate_formula message "=SQRT(16)" ∅ =
    Some (VStr ("#ERROR: Cannot evaluate expression 'np.sqrt(16]]]])': " +:+
                message SyntaxError)) /\
  _replace_excel_functions (drop_first if_safe_unsafe) =
    if_safe_unsafe_rewritten /\
  evaluate_formula message if_safe_unsafe ∅ =
    Some (VStr ("#ERROR: Cannot evaluate expression '" +:+
                if_safe_unsafe_rewritten +:+ "': " +:+ message SyntaxError)).
Proof. repeat split; vm_compute; reflexivity. Qed.

(** The substitution depends on the replacement function only through its
    values. *)
(** ** The matches of a cell reference

    The matcher run on [[A-Z]+\d+], with and without word boundaries: what
    it returns at a position is the reference of greatest length there. *)

Lemma greedy_states_one p st :
  starts_with_class p (rest st) = false -> greedy_states p st [st].
Proof.
  intros H. exists st, []. split; [done|]. split.
  - destruct (rest st) as [|c s]; [done|]. cbn in H. cbn [skip_while].
    by rewrite H.
  - split; [|constructor]. constructor; [|constructor]. split; [done|].
    by left.
Qed.

Lemma star_cls_loop (p : ascii -> bool) (f : mstate -> list mstate) :
  (forall st, f st = run (Cls p) st) ->
  forall n st,
  length (rest st) <= n ->
  greedy_states p st
    ((fix loop (n : nat) (st : mstate) {struct n} : list mstate :=
        match n with
        | O => [st]
        | S n' =>
            flat_map
              (fun st' =>
                 if (length (rest st') <? length (rest st))%nat
                 then loop n' st' else [])
              (f st) ++ [st]
        end) n st).
Proof.
  intros Hf. induction n as [|n IH]; intros st Hn.
  - apply greedy_states_one. destruct (rest st); [done|cbn in Hn; lia].
  - rewrite (Hf st). cbn [run].
    destruct (rest st) as [|c s] eqn:E.
    { cbn [flat_map app]. apply greedy_states_one. by rewrite E. }
    destruct (p c) eqn:Ep.
    2:{ cbn [flat_map app]. apply greedy_states_one. rewrite E. exact Ep. }
    cbn [flat_map rest length app].
    replace (length s <? S (length s)) with true
      by (symmetry; apply Nat.ltb_lt; lia).
    rewrite app_nil_r.
    destruct (IH (MState (Some c) s (groups st)))
      as (hd & tl & -> & Hr & Ha & Ht).
    { cbn [rest]. cbn [length] in Hn. lia. }
    cbn [rest groups prev] in *.
    exists hd, (tl ++ [st]). split; [done|]. rewrite E. cbn [skip_while].
    rewrite Ep. split; [done|]. split.
    + rewrite app_comm_cons. apply Forall_app. split.
      * eapply Forall_impl; [exact Ha|]. cbn beta.
        intros st' (Hg & [[Hp _]|(c' & Hp & Hc')]).
        -- split; [done|]. right. by exists c.
        -- split; [done|]. right. by exists c'.
      * constructor; [|constructor]. split; [done|]. left. by rewrite E.
    + apply Forall_app. split; [done|]. constructor; [|constructor].
      rewrite E. exact Ep.
Qed.

Lemma run_star_cls p st : greedy_states p st (run (Star (Cls p)) st).
Proof. exact (star_cls_loop p (run (Cls p)) (fun _ => eq_refl) _ st (le_n _)). Qed.

Lemma run_plus_cls p st :
  if starts_with_class p (rest st) then plus_states p st (run (Plus (Cls p)) st)
  else run (Plus (Cls p)) st = [].
Proof.
  change (run (Plus (Cls p)) st)
    with (flat_map (run (Star (Cls p))) (run (Cls p) st)).
  assert (Hc : run (Cls p) st =
               match rest st with
               | c :: s' => if p c then [MState (Some c) s' (groups st)] else []
               | [] => []
               end) by reflexivity.
  rewrite Hc. clear Hc. destruct (rest st) as [|c s] eqn:E; cbn [starts_with_class].
  { reflexivity. }
  destruct (p c) eqn:Ep; [|reflexivity].
  cbn [flat_map]. rewrite app_nil_r.
  destruct (run_star_cls p (MState (Some c) s (groups st)))
    as (hd & tl & -> & Hr & Ha & Ht).
  cbn [rest groups prev] in *.
  exists hd, tl. split; [done|]. rewrite E. cbn [skip_while]. rewrite Ep.
  split; [done|]. split; [|done].
  eapply Forall_impl; [exact Ha|]. cbn beta.
  intros st' (Hg & [[Hp _]|(c' & Hp & Hc')]).
  - split; [done|]. by exists c.
  - split; [done|]. by exists c'.
Qed.

Lemma upper_not_digit c : is_upper c = true -> is_digit c = false.
Proof.
  unfold is_upper, is_digit, in_range. intros H.
  apply andb_true_iff in H. destruct H as [H1 H2].
  apply Nat.leb_le in H1. apply andb_false_iff. right.
  apply Nat.leb_gt. lia.
Qed.

Lemma flat_map_none {A B} (f : A -> list B) (l : list A) :
  Forall (fun x => f x = []) l -> flat_map f l = [].
Proof.
  induction 1 as [|x l Hx _ IH]; cbn [flat_map]; [done|]. by rewrite Hx, IH.
Qed.

Lemma run_cell_ref st :
  if starts_with_class is_upper (rest st) &&
     starts_with_class is_digit (skip_while is_upper (rest st))
  then
    exists hd tl,
      run cell_ref_re st = hd :: tl /\
      rest hd = skip_while is_digit (skip_while is_upper (rest st)) /\
      Forall (fun st' => groups st' = groups st /\
                         exists c, prev st' = Some c /\ is_digit c = true)
             (hd :: tl) /\
      Forall (fun st' => starts_with_class is_digit (rest st') = true) tl
  else run cell_ref_re st = [].
Proof.
  change (run cell_ref_re st)
    with (flat_map (run (Plus (Cls is_digit))) (run (Plus (Cls is_upper)) st)).
  pose proof (run_plus_cls is_upper st) as HU.
  destruct (starts_with_class is_upper (rest st)); cbn [andb];
    [|by rewrite HU].
  destruct HU as (hdU & tlU & -> & HrU & HaU & HtU). cbn [flat_map].
  rewrite (flat_map_none _ tlU), app_nil_r.
  2:{ eapply Forall_impl; [exact HtU|]. cbn beta. intros st' Hst'.
      pose proof (run_plus_cls is_digit st') as HD.
      destruct (rest st') as [|c s]; [done|]. cbn [starts_with_class] in *.
      by rewrite (upper_not_digit c Hst') in HD. }
  pose proof (run_plus_cls is_digit hdU) as HD. rewrite HrU in HD.
  destruct (starts_with_class is_digit (skip_while is_upper (rest st)));
    [|done].
  destruct HD as (hd & tl & -> & Hr & Ha & Ht).
  exists hd, tl. split; [done|]. split; [by rewrite Hr, HrU|].
  split; [|done]. apply Forall_inv in HaU. destruct HaU as [HgU _].
  eapply Forall_impl; [exact Ha|]. cbn beta. intros st' [Hg Hp].
  split; [congruence|done].
Qed.

Lemma match_at_cell_ref p s :
  match_at cell_ref_re p s =
  match reference_length s with
  | Some n => Some (RMatch (take n s) [], n)
  | None => None
  end.
Proof.
  unfold match_at, reference_length.
  pose proof (run_cell_ref (MState p s [])) as H. cbn [rest groups] in H.
  destruct (starts_with_class is_upper s &&
            starts_with_class is_digit (skip_while is_upper s)).
  - destruct H as (hd & tl & -> & Hr & Ha & _). apply Forall_inv in Ha.
    destruct Ha as [Hg _]. by rewrite Hr, Hg.
  - by rewrite H.
Qed.

Lemma digit_is_word c : is_digit c = true -> is_word c = true.
Proof. unfold is_word. intros ->. by rewrite orb_true_r. Qed.

Lemma upper_is_word c : is_upper c = true -> is_word c = true.
Proof. unfold is_word. by intros ->. Qed.

Lemma match_at_single_cell p s :
  match_at single_cell_pattern p s =
  match token_length p s with
  | Some n => Some (RMatch (take n s) [], n)
  | None => None
  end.
Proof.
  unfold match_at, token_length, reference_length.
  change (run single_cell_pattern (MState p s []))
    with (flat_map
            (fun st => flat_map (run WordB) (run cell_ref_re st))
            (run WordB (MState p s []))).
  pose proof (run_cell_ref (MState p s [])) as H. cbn [rest groups] in H.
  cbn [run prev rest].
  destruct (starts_with_class is_upper s) eqn:EU; cbn [andb] in *.
  2:{ destruct (xorb _ _); cbn [flat_map]; [|done]. by rewrite H. }
  destruct (starts_with_class is_digit (skip_while is_upper s)) eqn:ED.
  2:{ destruct (xorb _ _); cbn [flat_map]; [|done]. by rewrite H. }
  assert (Hhead : is_word_opt (head s) = true).
  { destruct s as [|c s']; [done|]. cbn in EU |- *. by apply upper_is_word. }
  rewrite Hhead, xorb_true_r.
  destruct (is_word_opt p); cbn [negb andb flat_map]; [done|].
  destruct H as (hd & tl & -> & Hr & Ha & Ht). cbn [flat_map].
  rewrite app_nil_r.
  rewrite (flat_map_none _ tl).
  2:{ apply Forall_cons in Ha. destruct Ha as [_ Ha].
      apply List.Forall_forall. intros st' Hin.
      rewrite List.Forall_forall in Ha, Ht.
      destruct (Ha st' Hin) as (_ & c & Hp & Hc). specialize (Ht st' Hin).
      cbn [run]. rewrite Hp. cbn [is_word_opt].
      rewrite (digit_is_word c Hc).
      destruct (rest st') as [|c' s']; [done|]. cbn in Ht. cbn [head is_word_opt].
      by rewrite (digit_is_word c' Ht). }
  apply Forall_inv in Ha. destruct Ha as (Hg & c & Hp & Hc).
  cbn [run]. rewrite Hp, Hr. cbn [is_word_opt]. rewrite (digit_is_word c Hc).
  rewrite xorb_true_l.
  destruct (is_word_opt (head (skip_while is_digit (skip_while is_upper s))));
    cbn [negb app]; [done|].
  by rewrite Hr, Hg.
Qed.

(** *** Scanning a text for reference tokens *)

Lemma skip_while_app_stop p (y : list ascii) z t :
  p z = false -> skip_while p (y ++ z :: t) = skip_while p y ++ z :: t.
Proof.
  intros Hz. induction y as [|a y IH]; cbn [app skip_while].
  - by rewrite Hz.
  - destruct (p a); [exact IH|done].
Qed.

Lemma skip_while_all p (w t : list ascii) :
  forallb p w = true -> starts_with_class p t = false ->
  skip_while p (w ++ t) = t.
Proof.
  intros Hw Ht. induction w as [|a w IH]; cbn [app skip_while].
  - destruct t as [|c t]; [done|]. cbn in Ht. cbn [skip_while]. by rewrite Ht.
  - cbn [forallb] in Hw. apply andb_true_iff in Hw. destruct Hw as [-> Hw].
    by apply IH.
Qed.

Lemma skip_while_length p (s : list ascii) :
  length (skip_while p s) <= length s.
Proof.
  induction s as [|c s IH]; cbn [skip_while length]; [lia|].
  destruct (p c); cbn [length]; lia.
Qed.

Lemma starts_app p (y : list ascii) z t :
  starts_with_class p (y ++ z :: t) = starts_with_class p (y ++ [z]).
Proof. by destruct y. Qed.

Lemma head_app (y : list ascii) z t : head (y ++ z :: t) = head (y ++ [z]).
Proof. by destruct y. Qed.

Lemma not_word_not_upper z : is_word z = false -> is_upper z = false.
Proof. unfold is_word. by destruct (is_upper z). Qed.

Lemma not_word_not_digit z : is_word z = false -> is_digit z = false.
Proof.
  unfold is_word. destruct (is_digit z); [|done].
  by rewrite orb_true_r.
Qed.

(** The token at the head of a text is decided by the text up to the next
    character that stands in no reference, and ends before it. *)
Lemma reference_length_local (y : list ascii) z t :
  is_upper z = false -> is_digit z = false ->
  reference_length (y ++ z :: t) = reference_length (y ++ [z]) /\
  forall n, reference_length (y ++ z :: t) = Some n -> 1 <= n <= length y.
Proof.
  intros Hu Hd. unfold reference_length.
  rewrite !(skip_while_app_stop is_upper y z) by done.
  rewrite !(skip_while_app_stop is_digit _ z) by done.
  rewrite !(starts_app _ y z t), !(starts_app _ (skip_while is_upper y) z t).
  rewrite !length_app. cbn [length].
  set (s2 := skip_while is_digit (skip_while is_upper y)).
  assert (H2 : length s2 <= length (skip_while is_upper y))
    by apply skip_while_length.
  pose proof (skip_while_length is_upper y) as H1.
  split.
  - destruct (_ && _); [|done]. f_equal. lia.
  - intros n. destruct (starts_with_class is_upper (y ++ [z])) eqn:E;
      cbn [andb]; [|done].
    destruct (starts_with_class is_digit _); [|done]. intros [= <-].
    destruct y as [|a y]; cbn in E; [congruence|].
    cbn [skip_while] in H1, H2. rewrite E in H1, H2.
    pose proof (skip_while_length is_upper y). cbn [length] in *. lia.
Qed.

Lemma token_length_local p (y : list ascii) z t :
  is_word z = false ->
  token_length p (y ++ z :: t) = token_length p (y ++ [z]) /\
  forall n, token_length p (y ++ z :: t) = Some n -> 1 <= n <= length y.
Proof.
  intros Hz.
  destruct (reference_length_local y z t (not_word_not_upper z Hz)
              (not_word_not_digit z Hz)) as [E Hn].
  unfold token_length. rewrite E.
  rewrite !(skip_while_app_stop is_upper y z) by by apply not_word_not_upper.
  rewrite !(skip_while_app_stop is_digit _ z) by by apply not_word_not_digit.
  rewrite (head_app _ z t). split; [done|].
  intros n H. apply Hn. rewrite E.
  destruct (reference_length (y ++ [z])) as [m|]; [|done].
  destruct (_ && _); [done|discriminate].
Qed.

Section Substitution.

Variable repl : string -> string.

Lemma sub_cells_nil p : sub_scan single_cell_pattern repl 0 p [] = [].
Proof. cbn [sub_scan]. by rewrite match_at_single_cell. Qed.

Lemma sub_cells_outside p c s :
  is_upper c = false -> sub_scan single_cell_pattern repl 0 p (c :: s) = c :: sub_scan single_cell_pattern repl 0 (Some c) s.
Proof.
  intros Hc. cbn [sub_scan]. rewrite match_at_single_cell.
  unfold token_length, reference_length. cbn [starts_with_class].
  by rewrite Hc.
Qed.

(** The substitution splits at a character outside the words. *)
Lemma sub_cells_split z t : is_word z = false -> forall y skip p,
  skip <= length y ->
  sub_scan single_cell_pattern repl skip p (y ++ z :: t) =
  sub_scan single_cell_pattern repl skip p (y ++ [z]) ++ sub_scan single_cell_pattern repl 0 (Some z) t.
Proof.
  intros Hz. induction y as [|a y IH]; intros skip p Hskip.
  - cbn [length] in Hskip. replace skip with 0 by lia. cbn [app].
    rewrite !sub_cells_outside by by apply not_word_not_upper.
    by rewrite sub_cells_nil.
  - destruct skip as [|k].
    + change ((a :: y) ++ z :: t) with (a :: (y ++ z :: t)).
      change ((a :: y) ++ [z]) with (a :: (y ++ [z])).
      cbn [sub_scan]. rewrite !match_at_single_cell.
      destruct (token_length_local p (a :: y) z t Hz) as [E Hn].
      cbn [app] in E, Hn. rewrite E.
      destruct (token_length p (a :: y ++ [z])) as [n|] eqn:En.
      * destruct (Hn n E) as [Hn1 Hn2]. cbn [whole].
        replace (take n (a :: y ++ z :: t)) with (take n (a :: y))
          by (rewrite (app_comm_cons y (z :: t) a), take_app_le; [done|lia]).
        replace (take n (a :: y ++ [z])) with (take n (a :: y))
          by (rewrite (app_comm_cons y [z] a), take_app_le; [done|lia]).
        rewrite IH by (cbn [length] in Hn2; lia).
        by rewrite <- !app_assoc.
      * rewrite IH by lia. done.
    + cbn [app sub_scan]. apply IH. cbn [length] in Hskip. lia.
Qed.

Lemma sub_cells_skip t : forall (w : list ascii) p,
  exists p', sub_scan single_cell_pattern repl (length w) p (w ++ t) = sub_scan single_cell_pattern repl 0 p' t.
Proof.
  induction w as [|a w IH]; intros p; cbn [length app].
  - by exists p.
  - cbn [sub_scan]. apply IH.
Qed.

Lemma sub_cells_start p p' s :
  is_word_opt (head s) = false -> sub_scan single_cell_pattern repl 0 p s = sub_scan single_cell_pattern repl 0 p' s.
Proof.
  destruct s as [|c s]; intros H.
  - by rewrite !sub_cells_nil.
  - cbn in H. by rewrite !sub_cells_outside by by apply not_word_not_upper.
Qed.

(** A reference token that stands between characters outside the words is
    replaced, and the text behind it is substituted on its own. *)
Lemma sub_cells_token p (u d post : list ascii) :
  is_word_opt p = false ->
  u <> [] -> forallb is_upper u = true ->
  d <> [] -> forallb is_digit d = true ->
  is_word_opt (head post) = false ->
  sub_scan single_cell_pattern repl 0 p (u ++ d ++ post) =
  str_chars (repl (chars_str (u ++ d))) ++ sub_scan single_cell_pattern repl 0 None post.
Proof.
  intros Hp Hu Hup Hd Hdig Hpost.
  assert (Hpd : starts_with_class is_digit post = false).
  { destruct post as [|c post]; [done|]. cbn in Hpost |- *.
    by apply not_word_not_digit. }
  assert (Hdu : starts_with_class is_upper (d ++ post) = false).
  { destruct d as [|c d]; [done|]. cbn [app starts_with_class].
    cbn [forallb] in Hdig. apply andb_true_iff in Hdig.
    destruct Hdig as [Hc _]. destruct (is_upper c) eqn:E; [|done].
    apply upper_not_digit in E. congruence. }
  assert (Ht : token_length p (u ++ d ++ post) = Some (length (u ++ d))).
  { unfold token_length, reference_length.
    rewrite (skip_while_all is_upper u (d ++ post)) by done.
    rewrite (skip_while_all is_digit d post) by done.
    rewrite Hp, Hpost. cbn [negb andb].
    assert (E1 : starts_with_class is_upper (u ++ d ++ post) = true).
    { destruct u as [|c u]; [done|]. cbn [app starts_with_class].
      cbn [forallb] in Hup. apply andb_true_iff in Hup. tauto. }
    assert (E2 : starts_with_class is_digit (d ++ post) = true).
    { destruct d as [|c d]; [done|]. cbn [app starts_with_class].
      cbn [forallb] in Hdig. apply andb_true_iff in Hdig. tauto. }
    rewrite E1, E2. cbn [andb]. f_equal. rewrite !length_app. lia. }
  destruct u as [|c u]; [done|].
  change ((c :: u) ++ d ++ post) with (c :: (u ++ d ++ post)) in *.
  cbn [sub_scan]. rewrite match_at_single_cell, Ht. cbn [whole].
  change (c :: u ++ d ++ post) with ((c :: u) ++ d ++ post).
  rewrite (app_assoc (c :: u) d post), take_app_length.
  change (length ((c :: u) ++ d)) with (S (length (u ++ d))).
  cbn [Nat.eqb app].
  replace (S (length (u ++ d)) - 1) with (length (u ++ d)) by lia.
  rewrite (app_assoc u d post).
  destruct (sub_cells_skip post (u ++ d) (Some c)) as (p' & ->).
  by rewrite (sub_cells_start p' None post Hpost).
Qed.

End Substitution.

Lemma skip_while_split p (s : list ascii) :
  exists w, s = w ++ skip_while p s /\ forallb p w = true.
Proof.
  induction s as [|c s (w & Hs & Hw)]; cbn [skip_while].
  - by exists [].
  - destruct (p c) eqn:E.
    + exists (c :: w). cbn [app forallb]. rewrite E, Hw. split; [|done].
      by rewrite <- Hs.
    + by exists [].
Qed.

Lemma is_cell_ref_runs ref :
  is_cell_ref ref = true ->
  exists u d, str_chars ref = u ++ d /\
              u <> [] /\ forallb is_upper u = true /\
              d <> [] /\ forallb is_digit d = true.
Proof.
  unfold is_cell_ref. destruct (str_chars ref) as [|c l]; [done|].
  intros H. apply andb_true_iff in H. destruct H as [Hc H].
  destruct (skip_while_split is_upper l) as (w & Hl & Hw).
  destruct (skip_while is_upper l) as [|d0 d] eqn:E; [done|].
  exists (c :: w), (d0 :: d). cbn [app forallb]. rewrite Hc, Hw.
  split; [by rewrite Hl at 1|]. by repeat split.
Qed.

Lemma str_chars_app (a b : string) :
  str_chars (a +:+ b) = str_chars a ++ str_chars b.
Proof.
  unfold str_chars. induction a as [|c a IH]; simpl; [done|]. by rewrite IH.
Qed.

Lemma chars_str_chars (s : string) : chars_str (str_chars s) = s.
Proof. apply string_of_list_ascii_of_string. Qed.

Lemma chars_str_concat (a b : list ascii) :
  chars_str (a ++ b) = chars_str a +:+ chars_str b.
Proof.
  unfold chars_str. induction a as [|c a IH]; [done|].
  cbn [app string_of_list_ascii]. by rewrite IH.
Qed.

Lemma sub_cells_reference repl (pre u d post : list ascii) :
  is_word_opt (last pre) = false ->
  u <> [] -> forallb is_upper u = true ->
  d <> [] -> forallb is_digit d = true ->
  is_word_opt (head post) = false ->
  sub_scan single_cell_pattern repl 0 None (pre ++ u ++ d ++ post) =
  sub_scan single_cell_pattern repl 0 None pre ++
  str_chars (repl (chars_str (u ++ d))) ++
  sub_scan single_cell_pattern repl 0 None post.
Proof.
  intros Hpre Hu Hup Hd Hdig Hpost.
  induction pre as [|z y _] using rev_ind.
  - cbn [app]. rewrite sub_cells_nil. cbn [app]. by apply sub_cells_token.
  - rewrite last_snoc in Hpre. cbn in Hpre.
    rewrite <- app_assoc. cbn [app].
    rewrite sub_cells_split by (done || lia). f_equal.
    by apply sub_cells_token.
Qed.

Lemma sub_cells_literal repl (pre : list ascii) c (post : list ascii) :
  is_word_opt (last pre) = false -> is_upper c = false ->
  is_word_opt (head post) = false ->
  sub_scan single_cell_pattern repl 0 None (pre ++ c :: post) =
  sub_scan single_cell_pattern repl 0 None pre ++
  c :: sub_scan single_cell_pattern repl 0 None post.
Proof.
  intros Hpre Hc Hpost.
  assert (H : forall p, sub_scan single_cell_pattern repl 0 p (c :: post) =
                        c :: sub_scan single_cell_pattern repl 0 None post).
  { intros p. rewrite sub_cells_outside by done. f_equal.
    by apply sub_cells_start. }
  induction pre as [|z y _] using rev_ind.
  - cbn [app]. by rewrite sub_cells_nil, H.
  - rewrite last_snoc in Hpre. cbn in Hpre.
    rewrite <- app_assoc. cbn [app].
    rewrite sub_cells_split by (done || lia). by rewrite H.
Qed.

(** The substitution around a reference that the context does not hold. *)
Lemma substitute_absent (context : gmap string value) (pre ref post : string) :
  is_cell_ref ref = true -> context !! ref = None ->
  is_word_opt (last (str_chars pre)) = false ->
  is_word_opt (head (str_chars post)) = false ->
  _substitute_cell_references (pre +:+ ref +:+ post) context =
    _substitute_cell_references pre context +:+ "0" +:+
    _substitute_cell_references post context /\
  _substitute_cell_references (pre +:+ "0" +:+ post) context =
    _substitute_cell_references pre context +:+ "0" +:+
    _substitute_cell_references post context.
Proof.
  intros Href Habsent Hpre Hpost.
  destruct (is_cell_ref_runs ref Href) as (u & d & Eref & Hu & Hup & Hd & Hdig).
  unfold _substitute_cell_references, Re.sub.
  rewrite !str_chars_app, Eref. split.
  - rewrite <- app_assoc, sub_cells_reference by done.
    rewrite <- Eref, chars_str_chars. unfold replace_cell at 2.
    rewrite Habsent. by rewrite !chars_str_concat, chars_str_chars.
  - change (str_chars "0") with ["0"%char]. cbn [app].
    rewrite sub_cells_literal by done.
    rewrite chars_str_concat.
    change ("0"%char :: sub_scan single_cell_pattern (replace_cell context) 0
                          None (str_chars post))
      with (["0"%char] ++ sub_scan single_cell_pattern (replace_cell context) 0
                            None (str_chars post)).
    by rewrite chars_str_concat.
Qed.

Lemma sub_scan_ext r (f g : string -> string) :
  (forall m, f m = g m) ->
  forall s skip p, sub_scan r f skip p s = sub_scan r g skip p s.
Proof.
  intros Hfg. induction s as [|c s IH]; intros skip p.
  - destruct skip; simpl; [|reflexivity].
    destruct (match_at r p []) as [[m len]|]; [|reflexivity]. by rewrite Hfg.
  - destruct skip; simpl; [|apply IH].
    destruct (match_at r p (c :: s)) as [[m len]|].
    + by rewrite Hfg, IH.
    + by rewrite IH.
Qed.

Lemma replace_cell_zeros (context zeros : gmap string value) cell_ref :
  (forall k v, zeros !! k = Some v -> v = VInt 0) ->
  replace_cell (context ∪ zeros) cell_ref = replace_cell context cell_ref.
Proof.
  intros Hz. unfold replace_cell. rewrite lookup_union.
  destruct (context !! cell_ref) as [v|] eqn:E.
  - by destruct (zeros !! cell_ref).
  - destruct (zeros !! cell_ref) as [v|] eqn:Ez; [|reflexivity].
    apply Hz in Ez. subst v. reflexivity.
Qed.

Lemma union_nonempty (context zeros : gmap string value) :
  context <> ∅ -> context ∪ zeros <> ∅.
Proof.
  intros Hne Hu. apply Hne. apply map_empty. intros k.
  assert (H : (context ∪ zeros) !! k = None) by (rewrite Hu; apply lookup_empty).
  apply lookup_union_None in H. tauto.
Qed.

(** C3 (as stated) fails: the result of [evaluate_formula] is the bare
    value, from which the defaulted references cannot be read: [=A1+1] gives
    1 both when the context lacks A1 and when it holds 0 for it.  With an
    empty context the reference is not replaced at all. *)
Lemma C3_counterexample :
  ~ (exists (message : exc -> string)
            (recorded : option value -> list string),
       forall formula context,
         recorded (evaluate_formula message formula context) =
         defaulted_references formula context) /\
  (forall message,
     evaluate_formula message "=A1+1" {[ "B1" := VInt 5 ]} = Some (VInt 1) /\
     evaluate_formula message "=A1+1" (<[ "A1" := VInt 0 ]> {[ "B1" := VInt 5 ]})
       = Some (VInt 1) /\
     evaluate_formula message "=A1+1" ∅ =
       Some (VStr ("#ERROR: Cannot evaluate expression 'A1+1': " +:+
                   message (NameError "A1")))).
Proof.
  split.
  - intros (message & recorded & H).
    pose proof (H "=A1+1" {[ "B1" := VInt 5 ]}) as H1.
    pose proof (H "=A1+1" (<[ "A1" := VInt 0 ]> {[ "B1" := VInt 5 ]})) as H2.
    vm_compute in H1, H2. congruence.
  - intros message. repeat split; vm_compute; reflexivity.
Qed.

(** C3 (amended): with a non-empty context, a cell reference of the formula
    that the context does not hold, standing between characters outside the
    words, is replaced by the text [0], the text before it and the text
    behind it being substituted on their own; the formula evaluates exactly
    as it does with [0] written in place of the reference, and any formula
    evaluates exactly as it does when the context holds the integer 0 for
    such references.  The result carries no record of the defaulted
    references. *)
Theorem C3_absent_reference_evaluates_as_zero (message : exc -> string)
  (formula pre ref post : string) (context zeros : gmap string value) :
  context <> ∅ ->
  (forall k v, zeros !! k = Some v -> v = VInt 0) ->
  is_cell_ref ref = true ->
  context !! ref = None ->
  is_word_opt (last (str_chars pre)) = false ->
  is_word_opt (head (str_chars post)) = false ->
  _substitute_cell_references (pre +:+ ref +:+ post) context =
    _substitute_cell_references pre context +:+ "0" +:+
    _substitute_cell_references post context /\
  evaluate_formula message ("=" +:+ pre +:+ ref +:+ post) context =
    evaluate_formula message ("=" +:+ pre +:+ "0" +:+ post) context /\
  evaluate_formula message formula (context ∪ zeros) =
    evaluate_formula message formula context.
Proof.
  intros Hne Hz Href Habsent Hpre Hpost.
  destruct (substitute_absent context pre ref post Href Habsent Hpre Hpost)
    as [Hsub Hlit].
  split; [exact Hsub|]. split.
  - unfold evaluate_formula.
    change (startswith_eq ("=" +:+ pre +:+ ref +:+ post)) with true.
    change (startswith_eq ("=" +:+ pre +:+ "0" +:+ post)) with true.
    cbn [negb].
    change (drop_first ("=" +:+ pre +:+ ref +:+ post))
      with (pre +:+ ref +:+ post).
    change (drop_first ("=" +:+ pre +:+ "0" +:+ post))
      with (pre +:+ "0" +:+ post).
    rewrite (bool_decide_eq_false_2 _ Hne). by rewrite Hsub, Hlit.
  - assert (Hs : forall body,
               _substitute_cell_references body (context ∪ zeros) =
               _substitute_cell_references body context).
    { intros body. unfold _substitute_cell_references, Re.sub. f_equal.
      apply sub_scan_ext. intros m. by apply replace_cell_zeros. }
    unfold evaluate_formula.
    destruct (startswith_eq formula); cbn [negb]; [|reflexivity].
    rewrite (bool_decide_eq_false_2 _ Hne).
    rewrite (bool_decide_eq_false_2 _ (union_nonempty _ zeros Hne)).
    by rewrite Hs.
Qed.

Lemma C3_witness :
  _substitute_cell_references ("" +:+ "A1" +:+ "+B1") {[ "B1" := VInt 5 ]} =
    _substitute_cell_references "" {[ "B1" := VInt 5 ]} +:+ "0" +:+
    _substitute_cell_references "+B1" {[ "B1" := VInt 5 ]} /\
  evaluate_formula (fun _ => EmptyString) ("=" +:+ "" +:+ "A1" +:+ "+B1")
    {[ "B1" := VInt 5 ]} =
  evaluate_formula (fun _ => EmptyString) ("=" +:+ "" +:+ "0" +:+ "+B1")
    {[ "B1" := VInt 5 ]} /\
  evaluate_formula (fun _ => EmptyString) "=A1+B1"
    ({[ "B1" := VInt 5 ]} ∪ {[ "A1" := VInt 0 ]}) =
  evaluate_formula (fun _ => EmptyString) "=A1+B1" {[ "B1" := VInt 5 ]}.
Proof.
  apply (C3_absent_reference_evaluates_as_zero (fun _ => EmptyString)
           "=A1+B1" "" "A1" "+B1" {[ "B1" := VInt 5 ]} {[ "A1" := VInt 0 ]}).
  - vm_compute. discriminate.
  - intros k v H. apply lookup_singleton_Some in H. by destruct H as [_ <-].
  - reflexivity.
  - by vm_compute.
  - reflexivity.
  - reflexivity.
Defined.

(** ** The traversal *)

Section Traversal.

Variable deps : Dict.t (list string).

Lemma get_In {V} (d : Dict.t V) k v : Dict.get d k = Some v -> In (k, v) d.
Proof.
  induction d as [|[k' v'] d IH]; simpl; [done|].
  destruct (String.eqb_spec k k') as [->|Hne].
  - intros [= ->]. by left.
  - intros H. right. by apply IH.
Qed.

Lemma get_keys {V} (d : Dict.t V) k v :
  Dict.get d k = Some v -> In k (Dict.keys d).
Proof. intros H. apply get_In in H. apply (in_map fst) in H. exact H. Qed.

Lemma edge_key n m : edge deps n m -> In n (Dict.keys deps).
Proof.
  unfold edge, neighbors. destruct (Dict.get deps n) eqn:E; simpl; [|done].
  intros _. eapply get_keys; eauto.
Qed.

Lemma edge_graph_set n m : edge deps n m -> m ∈ graph_set deps.
Proof.
  unfold edge, neighbors. destruct (Dict.get deps n) as [l|] eqn:E; simpl; [|done].
  intros H. apply get_In in E. unfold graph_set, graph_nodes.
  apply elem_of_list_to_set, list_elem_of_In, in_flat_map.
  exists (n, l). split; [done|]. by right.
Qed.

Lemma key_graph_set n : In n (Dict.keys deps) -> n ∈ graph_set deps.
Proof.
  intros H. apply in_map_iff in H. destruct H as ([k l] & <- & H).
  unfold graph_set, graph_nodes.
  apply elem_of_list_to_set, list_elem_of_In, in_flat_map.
  exists (k, l). split; [done|]. by left.
Qed.

Lemma last_cons_default (x : string) l d :
  List.last (x :: l) d = List.last l x.
Proof.
  revert x d. induction l as [|y l IH]; intros x d; [reflexivity|].
  change (List.last (x :: y :: l) d) with (List.last (y :: l) d).
  by rewrite (IH y d), (IH y x).
Qed.

Lemma last_app_cons pre (x : string) suf d :
  List.last (pre ++ x :: suf) d = List.last suf x.
Proof.
  revert d. induction pre as [|y pre IH]; intros d.
  - apply last_cons_default.
  - change ((y :: pre) ++ x :: suf) with (y :: (pre ++ x :: suf)).
    rewrite last_cons_default. apply IH.
Qed.

Lemma chain_app a l b :
  chain deps a l -> edge deps (List.last l a) b -> chain deps a (l ++ [b]).
Proof.
  revert a. induction l as [|x l IH]; intros a; simpl chain.
  - simpl. auto.
  - intros [H1 H2] H3. split; [done|]. apply IH; [done|].
    by rewrite last_cons_default in H3.
Qed.

Lemma from_first_spec n l :
  In n l ->
  exists pre suf, l = pre ++ n :: suf /\ from_first n l = n :: suf.
Proof.
  induction l as [|x l IH]; simpl; [done|].
  destruct (String.eqb_spec x n) as [->|Hne].
  - intros _. by exists [], l.
  - intros [H|H]; [done|]. destruct (IH H) as (pre & suf & -> & E).
    by exists (x :: pre), suf.
Qed.

Lemma chain_suffix a pre b suf :
  chain deps a (pre ++ b :: suf) -> chain deps b suf.
Proof.
  revert a. induction pre as [|x pre IH]; intros a; simpl.
  - tauto.
  - intros [_ H]. eauto.
Qed.

Lemma is_chain_suffix pre b suf :
  is_chain deps (pre ++ b :: suf) -> chain deps b suf.
Proof.
  destruct pre as [|a pre]; simpl; [done|]. apply chain_suffix.
Qed.

(** The cycle that [has_cycle] records is a closed path. *)
Lemma recorded_cycle_closed p0 node neighbor :
  is_chain deps (p0 ++ [node]) -> In neighbor (p0 ++ [node]) ->
  edge deps node neighbor ->
  closed_path deps (from_first neighbor (p0 ++ [node]) ++ [neighbor]).
Proof.
  intros Hch Hin He.
  destruct (from_first_spec _ _ Hin) as (pre & suf & E & ->).
  rewrite E in Hch. apply is_chain_suffix in Hch.
  assert (Hl : List.last suf neighbor = node).
  { rewrite <- (last_app_cons pre neighbor suf neighbor), <- E.
    apply last_last. }
  simpl. split; [by destruct suf|]. split.
  - apply chain_app; [done|]. by rewrite Hl.
  - change (neighbor :: suf ++ [neighbor]) with ((neighbor :: suf) ++ [neighbor]).
    apply last_snoc.
Qed.

Lemma finished_reach C n m :
  finished deps C -> n ∈ C -> rtc (edge deps) n m -> m ∈ C.
Proof.
  intros [Hc _] Hn Hr. induction Hr as [|x y z Hxy _ IH]; [done|].
  apply IH. eapply Hc; eauto.
Qed.

(** A node all of whose edges lead into a finished set joins it. *)
Lemma finished_add C node :
  finished deps C -> node ∉ C ->
  (forall m, edge deps node m -> m ∈ C) ->
  finished deps ({[node]} ∪ C).
Proof.
  intros HC Hn Hm. split.
  - intros n m Hin He. apply elem_of_union in Hin. destruct Hin as [Hin|Hin].
    + apply elem_of_singleton in Hin. subst n. apply elem_of_union_r. auto.
    + apply elem_of_union_r. destruct HC as [Hc _]. eauto.
  - intros n Hin. apply elem_of_union in Hin. destruct Hin as [Hin|Hin].
    + apply elem_of_singleton in Hin. subst n. intros (m & He & Hr).
      apply Hn. eapply finished_reach; eauto.
    + destruct HC as [_ Hc]. auto.
Qed.

Lemma size_unvisited_mono (V V' : gset string) :
  V ⊆ V' -> size (graph_set deps ∖ V') ≤ size (graph_set deps ∖ V).
Proof. intros H. apply subseteq_size. set_solver. Qed.

Lemma size_unvisited_add (V : gset string) node :
  node ∈ graph_set deps -> node ∉ V ->
  size (graph_set deps ∖ ({[node]} ∪ V)) < size (graph_set deps ∖ V).
Proof. intros H1 H2. apply subset_size. set_solver. Qed.

(** The loop of [has_cycle], given that the recursive call is correct. *)
Lemma for_neighbors_ok call k node p0 (r0 : gset string) :
  call_ok deps k call -> node ∉ r0 ->
  forall l st,
    (forall m, In m l -> edge deps node m) ->
    path st = p0 ++ [node] -> rec_stack st = {[node]} ∪ r0 ->
    path_inv deps st -> node ∈ visited st ->
    size (graph_set deps ∖ visited st) < k ->
    exists b st',
      for_neighbors call node l st = Some (b, st') /\
      visited st ⊆ visited st' /\
      if b then
        exists cycle, circular_refs st' = circular_refs st ++ [cycle] /\
                      closed_path deps cycle
      else
        circular_refs st' = circular_refs st /\ path st' = p0 /\
        rec_stack st' = r0 /\
        (finished deps (visited st ∖ rec_stack st) ->
         (forall m, edge deps node m ->
                    In m l \/ m ∈ visited st ∖ rec_stack st) ->
         finished deps (visited st' ∖ r0)).
Proof.
  intros Hcall Hnr. induction l as [|nb l IH]; intros st Hl Hp Hr Hinv Hv Hk.
  - simpl. eexists false, _. split; [reflexivity|]. simpl.
    split; [done|]. split; [done|]. split; [rewrite Hp; apply removelast_last|].
    split; [rewrite Hr; set_solver|].
    intros Hfin Hm. rewrite Hr in Hfin.
    replace (visited st ∖ r0)
      with ({[node]} ∪ visited st ∖ ({[node]} ∪ r0)).
    + apply finished_add; [done|set_solver|].
      intros m He. destruct (Hm m He) as [[]|H]. by rewrite Hr in H.
    + apply set_eq. intros x. destruct (decide (x = node)); set_solver.
  - simpl. destruct Hinv as (Hch & Hrs & Hsub).
    assert (Henb : edge deps node nb) by (apply Hl; by left).
    case_bool_decide as Hnv.
    + destruct (Hcall nb st) as (b & st1 & -> & Hv1 & Hnb1 & Hpost);
        [by eapply edge_graph_set|done|done|done| |].
      { rewrite Hp in Hch |- *. destruct p0 as [|a p0]; simpl in *.
        - auto.
        - apply chain_app; [done|]. by rewrite last_last. }
      destruct b.
      * eexists true, st1. split; [reflexivity|]. split; [done|]. exact Hpost.
      * destruct Hpost as (Hf1 & Hp1 & Hr1 & Hfin1).
        destruct (IH st1) as (b & st' & -> & Hv' & Hres).
        { intros m Hm. apply Hl. by right. }
        { by rewrite Hp1. }
        { by rewrite Hr1. }
        { split; [by rewrite Hp1|]. split; [by rewrite Hr1, Hp1|].
          rewrite Hr1. set_solver. }
        { set_solver. }
        { eapply Nat.le_lt_trans; [apply size_unvisited_mono; exact Hv1|done]. }
        eexists b, st'. split; [reflexivity|]. split; [set_solver|].
        destruct b.
        -- by rewrite <- Hf1.
        -- destruct Hres as (Hf' & Hp' & Hr' & Hfin').
           split; [by rewrite Hf'|]. split; [done|]. split; [done|].
           intros Hfin Hm. destruct (Hfin1 Hfin) as [Hfin1' Hnbfin].
           apply Hfin'; [done|]. intros m He.
           destruct (Hm m He) as [[->|H]|H]; [by right|by left|].
           right. rewrite Hr1. set_solver.
    + case_bool_decide as Hnr2.
      * eexists true, _. split; [reflexivity|]. simpl. split; [done|].
        eexists. split; [reflexivity|]. rewrite Hp.
        apply recorded_cycle_closed; [by rewrite <- Hp| |done].
        rewrite <- Hp. rewrite Hrs in Hnr2.
        by apply elem_of_list_to_set, list_elem_of_In in Hnr2.
      * destruct (IH st) as (b & st' & -> & Hv' & Hres); try done.
        { intros m Hm. apply Hl. by right. }
        eexists b, st'. split; [reflexivity|]. split; [done|].
        destruct b; [done|].
        destruct Hres as (Hf' & Hp' & Hr' & Hfin').
        split; [done|]. split; [done|]. split; [done|].
        intros Hfin Hm. apply Hfin'; [done|]. intros m He.
        destruct (Hm m He) as [[->|H]|H]; [|by left|by right].
        right. try apply dec_stable in Hnv. set_solver.
Qed.

(** [has_cycle] returns whenever its fuel exceeds the number of unvisited
    nodes, and establishes [post]. *)
Lemma has_cycle_ok fuel : call_ok deps fuel (has_cycle deps fuel).
Proof.
  induction fuel as [|fuel IH]; intros node st Hu Hnv Hk Hinv Hch; [lia|].
  destruct Hinv as (Hch0 & Hrs & Hsub).
  assert (Hnr : node ∉ rec_stack st) by set_solver.
  simpl.
  destruct (for_neighbors_ok (has_cycle deps fuel) fuel node (path st)
              (rec_stack st) IH Hnr (neighbors deps node)
              (Dfs ({[node]} ∪ visited st) ({[node]} ∪ rec_stack st)
                   (path st ++ [node]) (circular_refs st)))
    as (b & st' & -> & Hv' & Hres); simpl; try done.
  - split; [done|]. simpl. split; [|set_solver].
    rewrite Hrs, list_to_set_app_L. set_solver.
  - set_solver.
  - pose proof (size_unvisited_add (visited st) node Hu Hnv). lia.
  - eexists b, st'. split; [reflexivity|]. simpl in Hv'.
    split; [set_solver|]. split; [set_solver|].
    destruct b; [done|]. simpl in Hres.
    destruct Hres as (Hf' & Hp' & Hr' & Hfin').
    split; [done|]. split; [done|]. split; [done|].
    intros Hfin. rewrite Hr'. split; [|set_solver].
    apply Hfin'; [|intros m He; by left].
    replace (({[node]} ∪ visited st) ∖ ({[node]} ∪ rec_stack st))
      with (visited st ∖ rec_stack st); [done|].
    apply set_eq. intros x. destruct (decide (x = node)); set_solver.
Qed.

(** The loop over the roots returns; what it adds to [found] are closed
    paths; and if it ends with nothing found, the visited set is finished
    and holds all roots. *)
Lemma for_roots_ok fuel :
  size (graph_set deps) < fuel ->
  forall roots seen found,
    (forall r, In r roots -> r ∈ graph_set deps) ->
    exists found',
      for_roots deps fuel roots seen found = Some found' /\
      (exists more, found' = found ++ more /\
                    Forall (closed_path deps) more) /\
      (found' = [] -> finished deps seen ->
       exists seen', finished deps seen' /\ seen ⊆ seen' /\
                     forall r, In r roots -> r ∈ seen').
Proof.
  intros Hfuel. induction roots as [|node roots IH]; intros seen found Hroots.
  - simpl. eexists. split; [reflexivity|]. split.
    + exists []. by rewrite app_nil_r.
    + intros _ Hfin. exists seen. split; [done|]. split; [done|]. intros r [].
  - simpl. case_bool_decide as Hseen.
    + destruct (has_cycle_ok fuel node (Dfs seen ∅ [] found))
        as (b & st & -> & Hv & Hn & Hpost); simpl.
      { apply Hroots. by left. }
      { done. }
      { eapply Nat.le_lt_trans; [|exact Hfuel]. apply subseteq_size. set_solver. }
      { repeat split; simpl; set_solver. }
      { done. }
      destruct (IH (visited st) (circular_refs st))
        as (found' & -> & (more & -> & Hmore) & Hnil).
      { intros r Hr. apply Hroots. by right. }
      eexists. split; [reflexivity|]. simpl in *. split.
      * destruct b.
        -- destruct Hpost as (cycle & -> & Hc). exists (cycle :: more).
           split; [by rewrite <- app_assoc|]. by constructor.
        -- destruct Hpost as (-> & _). by exists more.
      * intros Hempty Hfin. destruct b.
        -- destruct Hpost as (cycle & Hc & _). rewrite Hc in Hempty.
           apply app_eq_nil in Hempty. destruct Hempty as [Hempty _].
           apply app_eq_nil in Hempty. by destruct Hempty.
        -- destruct Hpost as (Hf & Hp & Hr & Hfin1).
           rewrite Hr in Hfin1.
           replace (seen ∖ ∅) with seen in Hfin1 by set_solver.
           replace (visited st ∖ ∅) with (visited st) in Hfin1 by set_solver.
           destruct (Hfin1 Hfin) as [Hfin2 Hnode].
           destruct (Hnil Hempty Hfin2) as (seen' & H1 & H2 & H3).
           exists seen'. split; [done|]. split; [set_solver|].
           intros r [<-|Hr']; [set_solver|auto].
    + destruct (IH seen found) as (found' & -> & Hmore & Hnil).
      { intros r Hr. apply Hroots. by right. }
      eexists. split; [reflexivity|]. split; [done|].
      intros Hempty Hfin.
      destruct (Hnil Hempty Hfin) as (seen' & H1 & H2 & H3).
      exists seen'. split; [done|]. split; [done|].
      intros r [<-|Hr0]; [|auto]. try apply dec_stable in Hseen. set_solver.
Qed.

Lemma finished_empty : finished deps ∅.
Proof. split; intros n; set_solver. Qed.

(** The traversal of any graph returns; each reported cycle is a closed
    path; a graph with a cycle has a reported cycle. *)
Lemma detect_cycles_within_ok depth :
  size (graph_set deps) < depth ->
  exists found,
    detect_cycles_within depth deps = Some found /\
    Forall (closed_path deps) found /\
    ((exists n, on_cycle deps n) -> found <> []).
Proof.
  intros Hdepth. unfold detect_cycles_within.
  destruct (for_roots_ok depth Hdepth (Dict.keys deps) ∅ [])
    as (found & -> & (more & -> & Hmore) & Hnil).
  { intros r. apply key_graph_set. }
  eexists. split; [reflexivity|]. split; [done|].
  intros (n & Hn) Hempty.
  destruct (Hnil Hempty finished_empty) as (seen & [_ Hfin] & _ & Hkeys).
  apply (Hfin n); [|done]. apply Hkeys.
  destruct Hn as (m & He & _). by eapply edge_key.
Qed.

Lemma detect_cycles_ok :
  exists found,
    detect_cycles deps = Some found /\
    Forall (closed_path deps) found /\
    ((exists n, on_cycle deps n) -> found <> []).
Proof. apply detect_cycles_within_ok. lia. Qed.

End Traversal.

(** ** Cycle detection *)

Ltac string_eqb :=
  repeat first
    [ rewrite String.eqb_refl
    | rewrite (proj2 (String.eqb_neq _ _)) by congruence ].

Ltac decide_sets :=
  repeat match goal with
    | |- context [bool_decide ?P] =>
        first [ rewrite (bool_decide_eq_true_2 P) by set_solver
              | rewrite (bool_decide_eq_false_2 P) by set_solver ]
    end.

Ltac traverse :=
  repeat (cbn [for_roots has_cycle for_neighbors neighbors Dict.get Dict.keys
               map fst snd default from_option id visited rec_stack path
               circular_refs from_first app removelast];
          string_eqb; decide_sets).

Lemma size_three (a b c : string) :
  a <> b -> b <> c -> a <> c -> size ({[a; b; c]} : gset string) = 3.
Proof.
  intros Hab Hbc Hac.
  rewrite !size_union by set_solver. by rewrite !size_singleton.
Qed.

(** The traversal of the graph that is one cycle through three nodes, with
    room for three nested calls or more. *)
Lemma three_cycle_along_within depth (a b c : string) :
  a <> b -> b <> c -> a <> c -> 3 <= depth ->
  detect_cycles_within depth [(a, [b]); (b, [c]); (c, [a])]
    = Some [[a; b; c; a]].
Proof.
  intros Hab Hbc Hac Hdepth. unfold detect_cycles_within.
  destruct depth as [|[|[|depth]]]; try lia. traverse. reflexivity.
Qed.

Lemma three_cycle_against_within depth (a b c : string) :
  a <> b -> b <> c -> a <> c -> 3 <= depth ->
  detect_cycles_within depth [(a, [b]); (c, [a]); (b, [c])]
    = Some [[a; b; c; a]].
Proof.
  intros Hab Hbc Hac Hdepth. unfold detect_cycles_within.
  destruct depth as [|[|[|depth]]]; try lia. traverse. reflexivity.
Qed.

(** The traversal of the graph that is one cycle through three nodes, when
    the nodes are listed along the cycle. *)
Lemma three_cycle_along (a b c : string) :
  a <> b -> b <> c -> a <> c ->
  detect_cycles [(a, [b]); (b, [c]); (c, [a])] = Some [[a; b; c; a]].
Proof.
  intros Hab Hbc Hac. unfold detect_cycles, detect_cycles_within.
  replace (graph_set [(a, [b]); (b, [c]); (c, [a])]) with ({[a; b; c]} : gset string)
    by (unfold graph_set; simpl graph_nodes; set_solver).
  rewrite size_three by done. traverse. reflexivity.
Qed.

(** The same graph with the nodes listed against the cycle. *)
Lemma three_cycle_against (a b c : string) :
  a <> b -> b <> c -> a <> c ->
  detect_cycles [(a, [b]); (c, [a]); (b, [c])] = Some [[a; b; c; a]].
Proof.
  intros Hab Hbc Hac. unfold detect_cycles, detect_cycles_within.
  replace (graph_set [(a, [b]); (c, [a]); (b, [c])]) with ({[a; b; c]} : gset string)
    by (unfold graph_set; simpl graph_nodes; set_solver).
  rewrite size_three by done. traverse. reflexivity.
Qed.

Ltac concrete_edge := unfold edge; vm_compute; tauto.

(** C1 (as stated) fails.  In the document with the cycle A1, B1, C1, A1
    and the cycle B1, D1, B1 the traversal from A1 stops at the cycle through
    D1; A1 and C1 take part in a cycle and occur in no reported cycle.  In
    the document with the cycles A1, B1, A1 and B1, C1, B1 only the second is
    reported. *)
Lemma C1_counterexample :
  ~ (forall sheets found n,
       _detect_circular_references sheets = Some found ->
       on_cycle (build_dependencies sheets) n -> reported found n) /\
  (let sheets := extract_formulas_from_workbook three_cycle_workbook in
   _detect_circular_references sheets =
     Some [["Sheet1!B1"; "Sheet1!D1"; "Sheet1!B1"]] /\
   on_cycle (build_dependencies sheets) "Sheet1!A1" /\
   on_cycle (build_dependencies sheets) "Sheet1!C1") /\
  (let sheets := extract_formulas_from_workbook overlapping_cycles_workbook in
   _detect_circular_references sheets =
     Some [["Sheet1!B1"; "Sheet1!C1"; "Sheet1!B1"]] /\
   on_cycle (build_dependencies sheets) "Sheet1!A1").
Proof.
  assert (HA : on_cycle (build_dependencies
                           (extract_formulas_from_workbook three_cycle_workbook))
                        "Sheet1!A1").
  { exists "Sheet1!B1". split; [concrete_edge|].
    apply (rtc_l _ _ "Sheet1!C1"); [concrete_edge|].
    apply rtc_once. concrete_edge. }
  split; [|split; [split; [|split]|split]].
  - intros H.
    destruct (H (extract_formulas_from_workbook three_cycle_workbook)
                [["Sheet1!B1"; "Sheet1!D1"; "Sheet1!B1"]] "Sheet1!A1")
      as (cycle & Hc & Hn); [by vm_compute|exact HA|].
    destruct Hc as [<-|[]]. simpl in Hn.
    destruct Hn as [Hn|[Hn|[Hn|[]]]]; discriminate Hn.
  - by vm_compute.
  - exact HA.
  - exists "Sheet1!A1". split; [concrete_edge|].
    apply (rtc_l _ _ "Sheet1!B1"); [concrete_edge|].
    apply rtc_once. concrete_edge.
  - by vm_compute.
  - exists "Sheet1!B1". split; [concrete_edge|].
    apply rtc_once. concrete_edge.
Qed.

(** C1 (amended): when the recursion limit leaves room for one nested call
    per node of the graph, the traversal returns; each cycle it reports is a
    closed path of the graph; and it reports at least one cycle whenever some
    node takes part in a cycle.  For the graph that is the cycle a, b, c, a
    alone, in whatever order its three entries are listed, one cycle is
    reported and it holds a, b and c. *)
Theorem C1_detection_sound_and_finds_a_cycle (depth : nat)
  (dependencies ring : Dict.t (list string)) (a b c : string) :
  a <> b -> b <> c -> a <> c ->
  [(a, [b]); (b, [c]); (c, [a])] ≡ₚ ring ->
  size (graph_set dependencies) < depth -> 3 <= depth ->
  (exists found,
     detect_cycles_within depth dependencies = Some found /\
     Forall (closed_path dependencies) found /\
     ((exists n, on_cycle dependencies n) -> found <> [])) /\
  (exists cycle,
     detect_cycles_within depth ring = Some [cycle] /\
     In a cycle /\ In b cycle /\ In c cycle).
Proof.
  intros Hab Hbc Hac Hring Hdepth Hthree.
  split; [by apply detect_cycles_within_ok|].
  apply permutations_Permutation in Hring. cbn in Hring.
  repeat (apply elem_of_cons in Hring as [->|Hring]);
    [..|by apply elem_of_nil in Hring];
    (first [ rewrite three_cycle_along_within by congruence
           | rewrite three_cycle_against_within by congruence ]);
    eexists; (split; [reflexivity|]); simpl; tauto.
Qed.

Lemma C1_witness :
  (exists found,
     detect_cycles_within 900 [("A", ["B"; "C"]); ("B", ["A"]); ("C", ["B"])]
       = Some found /\
     Forall (closed_path [("A", ["B"; "C"]); ("B", ["A"]); ("C", ["B"])]) found /\
     ((exists n, on_cycle [("A", ["B"; "C"]); ("B", ["A"]); ("C", ["B"])] n) ->
      found <> [])) /\
  (exists cycle,
     detect_cycles_within 900 [("B", ["C"]); ("A", ["B"]); ("C", ["A"])]
       = Some [cycle] /\
     In "A" cycle /\ In "B" cycle /\ In "C" cycle).
Proof.
  apply (C1_detection_sound_and_finds_a_cycle 900
           [("A", ["B"; "C"]); ("B", ["A"]); ("C", ["B"])]
           [("B", ["C"]); ("A", ["B"]); ("C", ["A"])] "A" "B" "C");
    try discriminate.
  - rewrite (Permutation_swap ("A", ["B"]) ("B", ["C"]) [("C", ["A"])]).
    reflexivity.
  - vm_compute. lia.
  - lia.
Defined.

(** A chain of references longer than the room on the stack: the traversal
    ends in the [RecursionError]. *)
Lemma chain_exceeds_depth :
  detect_cycles_within 2 [("A", ["B"]); ("B", ["C"]); ("C", [])] = None /\
  detect_cycles_within 3 [("A", ["B"]); ("B", ["C"]); ("C", [])] = Some [].
Proof. split; by vm_compute. Qed.

Lemma size_two (a b : string) :
  a <> b -> size ({[a; b]} : gset string) = 2.
Proof.
  intros Hab. rewrite size_union by set_solver. by rewrite !size_singleton.
Qed.

(** The traversal of the graph of two nodes that refer to each other. *)
Lemma two_cycle (a b : string) :
  a <> b -> detect_cycles [(a, [b]); (b, [a])] = Some [[a; b; a]].
Proof.
  intros Hab. unfold detect_cycles, detect_cycles_within.
  replace (graph_set [(a, [b]); (b, [a])]) with ({[a; b]} : gset string)
    by (unfold graph_set; simpl graph_nodes; set_solver).
  rewrite size_two by done. traverse. reflexivity.
Qed.

Lemma append_inj_r (s t1 t2 : string) : s +:+ t1 = s +:+ t2 -> t1 = t2.
Proof.
  induction s as [|c s IH]; simpl; [done|]. intros [= H]. auto.
Qed.

Lemma full_address_inj_cell s c1 c2 :
  full_address s c1 = full_address s c2 -> c1 = c2.
Proof.
  unfold full_address. intros H. apply append_inj_r in H.
  by apply append_inj_r in H.
Qed.

Lemma mutual_dependencies sheet_name :
  build_dependencies (extract_formulas_from_workbook (mutual_workbook sheet_name))
  = [(full_address sheet_name "A1", [full_address sheet_name "B1"]);
     (full_address sheet_name "B1", [full_address sheet_name "A1"])].
Proof.
  unfold mutual_workbook, extract_formulas_from_workbook.
  cbn [fold_left Dict.set].
  set (sd := _extract_sheet_formulas _). vm_compute in sd. subst sd.
  unfold build_dependencies, metadata_referenced_cells.
  cbn [fold_left formulas formula_metadata Dict.get Dict.set map
       referenced_cells String.eqb Ascii.eqb Bool.eqb].
  destruct (String.eqb_spec (full_address sheet_name "B1")
                            (full_address sheet_name "A1")) as [E|_];
    [|reflexivity].
  apply full_address_inj_cell in E. discriminate E.
Qed.

Lemma chars_str_app (x : string) (l : list ascii) :
  chars_str (str_chars x ++ l) = x +:+ chars_str l.
Proof. induction x as [|c x IH]; simpl; [done|]. by rewrite IH. Qed.

(** The substitution in [X+1] for a cell reference X of two characters. *)
Lemma substitute_b1 (repl : string -> string) :
  Re.sub single_cell_pattern repl "B1+1" = repl "B1" +:+ "+1".
Proof.
  transitivity (chars_str (str_chars (repl "B1") ++ str_chars "+1"));
    [by vm_compute|by rewrite chars_str_app].
Qed.

Lemma substitute_a1 (repl : string -> string) :
  Re.sub single_cell_pattern repl "A1+1" = repl "A1" +:+ "+1".
Proof.
  transitivity (chars_str (str_chars (repl "A1") ++ str_chars "+1"));
    [by vm_compute|by rewrite chars_str_app].
Qed.

Lemma evaluate_with_context message formula (context : gmap string value) :
  startswith_eq formula = true -> context <> ∅ ->
  evaluate_formula message formula context =
  match _safe_eval message
          (_replace_excel_functions
             (_substitute_cell_references (drop_first formula) context)) with
  | Some (inl result) => Some result
  | Some (inr e) => Some (VStr ("#ERROR: " +:+ e))
  | None => None
  end.
Proof.
  intros Hs Hne. unfold evaluate_formula. rewrite Hs. cbn [negb].
  by rewrite (bool_decide_eq_false_2 _ Hne).
Qed.

(** C4 (as stated) fails: the one cycle is reported, but the evaluator does
    not look at it; with a context that holds some other cell, each of the
    two formulas evaluates to the number 1, which is no error. *)
Lemma C4_counterexample :
  _detect_circular_references
    (extract_formulas_from_workbook (mutual_workbook "Sheet1")) =
    Some [["Sheet1!A1"; "Sheet1!B1"; "Sheet1!A1"]] /\
  (forall message,
     evaluate_formula message "=B1+1" {[ "C1" := VInt 7 ]} = Some (VInt 1) /\
     evaluate_formula message "=A1+1" {[ "C1" := VInt 7 ]} = Some (VInt 1)) /\
  is_error_result (VInt 1) = false.
Proof. repeat split; by vm_compute. Qed.

(** C4 (amended): in a document where A1 holds [=B1+1] and B1 holds [=A1+1]
    exactly one cycle is reported, and it holds A1 and B1.  The evaluator
    does not consult the report: without a context each of the two formulas
    yields the [#ERROR: ] string of the undefined name, and with a non-empty
    context that holds neither cell each yields 1. *)
Theorem C4_mutual_reference (message : exc -> string) (sheet_name : string)
  (context : gmap string value) :
  context <> ∅ -> context !! "A1" = None -> context !! "B1" = None ->
  _detect_circular_references
    (extract_formulas_from_workbook (mutual_workbook sheet_name)) =
    Some [[full_address sheet_name "A1"; full_address sheet_name "B1";
           full_address sheet_name "A1"]] /\
  evaluate_formula message "=B1+1" ∅ =
    Some (VStr ("#ERROR: Cannot evaluate expression 'B1+1': " +:+
                message (NameError "B1"))) /\
  evaluate_formula message "=A1+1" ∅ =
    Some (VStr ("#ERROR: Cannot evaluate expression 'A1+1': " +:+
                message (NameError "A1"))) /\
  evaluate_formula message "=B1+1" context = Some (VInt 1) /\
  evaluate_formula message "=A1+1" context = Some (VInt 1).
Proof.
  intros Hne HA HB. split; [|split; [|split; [|split]]].
  - unfold _detect_circular_references. rewrite mutual_dependencies.
    apply two_cycle. intros E. apply full_address_inj_cell in E. discriminate E.
  - by vm_compute.
  - by vm_compute.
  - rewrite evaluate_with_context by done.
    change (drop_first "=B1+1") with "B1+1".
    unfold _substitute_cell_references. rewrite substitute_b1.
    unfold replace_cell. rewrite HB. by vm_compute.
  - rewrite evaluate_with_context by done.
    change (drop_first "=A1+1") with "A1+1".
    unfold _substitute_cell_references. rewrite substitute_a1.
    unfold replace_cell. rewrite HA. by vm_compute.
Qed.

Lemma C4_witness :
  _detect_circular_references
    (extract_formulas_from_workbook (mutual_workbook "Sheet1")) =
    Some [[full_address "Sheet1" "A1"; full_address "Sheet1" "B1";
           full_address "Sheet1" "A1"]] /\
  evaluate_formula (fun _ => EmptyString) "=B1+1" {[ "C1" := VInt 7 ]} =
    Some (VInt 1).
Proof.
  destruct (C4_mutual_reference (fun _ => EmptyString) "Sheet1"
              {[ "C1" := VInt 7 ]}) as (H1 & _ & _ & H2 & _);
    [by vm_compute|by vm_compute|by vm_compute|].
  split; [exact H1|exact H2].
Defined.

Lemma set_In {V} (d : Dict.t V) k v k' v' :
  In (k', v') (Dict.set d k v) -> In (k', v') d \/ (k', v') = (k, v).
Proof.
  induction d as [|[k0 v0] d IH]; simpl.
  - intros [H|[]]. by right.
  - destruct (String.eqb k k0).
    + intros [H|H]; [by right|]. left. by right.
    + intros [H|H]; [left; by left|]. destruct (IH H); [left; by right|by right].
Qed.

Lemma build_sheet_entries (all : sheets_t) s sd (fs : Dict.t string) :
  In (s, sd) all ->
  forall deps,
    Forall (own_sheet_entry all) deps ->
    Forall (own_sheet_entry all)
      (fold_left
         (fun dependencies '(cell_address, formula) =>
            Dict.set dependencies (full_address s cell_address)
              (map (full_address s) (metadata_referenced_cells sd cell_address)))
         fs deps).
Proof.
  intros Hs. induction fs as [|[c f] fs IH]; intros deps Hd; cbn [fold_left];
    [done|].
  apply IH. apply List.Forall_forall. intros [k v] Hin.
  apply set_In in Hin. destruct Hin as [Hin|[= -> ->]].
  - rewrite List.Forall_forall in Hd. by apply Hd.
  - by exists s, sd, c.
Qed.

Lemma build_entries (all sheets : sheets_t) :
  (forall x, In x sheets -> In x all) ->
  forall deps,
    Forall (own_sheet_entry all) deps ->
    Forall (own_sheet_entry all)
      (fold_left
         (fun dependencies '(sheet_name, sd) =>
            fold_left
              (fun dependencies '(cell_address, formula) =>
                 Dict.set dependencies (full_address sheet_name cell_address)
                   (map (full_address sheet_name)
                        (metadata_referenced_cells sd cell_address)))
              (formulas sd) dependencies)
         sheets deps).
Proof.
  induction sheets as [|[s sd] sheets IH]; intros Hall deps Hd;
    cbn [fold_left]; [done|].
  apply IH; [intros x Hx; apply Hall; by right|].
  apply build_sheet_entries; [apply Hall; by left|done].
Qed.

(** C5: every edge of the graph of the cycle detector leads to a cell named
    after the sheet of the formula itself, also for a qualified reference.
    The reference to Sheet1!B15 in Sheet2!B6 becomes an edge to Sheet2!B15,
    and the reference to Sheet1!A1 in Sheet2!A1 becomes an edge from
    Sheet2!A1 to itself, which is reported as a cycle;
    [_analyze_cross_sheet_dependencies] does read the sheet name off the same
    formulas. *)
Theorem C5_qualified_reference_edge (sheets : sheets_t) (node : string)
  (targets : list string) :
  In (node, targets) (build_dependencies sheets) ->
  (exists sheet_name sd cell_address,
     In (sheet_name, sd) sheets /\
     node = full_address sheet_name cell_address /\
     targets = map (full_address sheet_name)
                   (metadata_referenced_cells sd cell_address)) /\
  build_dependencies (extract_formulas_from_workbook cross_sheet_workbook) =
    [("Sheet2!B6", ["Sheet2!B15"])] /\
  _analyze_cross_sheet_dependencies
    (extract_formulas_from_workbook cross_sheet_workbook) =
    [("Sheet2", ["Sheet1"])] /\
  build_dependencies (extract_formulas_from_workbook same_address_workbook) =
    [("Sheet2!A1", ["Sheet2!A1"])] /\
  _detect_circular_references
    (extract_formulas_from_workbook same_address_workbook) =
    Some [["Sheet2!A1"; "Sheet2!A1"]].
Proof.
  intros Hin. split; [|repeat split; by vm_compute].
  assert (H : Forall (own_sheet_entry sheets) (build_dependencies sheets))
    by (apply build_entries; [auto|constructor]).
  rewrite List.Forall_forall in H. exact (H _ Hin).
Qed.

Lemma C5_witness :
  exists sheet_name sd cell_address,
    In (sheet_name, sd) (extract_formulas_from_workbook cross_sheet_workbook) /\
    "Sheet2!B6" = full_address sheet_name cell_address /\
    ["Sheet2!B15"] = map (full_address sheet_name)
                         (metadata_referenced_cells sd cell_address).
Proof.
  apply (C5_qualified_reference_edge
           (extract_formulas_from_workbook cross_sheet_workbook)
           "Sheet2!B6" ["Sheet2!B15"]).
  vm_compute. tauto.
Defined.

(** ** Validation *)

Lemma syntax_rejects_outside formula :
  outside_whitelist formula -> _validate_formula_syntax formula = false.
Proof.
  intros (c & Hin & Hc). unfold _validate_formula_syntax.
  destruct (startswith_eq formula); [|reflexivity]. cbn [negb].
  destruct (count_char "(" formula =? count_char ")" formula); [|reflexivity].
  cbn [negb].
  destruct (forallb _ (str_chars formula)) eqn:E; [|reflexivity].
  rewrite forallb_forall in E. apply E in Hin. congruence.
Qed.

Lemma quote_outside_whitelist formula :
  contains_char dquote formula = true -> outside_whitelist formula.
Proof.
  unfold contains_char at 1. intros H. apply existsb_exists in H.
  destruct H as (c & Hin & Hc). exists c. split; [done|].
  unfold is_char in Hc. apply Ascii.eqb_eq in Hc. subst c. reflexivity.
Qed.

(** One step of the loop over the formulas of a sheet. *)
Lemma validate_one_step cells s sd r cell_address formula :
  let r' := validate_one cells s sd r (cell_address, formula) in
  (error_formulas r = length (syntax_errors r) ->
   error_formulas r' = length (syntax_errors r')) /\
  (Forall valid_missing (missing_references r) ->
   Forall valid_missing (missing_references r')) /\
  (forall e, In e (syntax_errors r) -> In e (syntax_errors r')) /\
  (_validate_formula_syntax formula = false ->
   In (SyntaxErrorEntry s cell_address formula) (syntax_errors r')).
Proof.
  unfold validate_one.
  destruct (_validate_formula_syntax formula) eqn:E; cbn [negb].
  - destruct (filter _ _) as [|x l]; cbn [syntax_errors error_formulas missing_references].
    + repeat split; auto; discriminate.
    + repeat split; auto; try discriminate.
      intros H. apply Forall_app. split; [done|]. by repeat constructor.
  - cbn [syntax_errors error_formulas missing_references].
    split; [|split; [|split]].
    + intros ->. rewrite length_app. simpl. lia.
    + auto.
    + intros e He. apply in_or_app. by left.
    + intros _. apply in_or_app. right. by left.
Qed.

Lemma validate_sheet_loop cells s sd fs : forall r,
  let r' := fold_left (validate_one cells s sd) fs r in
  (error_formulas r = length (syntax_errors r) ->
   error_formulas r' = length (syntax_errors r')) /\
  (Forall valid_missing (missing_references r) ->
   Forall valid_missing (missing_references r')) /\
  (forall e, In e (syntax_errors r) -> In e (syntax_errors r')) /\
  (forall c f, In (c, f) fs -> _validate_formula_syntax f = false ->
               In (SyntaxErrorEntry s c f) (syntax_errors r')).
Proof.
  induction fs as [|[c0 f0] fs IH]; intros r; cbn [fold_left].
  - repeat split; auto. intros c f [].
  - destruct (validate_one_step cells s sd r c0 f0) as (A1 & A2 & A3 & A4).
    destruct (IH (validate_one cells s sd r (c0, f0))) as (B1 & B2 & B3 & B4).
    cbn zeta in *. repeat split; auto.
    intros c f [[= -> ->]|Hin] Hf; [auto|eauto].
Qed.

Lemma validate_document_loop cells (sheets : sheets_t) : forall r,
  let r' :=
    fold_left
      (fun r '(sheet_name, sd) =>
         fold_left (validate_one cells sheet_name sd) (formulas sd) r)
      sheets r in
  (error_formulas r = length (syntax_errors r) ->
   error_formulas r' = length (syntax_errors r')) /\
  (Forall valid_missing (missing_references r) ->
   Forall valid_missing (missing_references r')) /\
  (forall e, In e (syntax_errors r) -> In e (syntax_errors r')) /\
  (forall s c f, In (s, c, f) (formula_entries sheets) ->
                 _validate_formula_syntax f = false ->
                 In (SyntaxErrorEntry s c f) (syntax_errors r')).
Proof.
  induction sheets as [|[s0 sd0] sheets IH]; intros r; cbn [fold_left].
  - repeat split; auto. intros s c f [].
  - destruct (validate_sheet_loop cells s0 sd0 (formulas sd0) r)
      as (A1 & A2 & A3 & A4).
    destruct (IH (fold_left (validate_one cells s0 sd0) (formulas sd0) r))
      as (B1 & B2 & B3 & B4).
    cbn zeta in *. repeat split; auto.
    intros s c f Hin Hf. unfold formula_entries in Hin. cbn [flat_map] in Hin.
    apply in_app_or in Hin. destruct Hin as [Hin|Hin]; [|eauto].
    apply in_map_iff in Hin. destruct Hin as ([c1 f1] & [= <- <- <-] & Hin).
    eauto.
Qed.

(** C10: a formula with a character outside the whitelist, and so every
    formula with a double quote, fails [_validate_formula_syntax]; in
    [validate_formula_integrity] it is entered in the syntax errors, the
    error count is the number of these entries, and no entry of the missing
    references is made for it. *)
Theorem C10_whitelist_rejects_quoted_formulas (sheets : sheets_t)
  (sheet_name cell_address formula : string) :
  In (sheet_name, cell_address, formula) (formula_entries sheets) ->
  outside_whitelist formula \/ contains_char dquote formula = true ->
  _validate_formula_syntax formula = false /\
  In (SyntaxErrorEntry sheet_name cell_address formula)
     (syntax_errors (validate_formula_integrity sheets)) /\
  error_formulas (validate_formula_integrity sheets) =
    length (syntax_errors (validate_formula_integrity sheets)) /\
  (forall m, In m (missing_references (validate_formula_integrity sheets)) ->
             mr_formula m <> formula).
Proof.
  intros Hin Hout.
  assert (Hf : _validate_formula_syntax formula = false).
  { apply syntax_rejects_outside.
    destruct Hout as [H|H]; [done|by apply quote_outside_whitelist]. }
  destruct (validate_document_loop (all_cells sheets) sheets
              (ValidationResults [] (Some []) [] 0 0 0 0))
    as (A1 & A2 & A3 & A4).
  unfold validate_formula_integrity.
  cbn [syntax_errors error_formulas missing_references]. cbn zeta in *.
  split; [done|]. split; [eauto|]. split; [by apply A1|].
  intros m Hm E. specialize (A2 (List.Forall_nil _)).
  rewrite Forall_forall in A2. apply list_elem_of_In, A2 in Hm.
  unfold valid_missing in Hm. congruence.
Qed.

Lemma C10_witness :
  _validate_formula_syntax if_ok_check = false /\
  In (SyntaxErrorEntry "Test Sheet" "B5" if_ok_check)
     (syntax_errors
        (validate_formula_integrity
           (extract_formulas_from_workbook test_sheet_workbook))).
Proof.
  destruct (C10_whitelist_rejects_quoted_formulas
              (extract_formulas_from_workbook test_sheet_workbook)
              "Test Sheet" "B5" if_ok_check) as (H1 & H2 & _).
  - vm_compute. tauto.
  - right. by vm_compute.
  - split; [exact H1|exact H2].
Defined.

(** ** The formula export *)

Lemma set_fresh {V} (d : Dict.t V) k v :
  ~ In k (Dict.keys d) -> Dict.set d k v = d ++ [(k, v)].
Proof.
  induction d as [|[k' v'] d IH]; simpl; [done|].
  intros H. destruct (String.eqb_spec k k') as [->|Hne]; [tauto|].
  rewrite IH; [done|tauto].
Qed.

Lemma keys_app {V} (d1 d2 : Dict.t V) :
  Dict.keys (d1 ++ d2) = Dict.keys d1 ++ Dict.keys d2.
Proof. apply map_app. Qed.

(** Entries with fresh, distinct keys are appended in order. *)
Lemma fold_set_fresh {V} (kf : string -> string) (vf : string -> string -> V)
  (fs : Dict.t string) : forall out,
  NoDup (Dict.keys out ++ map kf (Dict.keys fs)) ->
  fold_left (fun out '(c, f) => Dict.set out (kf c) (vf c f)) fs out =
  out ++ map (fun '(c, f) => (kf c, vf c f)) fs.
Proof.
  induction fs as [|[c f] fs IH]; intros out Hnd; cbn [fold_left map].
  - by rewrite app_nil_r.
  - cbn [Dict.keys map fst] in Hnd.
    rewrite set_fresh.
    + rewrite IH.
      * by rewrite <- app_assoc.
      * rewrite keys_app. cbn [Dict.keys map fst]. by rewrite <- app_assoc.
    + apply NoDup_app in Hnd. destruct Hnd as (_ & Hd & _).
      intros Hin. apply (Hd (kf c)); [by apply list_elem_of_In|]. by left.
Qed.

Lemma keys_entries {V} (kf : string -> string) (vf : string -> string -> V)
  (fs : Dict.t string) :
  Dict.keys (map (fun '(c, f) => (kf c, vf c f)) fs) = map kf (Dict.keys fs).
Proof.
  unfold Dict.keys. rewrite !map_map. apply map_ext. by intros [c f].
Qed.

Lemma nested_fold_fresh {V} (kf : string -> string -> string)
  (vf : string -> string -> string -> V) (sheets : processed_sheets) :
  forall out,
  NoDup (Dict.keys out ++
         Dict.keys (flat_map (fun '(s, fs) =>
                                map (fun '(c, f) => (kf s c, vf s c f)) fs)
                             sheets)) ->
  fold_left
    (fun out '(s, fs) =>
       fold_left (fun out '(c, f) => Dict.set out (kf s c) (vf s c f)) fs out)
    sheets out =
  out ++ flat_map (fun '(s, fs) => map (fun '(c, f) => (kf s c, vf s c f)) fs)
                  sheets.
Proof.
  induction sheets as [|[s fs] sheets IH]; intros out Hnd;
    cbn [fold_left flat_map].
  - by rewrite app_nil_r.
  - cbn [flat_map] in Hnd. rewrite keys_app, app_assoc in Hnd.
    rewrite (fold_set_fresh (kf s) (vf s)).
    + rewrite IH; [by rewrite <- app_assoc|].
      by rewrite keys_app.
    + apply NoDup_app in Hnd. destruct Hnd as (Hnd & _ & _).
      by rewrite <- (keys_entries (kf s) (vf s)).
Qed.

Lemma digits_chars l :
  forallb is_digit l = true ->
  forallb (fun c => is_upper c || is_digit c) l = true.
Proof.
  induction l as [|c l IH]; simpl; [done|].
  intros H. apply andb_prop in H. destruct H as [H1 H2].
  rewrite H1, orb_true_r. simpl. auto.
Qed.

Lemma cell_ref_chars l :
  forallb is_digit (skip_while is_upper l) = true ->
  forallb (fun c => is_upper c || is_digit c) l = true.
Proof.
  induction l as [|c l IH]; simpl; [done|].
  destruct (is_upper c) eqn:E; simpl.
  - exact IH.
  - intros H. apply andb_prop in H. destruct H as [H1 H2].
    rewrite H1. simpl. by apply digits_chars.
Qed.

Lemma key_cell_ref_none_chars (l : list ascii) :
  forallb (fun c => is_upper c || is_digit c) l = true ->
  key_cell_ref (chars_str l) = None.
Proof.
  unfold chars_str.
  induction l as [|c l IH];
    cbn [string_of_list_ascii key_cell_ref forallb]; [done|].
  intros H. apply andb_prop in H. destruct H as [H1 H2].
  rewrite (IH H2).
  destruct (is_char "!" c) eqn:E; [|done].
  unfold is_char in E. apply Ascii.eqb_eq in E. subst c. discriminate H1.
Qed.

Lemma key_cell_ref_none c : is_cell_ref c = true -> key_cell_ref c = None.
Proof.
  unfold is_cell_ref. intros H.
  rewrite <- (string_of_list_ascii_of_string c).
  apply key_cell_ref_none_chars. unfold str_chars in H.
  destruct (list_ascii_of_string c) as [|x l]; [done|].
  apply andb_prop in H. destruct H as [H1 H2]. simpl. rewrite H1. simpl.
  apply cell_ref_chars. by destruct (skip_while is_upper l).
Qed.

Lemma key_cell_ref_full s c :
  is_cell_ref c = true -> key_cell_ref (full_address s c) = Some c.
Proof.
  intros H. unfold full_address. induction s as [|x s IH]; simpl.
  - by rewrite key_cell_ref_none.
  - by rewrite IH.
Qed.

Lemma string_length_app (s t : string) :
  String.length (s +:+ t) = String.length s + String.length t.
Proof. induction s as [|c s IH]; simpl; [done|]. by rewrite IH. Qed.

Lemma append_inj_l (s1 s2 t : string) : s1 +:+ t = s2 +:+ t -> s1 = s2.
Proof.
  revert s2. induction s1 as [|x s1 IH]; intros s2 H.
  - destruct s2 as [|y s2]; [done|].
    apply (f_equal String.length) in H.
    rewrite !string_length_app in H. simpl in H. lia.
  - destruct s2 as [|y s2].
    + apply (f_equal String.length) in H.
      rewrite !string_length_app in H. simpl in H. lia.
    + change (String x (s1 +:+ t) = String y (s2 +:+ t)) in H.
      injection H as -> H. f_equal. by apply IH.
Qed.

(** Two cells with the same flat key are the same cell of the same sheet. *)
Lemma full_address_inj s1 c1 s2 c2 :
  is_cell_ref c1 = true -> is_cell_ref c2 = true ->
  full_address s1 c1 = full_address s2 c2 -> s1 = s2 /\ c1 = c2.
Proof.
  intros H1 H2 E.
  assert (Hc : c1 = c2).
  { apply (f_equal key_cell_ref) in E.
    rewrite !key_cell_ref_full in E by done. by injection E. }
  subst c2. split; [|done]. unfold full_address in E.
  by apply append_inj_l in E.
Qed.

Lemma flat_keys_of_sheet (sheets : processed_sheets) k :
  In k (Dict.keys (flat_entries sheets)) ->
  exists s fs c, In (s, fs) sheets /\ In c (Dict.keys fs) /\
                 k = full_address s c.
Proof.
  unfold Dict.keys at 1. intros H. apply in_map_iff in H.
  destruct H as ([k' f] & <- & H). unfold flat_entries in H.
  apply in_flat_map in H. destruct H as ([s fs] & Hs & H).
  apply in_map_iff in H. destruct H as ([c f'] & [= <- <-] & H).
  exists s, fs, c. split; [done|]. split; [|done].
  by apply (in_map fst) in H.
Qed.

Lemma processed_tail s fs (sheets : processed_sheets) :
  processed_document ((s, fs) :: sheets) ->
  processed_document sheets /\ ~ In s (Dict.keys sheets) /\ Dict.wf fs /\
  (forall c, In c (Dict.keys fs) -> is_cell_ref c = true).
Proof.
  intros [Hwf Hall]. unfold Dict.wf in Hwf. cbn [Dict.keys map fst] in Hwf.
  apply NoDup_cons in Hwf. destruct Hwf as [Hs Hwf].
  destruct (Hall s fs (or_introl eq_refl)) as [Hfs Hc].
  split; [|split; [|split]]; try done.
  - split; [done|]. intros s' fs' Hin. apply (Hall s'). by right.
  - intros Hin. apply Hs. by apply list_elem_of_In.
Qed.

(** The flat keys of a processed document are pairwise distinct. *)
Lemma flat_keys_nodup (sheets : processed_sheets) :
  processed_document sheets -> NoDup (Dict.keys (flat_entries sheets)).
Proof.
  induction sheets as [|[s fs] sheets IH]; intros Hp.
  - constructor.
  - destruct (processed_tail _ _ _ Hp) as (Hp' & Hs & Hfs & Hc).
    unfold flat_entries. cbn [flat_map]. rewrite keys_app.
    apply NoDup_app. split; [|split].
    + rewrite (keys_entries (full_address s) (fun _ f => f)).
      apply NoDup_fmap_2_strong; [|exact Hfs].
      intros c1 c2 _ _ E. by apply full_address_inj_cell in E.
    + intros k Hk1 Hk2.
      rewrite (keys_entries (full_address s) (fun _ f => f)) in Hk1.
      apply list_elem_of_In, in_map_iff in Hk1.
      destruct Hk1 as (c & <- & Hc1).
      apply list_elem_of_In, flat_keys_of_sheet in Hk2.
      destruct Hk2 as (s' & fs' & c' & Hs' & Hc' & E).
      destruct Hp' as [_ Hall]. destruct (Hall s' fs' Hs') as [_ Hcr].
      apply full_address_inj in E; [|auto..]. destruct E as [-> _].
      apply Hs. by apply (in_map fst) in Hs'.
    + by apply IH.
Qed.






Lemma global_keys filename (sheets : processed_sheets) :
  Dict.keys (global_entries filename sheets) =
  map (fun k => filename +:+ "#" +:+ k) (Dict.keys (flat_entries sheets)).
Proof.
  unfold global_entries, flat_entries, Dict.keys.
  induction sheets as [|[s fs] sheets IH]; [done|].
  cbn [flat_map]. rewrite !map_app, IH. f_equal.
  rewrite !map_map. apply map_ext. by intros [c f].
Qed.



(** * Further properties of the embedded code *)

(** ** Matches lie in the language of the pattern *)

Lemma star_loop_rel (f : mstate -> list mstate) (S R : mstate -> mstate -> Prop) :
  (forall st, R st st) ->
  (forall a b c, S a b -> R b c -> R a c) ->
  (forall st st', In st' (f st) -> S st st') ->
  forall n st st',
    In st'
      ((fix loop (n : nat) (st : mstate) {struct n} : list mstate :=
          match n with
          | O => [st]
          | S n' =>
              flat_map
                (fun st' =>
                   if (length (rest st') <? length (rest st))%nat
                   then loop n' st' else [])
                (f st) ++ [st]
          end) n st) ->
    R st st'.
Proof.
  intros Hrefl Hstep Hf. induction n as [|n IH]; intros st st' Hin.
  - destruct Hin as [<-|[]]. apply Hrefl.
  - apply in_app_or in Hin. destruct Hin as [Hin|[<-|[]]]; [|apply Hrefl].
    apply in_flat_map in Hin. destruct Hin as (st1 & H1 & H2).
    destruct (length (rest st1) <? length (rest st))%nat; [|destruct H2].
    eapply Hstep; [apply Hf; exact H1|]. by apply IH.
Qed.

Lemma run_rel_refl_star r st : run_rel (Star r) st st.
Proof.
  split; [|split].
  - exists []. split; [done|constructor].
  - auto.
  - intros n g H. by left.
Qed.

Lemma run_rel_step_star r a b c :
  run_rel r a b -> run_rel (Star r) b c -> run_rel (Star r) a c.
Proof.
  intros ((w1 & E1 & L1) & M1 & P1) ((w2 & E2 & L2) & M2 & P2).
  split; [|split].
  - exists (w1 ++ w2). split; [by rewrite E1, E2, app_assoc|by constructor].
  - auto.
  - intros n g H. destruct (P2 n g H) as [H'|H']; [|by right].
    destruct (P1 n g H') as [H''|H'']; [by left|by right].
Qed.

(** What [run] returns is related to where it started by [run_rel]. *)
Lemma run_sound r : forall st st', In st' (run r st) -> run_rel r st st'.
Proof.
  induction r as [p|r1 IH1 r2 IH2|r1 IH1|r1 IH1|n r1 IH1|];
    intros st st' Hin; cbn [run] in Hin.
  - destruct (rest st) as [|c s'] eqn:E; [destruct Hin|].
    destruct (p c) eqn:Ep; [|destruct Hin]. destruct Hin as [<-|[]].
    split; [|split]; cbn [rest groups].
    + exists [c]. split; [by rewrite E|by constructor].
    + auto.
    + intros m g H. by left.
  - apply in_flat_map in Hin. destruct Hin as (st1 & H1 & H2).
    destruct (IH1 _ _ H1) as ((w1 & E1 & L1) & M1 & P1).
    destruct (IH2 _ _ H2) as ((w2 & E2 & L2) & M2 & P2).
    split; [|split].
    + exists (w1 ++ w2). split; [by rewrite E1, E2, app_assoc|by constructor].
    + auto.
    + intros m g H. destruct (P2 m g H) as [H'|(body & Hb & Hl)].
      * destruct (P1 m g H') as [H''|(body & Hb & Hl)]; [by left|].
        right. exists body. split; [by left|done].
      * right. exists body. split; [by right|done].
  - eapply (star_loop_rel (run r1) (run_rel r1) (run_rel (Star r1)));
      eauto using run_rel_refl_star, run_rel_step_star.
  - apply in_app_or in Hin. destruct Hin as [Hin|[<-|[]]].
    + destruct (IH1 _ _ Hin) as ((w & E & L) & M & P).
      split; [|split]; [|done|done].
      exists w. split; [done|by constructor].
    + split; [|split]; [|auto|intros m g H; by left].
      exists []. split; [done|constructor].
  - apply in_map_iff in Hin. destruct Hin as (st1 & <- & H1).
    destruct (IH1 _ _ H1) as ((w & E & L) & M & P).
    split; [|split]; cbn [rest groups].
    + exists w. split; [done|by constructor].
    + intros x Hx. right. auto.
    + intros m g [[= <- <-]|H].
      * right. exists r1. split; [left; done|].
        unfold consumed. rewrite E, length_app.
        replace (length w + length (rest st1) - length (rest st1)) with (length w) by lia.
        by rewrite take_app_length.
      * destruct (P m g H) as [H'|(body & Hb & Hl)]; [by left|].
        right. exists body. split; [by right|done].
  - destruct (xorb _ _); [|destruct Hin]. destruct Hin as [<-|[]].
    split; [|split]; [|auto|intros m g H; by left].
    exists []. split; [done|constructor].
Qed.

(** A pattern that records group [n] on every way has recorded it. *)
Lemma run_captures n r : captures n r ->
  forall st st', In st' (run r st) -> exists g, In (n, g) (groups st').
Proof.
  induction r as [p|r1 IH1 r2 IH2|r1 IH1|r1 IH1|m r1 IH1|];
    cbn [captures]; intros Hc st st' Hin; try done; cbn [run] in Hin.
  - apply in_flat_map in Hin. destruct Hin as (st1 & H1 & H2).
    destruct Hc as [Hc|Hc].
    + destruct (IH1 Hc _ _ H1) as (g & Hg). exists g.
      by apply (run_sound r2 _ _ H2).
    + eauto.
  - apply in_map_iff in Hin. destruct Hin as (st1 & <- & H1). cbn [groups].
    destruct Hc as [->|Hc].
    + eexists. by left.
    + destruct (IH1 Hc _ _ H1) as (g & Hg). exists g. by right.
Qed.

Lemma find_group n (l : list (nat * list ascii)) g :
  In (n, g) l ->
  exists g', find (fun x => (fst x =? n)%nat) l = Some (n, g') /\ In (n, g') l.
Proof.
  induction l as [|[m h] l IH]; [done|]. cbn [find fst].
  destruct (Nat.eqb_spec m n) as [->|Hne].
  - intros _. exists h. split; [done|by left].
  - intros [[= E _]|H]; [done|]. destruct (IH H) as (g' & E & Hin).
    exists g'. split; [done|by right].
Qed.

(** The text of group [n] of a match of a pattern with one group [n], which
    every way through the pattern records, is in the language of its body. *)
Lemma match_group n body r p s m len :
  captures n r ->
  (forall b, subgroup n b r -> b = body) ->
  match_at r p s = Some (m, len) -> lang body (group n m).
Proof.
  intros Hc Hb. unfold match_at.
  destruct (run r (MState p s [])) as [|st l] eqn:E; [done|].
  intros [= <- _]. unfold group. cbn [captured].
  assert (Hin : In st (run r (MState p s []))) by (rewrite E; by left).
  destruct (run_captures n r Hc _ _ Hin) as (g & Hg).
  destruct (find_group n _ _ Hg) as (g' & -> & Hg'). cbn [snd].
  destruct (run_sound r _ _ Hin) as (_ & _ & P).
  destruct (P n g' Hg') as [[]|(b & Hsub & Hl)].
  by rewrite <- (Hb b Hsub).
Qed.

Lemma scan_forall (Q : rmatch -> Prop) r :
  (forall p s m len, match_at r p s = Some (m, len) -> Q m) ->
  forall s skip p, Forall Q (scan r skip p s).
Proof.
  intros H. induction s as [|c s IH]; intros skip p.
  - destruct skip; cbn [scan]; [|constructor].
    destruct (match_at r p []) as [[m len]|] eqn:E; [|constructor].
    constructor; [eauto|constructor].
  - destruct skip; cbn [scan]; [|apply IH].
    destruct (match_at r p (c :: s)) as [[m len]|] eqn:E; [|apply IH].
    constructor; [eauto|apply IH].
Qed.

(** Every text that [findall] returns for such a pattern is in the language
    of the body of its group. *)
Lemma findall_lang body r s :
  captures 1 r ->
  (forall b, subgroup 1 b r -> b = body) ->
  Forall (fun t => exists w, t = chars_str w /\ lang body w) (findall r s).
Proof.
  intros Hc Hb. unfold findall. apply List.Forall_forall. intros t Ht.
  apply in_map_iff in Ht. destruct Ht as (m & <- & Hm).
  pose proof (scan_forall (fun m => lang body (group 1 m)) r) as H.
  specialize (H (fun p s m len => match_group 1 body r p s m len Hc Hb)
                (str_chars s) 0 None).
  rewrite List.Forall_forall in H. eauto.
Qed.

Lemma lang_star_cls p w : lang (Star (Cls p)) w -> forallb p w = true.
Proof.
  intros H. remember (Star (Cls p)) as r eqn:Er.
  induction H as [| | |r w1 w2 H1 _ H2 IH2| | | |]; try discriminate Er.
  - reflexivity.
  - injection Er as ->. inversion H1; subst. cbn [app forallb].
    rewrite IH2 by reflexivity. by rewrite andb_true_r.
Qed.

Lemma lang_plus_cls p w :
  lang (Plus (Cls p)) w -> w <> [] /\ forallb p w = true.
Proof.
  unfold Plus. intros H. inversion H as [|r1 r2 w1 w2 H1 H2| | | | | |]; subst.
  inversion H1; subst. apply lang_star_cls in H2. cbn [app forallb].
  split; [done|]. by rewrite H2, andb_true_r.
Qed.

Lemma lang_cell_ref w :
  lang cell_ref_re w ->
  exists u d, w = u ++ d /\ u <> [] /\ forallb is_upper u = true /\
              d <> [] /\ forallb is_digit d = true.
Proof.
  unfold cell_ref_re. intros H.
  inversion H as [|r1 r2 w1 w2 H1 H2| | | | | |]; subst.
  apply lang_plus_cls in H1, H2. destruct H1, H2. by exists w1, w2.
Qed.

Lemma str_chars_of_chars (w : list ascii) : str_chars (chars_str w) = w.
Proof. apply list_ascii_of_string_of_list_ascii. Qed.

Lemma digit_not_upper c : is_digit c = true -> is_upper c = false.
Proof.
  unfold is_digit, is_upper, in_range. intros H.
  apply andb_prop in H. destruct H as [_ H]. apply Nat.leb_le in H.
  destruct (Nat.leb_spec 65 (code c)); [lia|reflexivity].
Qed.

Lemma skip_upper_run u d :
  forallb is_upper u = true ->
  d <> [] -> forallb is_digit d = true -> skip_while is_upper (u ++ d) = d.
Proof.
  intros Hu Hd Hdig. induction u as [|c u IH]; cbn [app].
  - destruct d as [|x d]; [done|]. cbn [skip_while forallb] in *.
    apply andb_prop in Hdig. destruct Hdig as [Hx _].
    by rewrite (digit_not_upper x Hx).
  - cbn [forallb] in Hu. apply andb_prop in Hu. destruct Hu as [Hc Hu].
    cbn [skip_while]. rewrite Hc. by apply IH.
Qed.

Lemma cell_ref_of_runs u d :
  u <> [] -> forallb is_upper u = true ->
  d <> [] -> forallb is_digit d = true ->
  is_cell_ref (chars_str (u ++ d)) = true.
Proof.
  intros Hu Hup Hd Hdig. unfold is_cell_ref. rewrite str_chars_of_chars.
  destruct u as [|c u]; [done|]. cbn [app forallb] in *.
  apply andb_prop in Hup. destruct Hup as [Hc Hup]. rewrite Hc. cbn [andb].
  rewrite skip_upper_run by done. by destruct d.
Qed.

Lemma no_colon_in_runs u d :
  forallb is_upper u = true -> forallb is_digit d = true ->
  existsb (is_char ":") (u ++ d) = false.
Proof.
  intros Hu Hd. rewrite existsb_app. apply orb_false_iff. split.
  - induction u as [|c u IH]; [done|]. cbn [forallb existsb] in *.
    apply andb_prop in Hu. destruct Hu as [Hc Hu]. rewrite (IH Hu).
    destruct (is_char ":" c) eqn:E; [|done].
    apply Ascii.eqb_eq in E. subst c. discriminate Hc.
  - induction d as [|c d IH]; [done|]. cbn [forallb existsb] in *.
    apply andb_prop in Hd. destruct Hd as [Hc Hd]. rewrite (IH Hd).
    destruct (is_char ":" c) eqn:E; [|done].
    apply Ascii.eqb_eq in E. subst c. discriminate Hc.
Qed.

Lemma chars_str_app_list (a b : list ascii) :
  chars_str (a ++ b) = chars_str a +:+ chars_str b.
Proof.
  unfold chars_str. induction a as [|c a IH]; [done|].
  cbn [app string_of_list_ascii]. by rewrite IH.
Qed.

(** A text of the language of the cell pattern is a cell reference if it
    has no colon, and a range otherwise. *)
Lemma lang_cell_pattern_body w :
  lang cell_pattern_body w ->
  (contains_char ":" (chars_str w) = false /\
   is_cell_ref (chars_str w) = true) \/
  (contains_char ":" (chars_str w) = true /\ is_range_ref (chars_str w)).
Proof.
  unfold cell_pattern_body. intros H.
  inversion H as [|r1 r2 w1 w2 H1 H2| | | | | |]; subst.
  apply lang_cell_ref in H1. destruct H1 as (u & d & -> & Hu & Hup & Hd & Hdig).
  inversion H2 as [| | | |r|r w Hw| |]; subst.
  - left. rewrite app_nil_r. unfold contains_char. rewrite str_chars_of_chars.
    split; [by apply no_colon_in_runs|by apply cell_ref_of_runs].
  - right. inversion Hw as [|r1 r2 w3 w4 H3 H4| | | | | |]; subst.
    inversion H3 as [p c Hc| | | | | | |]; subst. apply Ascii.eqb_eq in Hc. subst c.
    apply lang_cell_ref in H4.
    destruct H4 as (u' & d' & -> & Hu' & Hup' & Hd' & Hdig').
    split.
    + unfold contains_char. rewrite str_chars_of_chars, !existsb_app.
      cbn [app existsb]. rewrite Ascii.eqb_refl. cbn. by rewrite orb_true_r.
    + exists (chars_str (u ++ d)), (chars_str (u' ++ d')).
      split; [|split; by apply cell_ref_of_runs].
      by rewrite chars_str_app_list.
Qed.

Lemma subgroup_cell_pattern b :
  subgroup 1 b cell_pattern -> b = cell_pattern_body.
Proof. cbn. intros [[_ ->]|H]; [reflexivity|tauto]. Qed.

(** X1: every referenced cell that [_analyze_formula] records is a cell
    reference (capital letters, then digits), and every referenced range is
    two cell references joined by a colon. *)
Theorem analyze_references_well_formed (formula cell : string) :
  Forall (fun c => is_cell_ref c = true)
         (referenced_cells (_analyze_formula formula cell)) /\
  Forall is_range_ref (referenced_ranges (_analyze_formula formula cell)).
Proof.
  unfold _analyze_formula. destruct (startswith_eq formula); cbn [negb];
    [|split; constructor].
  cbn [referenced_cells referenced_ranges].
  pose proof (findall_lang cell_pattern_body cell_pattern (drop_first formula)
                (or_introl eq_refl) subgroup_cell_pattern) as H.
  rewrite List.Forall_forall in H.
  split; apply List.Forall_forall; intros t Ht;
    apply list_elem_of_In, list_elem_of_filter in Ht; destruct Ht as [Hc Ht];
    apply list_elem_of_In, H in Ht; destruct Ht as (w & -> & Hw);
    apply lang_cell_pattern_body in Hw;
    destruct Hw as [[Hn Hw]|[Hn Hw]]; congruence.
Qed.

Lemma subgroup_operator_pattern b :
  subgroup 1 b operator_pattern -> b = Cls is_operator.
Proof. cbn. intros [[_ ->]|[]]. reflexivity. Qed.

Lemma operator_symbol w :
  lang (Cls is_operator) w -> chars_str w ∈ operator_symbols.
Proof.
  intros H. inversion H as [p c Hc| | | | | | |]; subst.
  unfold is_operator in Hc. unfold operator_symbols.
  repeat (apply orb_prop in Hc; destruct Hc as [Hc|Hc]);
    apply Ascii.eqb_eq in Hc; subst c; cbn; set_solver.
Qed.

(** X2: the operators that [_analyze_formula] records are among the eight
    operator symbols, so there are at most eight of them. *)
Theorem analyze_operators_bounded (formula cell : string) :
  operators (_analyze_formula formula cell) ⊆ operator_symbols /\
  size (operators (_analyze_formula formula cell)) <= 8.
Proof.
  assert (H : operators (_analyze_formula formula cell) ⊆ operator_symbols).
  { unfold _analyze_formula. destruct (startswith_eq formula); cbn [negb];
      cbn [operators]; [|set_solver].
    pose proof (findall_lang (Cls is_operator) operator_pattern
                  (drop_first formula) (or_introl eq_refl)
                  subgroup_operator_pattern) as H.
    rewrite List.Forall_forall in H.
    intros t Ht. apply elem_of_list_to_set, list_elem_of_In, H in Ht.
    destruct Ht as (w & -> & Hw). by apply operator_symbol. }
  split; [exact H|].
  apply subseteq_size in H. by vm_compute in H.
Qed.

Lemma subgroup_constant_pattern b :
  subgroup 1 b constant_pattern -> b = constant_body.
Proof. cbn. intros [[]|[[[_ ->]|H]|[]]]; [reflexivity|tauto]. Qed.

(** X3: every constant that [_analyze_formula] records is a decimal numeral
    (digits, possibly followed by a point and digits), the form of text to
    which the conversion to [float] applies. *)
Theorem analyze_constants_decimal (formula cell : string) :
  Forall is_decimal (constants (_analyze_formula formula cell)).
Proof.
  unfold _analyze_formula. destruct (startswith_eq formula); cbn [negb];
    cbn [constants]; [|constructor].
  pose proof (findall_lang constant_body constant_pattern (drop_first formula)
                (or_intror (or_introl (or_introl eq_refl)))
                subgroup_constant_pattern) as H.
  eapply Forall_impl; [exact H|]. intros t (w & -> & Hw). cbn beta.
  unfold constant_body in Hw.
  inversion Hw as [|r1 r2 w1 w2 H1 H2| | | | | |]; subst.
  apply lang_plus_cls in H1. destruct H1 as [Hne Hd].
  inversion H2 as [|r1 r2 w3 w4 H3 H4| | | | | |]; subst.
  apply lang_star_cls in H4.
  exists w1, w4. rewrite str_chars_of_chars.
  split; [done|]. split; [done|]. split; [done|].
  inversion H3 as [| | | |r|r w Hw'| |]; subst; [by left|].
  inversion Hw' as [p c Hc| | | | | | |]; subst.
  apply Ascii.eqb_eq in Hc. subst c. by right.
Qed.

(** ** Validation: counters and missing references *)

Lemma operators_size_le body :
  size (list_to_set (findall operator_pattern body) : gset string) <= 8.
Proof.
  assert (H : (list_to_set (findall operator_pattern body) : gset string)
              ⊆ operator_symbols).
  { pose proof (findall_lang (Cls is_operator) operator_pattern body
                  (or_introl eq_refl) subgroup_operator_pattern) as H.
    rewrite List.Forall_forall in H.
    intros t Ht. apply elem_of_list_to_set, list_elem_of_In, H in Ht.
    destruct Ht as (w & -> & Hw). by apply operator_symbol. }
  apply subseteq_size in H. by vm_compute in H.
Qed.

(** X4: the complexity score is bounded by the formula type: a simple
    formula scores at most 8, a complex-arithmetic formula between 4 and 13,
    a function formula at least 3 and a complex-reference formula at least
    2. *)
Theorem analyze_score_by_type (formula cell : string) :
  match formula_type (_analyze_formula formula cell) with
  | simple => complexity_score (_analyze_formula formula cell) <= 8
  | function => 3 <= complexity_score (_analyze_formula formula cell)
  | complex_reference => 2 <= complexity_score (_analyze_formula formula cell)
  | complex_arithmetic =>
      4 <= complexity_score (_analyze_formula formula cell) <= 13
  end.
Proof.
  unfold _analyze_formula. destruct (startswith_eq formula); cbn [negb];
    cbn [formula_type complexity_score empty_metadata]; [|lia].
  pose proof (operators_size_le (drop_first formula)) as Ho.
  set (nf := size (list_to_set (findall function_pattern (drop_first formula)) : gset string)) in *.
  set (no := size (list_to_set (findall operator_pattern (drop_first formula)) : gset string)) in *.
  set (nc := length (filter _ _)). set (nr := length (filter _ _)).
  destruct (Nat.ltb_spec 0 nf); [lia|].
  destruct (Nat.ltb_spec 5 nc); cbn [orb]; [lia|].
  destruct (Nat.ltb_spec 0 nr); [lia|].
  destruct (Nat.ltb_spec 3 no); lia.
Qed.

Lemma validate_one_counts cells s sd r entry :
  let r' := validate_one cells s sd r entry in
  total_formulas r' = S (total_formulas r) /\
  valid_formulas r' + error_formulas r' + warning_formulas r' =
    S (valid_formulas r + error_formulas r + warning_formulas r) /\
  (warning_formulas r = length (missing_references r) ->
   warning_formulas r' = length (missing_references r')).
Proof.
  destruct entry as [c f]. unfold validate_one.
  destruct (_validate_formula_syntax f); cbn [negb].
  - destruct (filter _ _) as [|x l];
      cbn [total_formulas valid_formulas error_formulas warning_formulas
           missing_references].
    + repeat split; auto; lia.
    + repeat split; [lia|]. intros ->. rewrite length_app. simpl. lia.
  - cbn [total_formulas valid_formulas error_formulas warning_formulas
         missing_references].
    repeat split; auto; lia.
Qed.

Lemma validate_sheet_counts cells s sd fs : forall r,
  let r' := fold_left (validate_one cells s sd) fs r in
  total_formulas r' = total_formulas r + length fs /\
  valid_formulas r' + error_formulas r' + warning_formulas r' =
    valid_formulas r + error_formulas r + warning_formulas r + length fs /\
  (warning_formulas r = length (missing_references r) ->
   warning_formulas r' = length (missing_references r')).
Proof.
  induction fs as [|e fs IH]; intros r; cbn [fold_left length].
  - repeat split; auto; lia.
  - destruct (validate_one_counts cells s sd r e) as (A1 & A2 & A3).
    destruct (IH (validate_one cells s sd r e)) as (B1 & B2 & B3).
    cbn zeta in *. repeat split; [lia|lia|auto].
Qed.

Lemma formula_entries_cons s sd (sheets : sheets_t) :
  length (formula_entries ((s, sd) :: sheets)) =
  length (formulas sd) + length (formula_entries sheets).
Proof.
  unfold formula_entries. cbn [flat_map]. by rewrite length_app, length_map.
Qed.

Lemma validate_document_counts cells (sheets : sheets_t) : forall r,
  let r' :=
    fold_left
      (fun r '(sheet_name, sd) =>
         fold_left (validate_one cells sheet_name sd) (formulas sd) r)
      sheets r in
  total_formulas r' = total_formulas r + length (formula_entries sheets) /\
  valid_formulas r' + error_formulas r' + warning_formulas r' =
    valid_formulas r + error_formulas r + warning_formulas r +
    length (formula_entries sheets) /\
  (warning_formulas r = length (missing_references r) ->
   warning_formulas r' = length (missing_references r')).
Proof.
  induction sheets as [|[s sd] sheets IH]; intros r; cbn [fold_left].
  - repeat split; auto; cbn; lia.
  - destruct (validate_sheet_counts cells s sd (formulas sd) r) as (A1 & A2 & A3).
    destruct (IH (fold_left (validate_one cells s sd) (formulas sd) r))
      as (B1 & B2 & B3).
    cbn zeta in *. rewrite formula_entries_cons.
    repeat split; [lia|lia|auto].
Qed.

(** X5: [validate_formula_integrity] counts every formula of the document
    once: the total is the number of formulas, it is the sum of the valid,
    error and warning counts, and the warning count is the number of entries
    of the missing references. *)
Theorem validation_counts (sheets : sheets_t) :
  total_formulas (validate_formula_integrity sheets) =
    length (formula_entries sheets) /\
  total_formulas (validate_formula_integrity sheets) =
    valid_formulas (validate_formula_integrity sheets) +
    error_formulas (validate_formula_integrity sheets) +
    warning_formulas (validate_formula_integrity sheets) /\
  warning_formulas (validate_formula_integrity sheets) =
    length (missing_references (validate_formula_integrity sheets)).
Proof.
  destruct (validate_document_counts (all_cells sheets) sheets
              (ValidationResults [] (Some []) [] 0 0 0 0)) as (A1 & A2 & A3).
  unfold validate_formula_integrity.
  cbn [total_formulas valid_formulas error_formulas warning_formulas
       missing_references] in *. cbn zeta in *.
  repeat split; [lia|lia|by apply A3].
Qed.

Lemma all_cells_fold (sheets : sheets_t) : forall (acc : gset string) x,
  x ∈ fold_left
        (fun acc '(_, sd) =>
           acc ∪ list_to_set (Dict.keys (values sd))
               ∪ list_to_set (Dict.keys (formulas sd)))
        sheets acc <->
  x ∈ acc \/ exists s sd, In (s, sd) sheets /\
                          (In x (Dict.keys (values sd)) \/
                           In x (Dict.keys (formulas sd))).
Proof.
  induction sheets as [|[s sd] sheets IH]; intros acc x; cbn [fold_left].
  - split; [by left|]. intros [H|(s & sd & [] & _)]. done.
  - rewrite IH. rewrite !elem_of_union, !elem_of_list_to_set, !list_elem_of_In.
    split.
    + intros [[[H|H]|H]|(s' & sd' & Hin & H)].
      * by left.
      * right. exists s, sd. split; [by left|by left].
      * right. exists s, sd. split; [by left|by right].
      * right. exists s', sd'. split; [by right|done].
    + intros [Hx|(s' & sd' & [E|Hin] & Hx)].
      * left. left. by left.
      * injection E as <- <-. left.
        destruct Hx as [Hx|Hx]; [left; by right|by right].
      * right. by exists s', sd'.
Qed.

Lemma all_cells_spec (sheets : sheets_t) x :
  x ∈ all_cells sheets <->
  exists s sd, In (s, sd) sheets /\
               (In x (Dict.keys (values sd)) \/ In x (Dict.keys (formulas sd))).
Proof.
  unfold all_cells. rewrite all_cells_fold. split; [|by right].
  intros [H|H]; [|done]. by apply not_elem_of_empty in H.
Qed.

Lemma validate_one_missing (all : sheets_t) s sd r c f :
  In (s, sd) all -> In (c, f) (formulas sd) ->
  Forall (missing_entry_ok all) (missing_references r) ->
  Forall (missing_entry_ok all)
    (missing_references (validate_one (all_cells all) s sd r (c, f))).
Proof.
  intros Hs Hc Hr. unfold validate_one.
  destruct (_validate_formula_syntax f); cbn [negb]; [|done].
  destruct (filter _ _) as [|x l] eqn:E; cbn [missing_references]; [done|].
  apply Forall_app. split; [done|]. constructor; [|constructor].
  split; [done|]. exists sd. cbn [mr_sheet mr_cell mr_formula mr_missing].
  split; [done|]. split; [done|].
  intros ref Href. rewrite <- E in Href.
  apply list_elem_of_In, list_elem_of_filter in Href. destruct Href as [Hn Href].
  split; [by apply list_elem_of_In|].
  intros s' sd' Hin. split; intros H; apply Hn, all_cells_spec;
    exists s', sd'; auto.
Qed.

Lemma validate_sheet_missing (all : sheets_t) s sd fs :
  In (s, sd) all -> (forall e, In e fs -> In e (formulas sd)) ->
  forall r,
    Forall (missing_entry_ok all) (missing_references r) ->
    Forall (missing_entry_ok all)
      (missing_references (fold_left (validate_one (all_cells all) s sd) fs r)).
Proof.
  intros Hs. induction fs as [|[c f] fs IH]; intros Hfs r Hr; cbn [fold_left];
    [done|].
  apply IH; [intros e He; apply Hfs; by right|].
  apply validate_one_missing; [done|apply Hfs; by left|done].
Qed.

Lemma validate_document_missing (all sheets : sheets_t) :
  (forall x, In x sheets -> In x all) ->
  forall r,
    Forall (missing_entry_ok all) (missing_references r) ->
    Forall (missing_entry_ok all)
      (missing_references
         (fold_left
            (fun r '(sheet_name, sd) =>
               fold_left (validate_one (all_cells all) sheet_name sd)
                         (formulas sd) r)
            sheets r)).
Proof.
  induction sheets as [|[s sd] sheets IH]; intros Hall r Hr; cbn [fold_left];
    [done|].
  apply IH; [intros x Hx; apply Hall; by right|].
  apply validate_sheet_missing; [apply Hall; by left|auto|done].
Qed.

(** X6: every entry of the missing references names at least one reference,
    belongs to a formula of the document, and lists only referenced cells of
    that formula at whose address no sheet of the document, whichever it is,
    has a value or a formula. *)
Theorem missing_references_sound (sheets : sheets_t) :
  Forall (missing_entry_ok sheets)
         (missing_references (validate_formula_integrity sheets)).
Proof.
  unfold validate_formula_integrity. cbn [missing_references].
  apply validate_document_missing; [auto|constructor].
Qed.

Lemma count_filter_perm (x : ascii) (l l' : list ascii) :
  l ≡ₚ l' ->
  length (filter (fun c => is_char x c = true) l) =
  length (filter (fun c => is_char x c = true) l').
Proof. intros H. by rewrite H. Qed.

Lemma forallb_perm (p : ascii -> bool) (l l' : list ascii) :
  l ≡ₚ l' -> forallb p l = forallb p l'.
Proof.
  intros Hp. induction Hp as [|x l l' H IH|x y l|l l' l'' H1 IH1 H2 IH2];
    cbn [forallb]; [done|by rewrite IH| |congruence].
  destruct (p x), (p y); reflexivity.
Qed.

Lemma str_chars_string a (l : list ascii) :
  str_chars (String a (chars_str l)) = a :: l.
Proof. unfold str_chars. cbn. f_equal. apply str_chars_of_chars. Qed.

(** X7: the syntax check of [FormulaExtractor] looks at which characters
    occur and how often, not at their order: rearranging the characters
    after the first does not change its verdict. *)
Theorem syntax_check_ignores_order (a : ascii) (l l' : list ascii) :
  l ≡ₚ l' ->
  _validate_formula_syntax (String a (chars_str l)) =
  _validate_formula_syntax (String a (chars_str l')).
Proof.
  intros H. unfold _validate_formula_syntax, count_char.
  rewrite !str_chars_string. cbn [startswith_eq].
  assert (Hp : a :: l ≡ₚ a :: l') by (by constructor).
  rewrite (count_filter_perm "(" _ _ Hp), (count_filter_perm ")" _ _ Hp).
  by rewrite (forallb_perm _ _ _ Hp).
Qed.

Lemma syntax_check_ignores_order_witness :
  _validate_formula_syntax "=)A1+B1(" = _validate_formula_syntax "=(A1+B1)".
Proof.
  apply (syntax_check_ignores_order "="
           (str_chars ")A1+B1(") (str_chars "(A1+B1)")).
  apply (Permutation_trans (l' := str_chars "A1+B1()")).
  - cbn. rewrite (Permutation_cons_append _ ")"%char). reflexivity.
  - cbn. symmetry. rewrite (Permutation_cons_append _ "("%char).
    cbn. do 5 apply perm_skip. apply perm_swap.
Defined.

Lemma whitelist_char formula c :
  forallb (fun c => contains_char c valid_chars) (str_chars formula) = true ->
  contains_char c valid_chars = false -> contains_char c formula = false.
Proof.
  intros Hall Hc. unfold contains_char at 1.
  destruct (existsb (is_char c) (str_chars formula)) eqn:E; [|done].
  apply existsb_exists in E. destruct E as (x & Hin & Hx).
  apply Ascii.eqb_eq in Hx. subst x.
  rewrite forallb_forall in Hall. apply Hall in Hin. congruence.
Qed.

(** X8: a formula that passes the syntax check of [FormulaExtractor] and has
    no ampersand also passes the syntax check of [ExcelProcessor]. *)
Theorem extractor_syntax_implies_processor_syntax (formula : string) :
  _validate_formula_syntax formula = true ->
  contains_char "&" formula = false ->
  ExcelProcessor._validate_formula_syntax formula = true.
Proof.
  unfold _validate_formula_syntax, ExcelProcessor._validate_formula_syntax.
  destruct (startswith_eq formula); cbn [negb]; [|done].
  destruct (count_char "(" formula =? count_char ")" formula); cbn [negb];
    [|done].
  destruct (forallb _ (str_chars formula)) eqn:E; cbn [negb]; [|done].
  intros _ Hamp. cbn [ExcelProcessor.invalid_chars existsb].
  rewrite Hamp, !(whitelist_char formula _ E) by reflexivity. reflexivity.
Qed.

Lemma extractor_syntax_implies_processor_syntax_witness :
  ExcelProcessor._validate_formula_syntax "=SUM(A1:B2)*2" = true.
Proof.
  apply (extractor_syntax_implies_processor_syntax "=SUM(A1:B2)*2");
    reflexivity.
Defined.

(** ** The rewriting of the formula text *)

Lemma cnt_cons x c l :
  cnt x (c :: l) = (if is_char x c then 1 else 0) + cnt x l.
Proof.
  unfold cnt. rewrite filter_cons. destruct (is_char x c) eqn:E.
  - rewrite decide_True by done. reflexivity.
  - rewrite decide_False by discriminate. reflexivity.
Qed.

Lemma cnt_app x l1 l2 : cnt x (l1 ++ l2) = cnt x l1 + cnt x l2.
Proof. unfold cnt. by rewrite filter_app, length_app. Qed.

Lemma cnt_cons_zero x c l :
  cnt x (c :: l) = 0 -> is_char x c = false /\ cnt x l = 0.
Proof. rewrite cnt_cons. destruct (is_char x c); [discriminate|]. by split. Qed.

(** Replacing a text without the character [x] by another such text keeps
    the number of occurrences of [x]. *)
Lemma replace_scan_count x old new :
  old <> [] -> cnt x old = 0 -> cnt x new = 0 ->
  forall s skip,
    cnt x (take skip s) = 0 ->
    cnt x (replace_scan old new skip s) = cnt x (drop skip s).
Proof.
  intros Hne Ho Hn. induction s as [|c s IH]; intros skip Hs.
  - by destruct skip.
  - destruct skip as [|k]; cbn [replace_scan].
    + case_bool_decide as Hp.
      * destruct Hp as (rest & E). destruct old as [|o old']; [done|].
        injection E as E1 E2. subst o s.
        replace (length (c :: old') - 1) with (length old') by (cbn [length]; lia).
        rewrite cnt_app, Hn. cbn [plus].
        apply cnt_cons_zero in Ho. destruct Ho as [Hc Ho].
        rewrite IH by (by rewrite take_app_length).
        rewrite drop_app_length. cbn [drop].
        rewrite cnt_cons, Hc, cnt_app, Ho. reflexivity.
      * change (drop 0 (c :: s)) with (c :: drop 0 s).
        rewrite !cnt_cons. rewrite (IH 0) by done. reflexivity.
    + cbn [take] in Hs. apply cnt_cons_zero in Hs. destruct Hs as [_ Hs].
      cbn [drop]. by apply IH.
Qed.

Lemma count_char_cnt x s : count_char x s = cnt x (str_chars s).
Proof. reflexivity. Qed.

Lemma replace_count_other x old new s :
  old <> EmptyString -> count_char x old = 0 -> count_char x new = 0 ->
  count_char x (replace old new s) = count_char x s.
Proof.
  intros Hne Ho Hn. unfold replace. rewrite !count_char_cnt, str_chars_of_chars.
  rewrite replace_scan_count; [done| |done|done|done].
  destruct old; [done|]. discriminate.
Qed.

Lemma replace_paren_scan s :
  cnt "]" (replace_scan [")"%char] ["]"%char; ")"%char] 0 s) =
    cnt "]" s + cnt ")" s /\
  cnt ")" (replace_scan [")"%char] ["]"%char; ")"%char] 0 s) = cnt ")" s.
Proof.
  induction s as [|c s [IH1 IH2]]; [done|]. cbn [replace_scan length Nat.sub].
  case_bool_decide as Hp.
  - apply prefix_cons_inv_1 in Hp. subst c.
    cbn [app]. rewrite !cnt_cons, IH1, IH2. cbn. lia.
  - assert (Hc : is_char ")" c = false).
    { destruct (is_char ")" c) eqn:E; [|done]. apply Ascii.eqb_eq in E.
      subst c. destruct Hp. apply prefix_cons, prefix_nil. }
    rewrite !cnt_cons, IH1, IH2, Hc. lia.
Qed.

Lemma replace_paren_count s :
  count_char "]" (replace ")" "])" s) = count_char "]" s + count_char ")" s /\
  count_char ")" (replace ")" "])" s) = count_char ")" s.
Proof.
  unfold replace. rewrite !count_char_cnt, !str_chars_of_chars.
  apply replace_paren_scan.
Qed.

Lemma replace_steps_plain l : Forall plain_entry l -> forall f,
  count_char "]" (fold_left replace_step l f) =
    count_char "]" f +
    length (filter (fun e => endswith_bracket (snd e) = true) l) *
    count_char ")" f /\
  count_char ")" (fold_left replace_step l f) = count_char ")" f.
Proof.
  induction 1 as [|[old new] l (Hne & H1 & H2 & H3 & H4) _ IH]; intros f;
    cbn [fold_left]; [cbn; lia|].
  cbn [fst snd] in *.
  destruct (IH (replace_step f (old, new))) as [E1 E2]. rewrite E1, E2.
  rewrite filter_cons. cbn [replace_step snd].
  destruct (endswith_bracket new) eqn:E.
  - rewrite decide_True by done.
    destruct (replace_paren_count (replace old new f)) as [P1 P2].
    rewrite P1, P2, !replace_count_other by done. cbn [length]. lia.
  - rewrite decide_False by discriminate.
    rewrite !replace_count_other by done. lia.
Qed.

Lemma replace_steps_bracket_free l : Forall bracket_free_entry l -> forall f,
  count_char "]" (fold_left replace_step l f) = count_char "]" f.
Proof.
  induction 1 as [|[old new] l (Hne & H1 & H2 & H3) _ IH]; intros f;
    cbn [fold_left]; [done|].
  cbn [fst snd] in *. rewrite IH. cbn [replace_step]. rewrite H1.
  by apply replace_count_other.
Qed.

Lemma replace_excel_functions_steps formula :
  _replace_excel_functions formula = fold_left replace_step replacements formula.
Proof. reflexivity. Qed.

(** X9: [_replace_excel_functions] puts four closing brackets before every
    closing parenthesis of a formula, whether or not the formula names an
    aggregate function: the rewritten text has as many closing brackets as
    the formula, and four more for each of its closing parentheses. *)
Theorem replace_adds_four_brackets_per_parenthesis (formula : string) :
  count_char "]" (_replace_excel_functions formula) =
  count_char "]" formula + 4 * count_char ")" formula.
Proof.
  rewrite replace_excel_functions_steps.
  change replacements with (take 10 replacements ++ drop 10 replacements).
  rewrite fold_left_app.
  rewrite replace_steps_bracket_free.
  - destruct (replace_steps_plain (take 10 replacements)) with (f := formula)
      as [E _]; [|rewrite E; reflexivity].
    cbn. repeat constructor; discriminate.
  - cbn. repeat constructor; discriminate.
Qed.

(** A text without a character of [old] has no occurrence of [old]. *)
Lemma replace_scan_absent (P : ascii -> bool) old new :
  (exists x, In x old /\ P x = true) ->
  forall s, free P s -> replace_scan old new 0 s = s.
Proof.
  intros (x & Hx & HP). induction s as [|c s IH]; intros Hfree; [done|].
  cbn [replace_scan]. case_bool_decide as Hp.
  - destruct Hp as (k & E). exfalso.
    assert (Hin : In x (c :: s)) by (rewrite E; apply in_or_app; by left).
    unfold free in Hfree. rewrite List.Forall_forall in Hfree.
    apply Hfree in Hin. congruence.
  - f_equal. apply IH. by inversion Hfree.
Qed.

Lemma chars_of_str (s : string) : chars_str (str_chars s) = s.
Proof. apply string_of_list_ascii_of_string. Qed.

Lemma replace_absent (P : ascii -> bool) old new s :
  (exists x, In x (str_chars old) /\ P x = true) ->
  free P (str_chars s) -> replace old new s = s.
Proof.
  intros Hx Hfree. unfold replace.
  rewrite (replace_scan_absent P) by done. apply chars_of_str.
Qed.

Lemma replace_step_absent entry s :
  (exists x, In x (str_chars (fst entry)) /\ is_upper x = true) ->
  free is_upper (str_chars s) -> free (is_char ")") (str_chars s) ->
  replace_step s entry = s.
Proof.
  destruct entry as [old new]. cbn [fst]. intros Hx Hu Hp.
  unfold replace_step. rewrite (replace_absent is_upper old new s Hx Hu).
  destruct (endswith_bracket new); [|done].
  apply (replace_absent (is_char ")")); [|done].
  exists ")"%char. split; [by left|reflexivity].
Qed.

Lemma replace_steps_absent l s :
  Forall (fun entry => exists x, In x (str_chars (fst entry)) /\
                                 is_upper x = true) l ->
  free is_upper (str_chars s) -> free (is_char ")") (str_chars s) ->
  fold_left replace_step l s = s.
Proof.
  induction 1 as [|e l He _ IH]; intros Hu Hp; cbn [fold_left]; [done|].
  rewrite replace_step_absent by done. by apply IH.
Qed.

Lemma replacements_have_capitals :
  Forall (fun entry => exists x, In x (str_chars (fst entry)) /\
                                 is_upper x = true) replacements.
Proof.
  unfold replacements.
  repeat (constructor;
          [first [ exists "S"%char; split; [cbn; tauto|reflexivity]
                 | exists "A"%char; split; [cbn; tauto|reflexivity]
                 | exists "M"%char; split; [cbn; tauto|reflexivity]
                 | exists "P"%char; split; [cbn; tauto|reflexivity]
                 | exists "E"%char; split; [cbn; tauto|reflexivity]
                 | exists "L"%char; split; [cbn; tauto|reflexivity]
                 | exists "T"%char; split; [cbn; tauto|reflexivity]
                 | exists "F"%char; split; [cbn; tauto|reflexivity] ]|]).
  constructor.
Qed.

Lemma sub_scan_needs (P : ascii -> bool) r repl :
  needs P r -> forall s p, free P s -> sub_scan r repl 0 p s = s.
Proof.
  intros Hn. induction s as [|c s IH]; intros p Hfree; cbn [sub_scan].
  - unfold match_at. by rewrite (run_needs P).
  - unfold match_at. rewrite (run_needs P) by done.
    f_equal. apply IH. by inversion Hfree.
Qed.

Lemma needs_single_cell_pattern : needs is_upper single_cell_pattern.
Proof. cbn. right. left. left. left. auto. Qed.

(** X10: a formula whose body has no capital letter and no closing
    parenthesis reaches [_safe_eval] as it is, with any context: no
    reference is substituted and no function is rewritten. *)
Theorem plain_formula_evaluates_as_written (message : exc -> string)
  (body : string) (context : gmap string value) :
  free is_upper (str_chars body) ->
  free (is_char ")") (str_chars body) ->
  evaluate_formula message (String "=" body) context =
  evaluation_result (_safe_eval message body).
Proof.
  intros Hu Hp. unfold evaluate_formula. cbn [startswith_eq negb drop_first].
  change (is_char "=" "=") with true. cbn [negb].
  assert (Hs : _substitute_cell_references body context = body).
  { unfold _substitute_cell_references, Re.sub.
    rewrite (sub_scan_needs is_upper) by
      (done || apply needs_single_cell_pattern).
    apply chars_of_str. }
  assert (Hr : _replace_excel_functions body = body).
  { rewrite replace_excel_functions_steps.
    apply replace_steps_absent; [apply replacements_have_capitals|done|done]. }
  destruct (bool_decide (context = ∅)); rewrite ?Hs, Hr; reflexivity.
Qed.

Lemma plain_formula_evaluates_as_written_witness :
  evaluate_formula (fun _ => EmptyString) "=2+3*4" {[ "A1" := VInt 1 ]} =
  evaluation_result (_safe_eval (fun _ => EmptyString) "2+3*4").
Proof.
  apply (plain_formula_evaluates_as_written (fun _ => EmptyString) "2+3*4").
  - repeat constructor.
  - repeat constructor.
Defined.

(** ** The dependency graph and the traversal *)

Lemma set_keys {V} (d : Dict.t V) k v k' :
  In k' (Dict.keys (Dict.set d k v)) <-> k' = k \/ In k' (Dict.keys d).
Proof.
  induction d as [|[k0 v0] d IH]; cbn [Dict.set Dict.keys map fst In].
  - intuition congruence.
  - destruct (String.eqb_spec k k0) as [->|Hne]; cbn [map fst In].
    + intuition congruence.
    + unfold Dict.keys in IH. rewrite IH. intuition congruence.
Qed.

Lemma build_sheet_keys s sd (fs : Dict.t string) : forall deps k,
  In k (Dict.keys
          (fold_left
             (fun dependencies '(cell_address, formula) =>
                Dict.set dependencies (full_address s cell_address)
                  (map (full_address s)
                       (metadata_referenced_cells sd cell_address)))
             fs deps)) <->
  In k (Dict.keys deps) \/ exists c, In c (Dict.keys fs) /\ k = full_address s c.
Proof.
  induction fs as [|[c f] fs IH]; intros deps k; cbn [fold_left].
  - split; [by left|]. intros [H|(c & [] & _)]. done.
  - rewrite IH, set_keys. cbn [Dict.keys map fst]. split.
    + intros [[->|H]|(c' & Hc & ->)].
      * right. exists c. split; [by left|done].
      * by left.
      * right. exists c'. split; [by right|done].
    + intros [H|(c' & [<-|Hc] & ->)].
      * left. by right.
      * left. by left.
      * right. by exists c'.
Qed.

Lemma build_keys (sheets : sheets_t) : forall deps k,
  In k (Dict.keys
          (fold_left
             (fun dependencies '(sheet_name, sd) =>
                fold_left
                  (fun dependencies '(cell_address, formula) =>
                     Dict.set dependencies (full_address sheet_name cell_address)
                       (map (full_address sheet_name)
                            (metadata_referenced_cells sd cell_address)))
                  (formulas sd) dependencies)
             sheets deps)) <->
  In k (Dict.keys deps) \/
  exists s c f, In (s, c, f) (formula_entries sheets) /\ k = full_address s c.
Proof.
  induction sheets as [|[s sd] sheets IH]; intros deps k; cbn [fold_left].
  - split; [by left|]. intros [H|(s & c & f & [] & _)]. done.
  - rewrite IH, build_sheet_keys. unfold formula_entries. cbn [flat_map].
    split.
    + intros [[H|(c & Hc & ->)]|(s' & c & f & Hin & ->)].
      * by left.
      * right. apply in_map_iff in Hc. destruct Hc as ([c' f] & <- & Hc).
        exists s, c', f. split; [|done]. apply in_or_app. left.
        apply in_map_iff. by exists (c', f).
      * right. exists s', c, f. split; [|done]. apply in_or_app. by right.
    + intros [H|(s' & c & f & Hin & ->)]; [left; by left|].
      apply in_app_or in Hin. destruct Hin as [Hin|Hin].
      * apply in_map_iff in Hin. destruct Hin as ([c' f'] & [= <- <- <-] & Hin).
        left. right. exists c'. split; [|done].
        apply in_map_iff. by exists (c', f').
      * right. by exists s', c, f.
Qed.

(** X11: the nodes from which the cycle detector starts are the formula
    cells of the document: a key of the dependency graph is the address,
    prefixed with its sheet, of a formula cell, and every formula cell has
    its key. *)
Theorem graph_keys_are_formula_cells (sheets : sheets_t) (k : string) :
  In k (Dict.keys (build_dependencies sheets)) <->
  exists s c f, In (s, c, f) (formula_entries sheets) /\ k = full_address s c.
Proof.
  unfold build_dependencies. rewrite build_keys. split; [|by right].
  intros [[]|H]. exact H.
Qed.

Lemma chain_reach deps l : forall b z,
  chain deps b l -> last (b :: l) = Some z -> rtc (edge deps) b z.
Proof.
  induction l as [|c l IH]; intros b z Hc Hl.
  - injection Hl as ->. apply rtc_refl.
  - destruct Hc as [He Hc]. apply (rtc_l _ _ c); [done|].
    apply IH; [done|]. exact Hl.
Qed.

(** The first node of a closed path takes part in a cycle. *)
Lemma closed_path_on_cycle deps l :
  closed_path deps l -> exists n, on_cycle deps n.
Proof.
  destruct l as [|a l]; [done|]. intros (Hne & Hc & Hl).
  destruct l as [|b l]; [done|]. destruct Hc as [He Hc].
  exists a, b. split; [done|]. by apply (chain_reach deps l).
Qed.

(** X12: the traversal raises no false alarm on the graph it is given: for
    a dependency graph without a cycle, when the recursion limit leaves room
    for one nested call per node, it returns and the report is empty. *)
Theorem acyclic_graph_reports_nothing (depth : nat)
  (dependencies : Dict.t (list string)) :
  (forall n, ~ on_cycle dependencies n) ->
  size (graph_set dependencies) < depth ->
  detect_cycles_within depth dependencies = Some [].
Proof.
  intros Hacyclic Hdepth.
  destruct (detect_cycles_within_ok dependencies depth Hdepth)
    as (found & -> & Hsound & _).
  destruct found as [|cycle found]; [done|].
  apply Forall_cons in Hsound. destruct Hsound as [Hc _].
  apply closed_path_on_cycle in Hc. destruct Hc as (n & Hn).
  by destruct (Hacyclic n).
Qed.

Lemma for_roots_length deps fuel :
  size (graph_set deps) < fuel ->
  forall roots seen found found',
    (forall r, In r roots -> r ∈ graph_set deps) ->
    for_roots deps fuel roots seen found = Some found' ->
    length found' <= length found + length roots.
Proof.
  intros Hfuel. induction roots as [|node roots IH];
    intros seen found found' Hroots; cbn [for_roots length].
  - intros [= <-]. lia.
  - case_bool_decide as Hseen.
    + destruct (has_cycle_ok deps fuel node (Dfs seen ∅ [] found))
        as (b & st & -> & Hv & Hn & Hpost); cbn [visited rec_stack path].
      { apply Hroots. by left. }
      { done. }
      { eapply Nat.le_lt_trans; [|exact Hfuel]. apply subseteq_size. set_solver. }
      { repeat split; cbn; set_solver. }
      { done. }
      intros H. apply IH in H; [|intros r Hr; apply Hroots; by right].
      cbn [circular_refs] in Hpost. destruct b.
      * destruct Hpost as (cycle & E & _). rewrite E, length_app in H.
        cbn in H. lia.
      * destruct Hpost as (E & _). rewrite E in H. lia.
    + intros H. apply IH in H; [lia|]. intros r Hr. apply Hroots. by right.
Qed.

(** X13: the traversal of each root adds at most one cycle to the report, so
    there are at most as many reported cycles as the graph has keys. *)
Theorem at_most_one_cycle_per_root (dependencies : Dict.t (list string))
  (found : list (list string)) :
  detect_cycles dependencies = Some found ->
  length found <= length (Dict.keys dependencies).
Proof.
  unfold detect_cycles, detect_cycles_within. intros H.
  apply for_roots_length in H; [exact H|lia|].
  intros r Hr. by apply key_graph_set.
Qed.

Lemma at_most_one_cycle_per_root_witness :
  length [["Sheet1!B1"; "Sheet1!D1"; "Sheet1!B1"]] <=
  length (Dict.keys (build_dependencies
                       (extract_formulas_from_workbook three_cycle_workbook))).
Proof.
  apply (at_most_one_cycle_per_root
           (build_dependencies
              (extract_formulas_from_workbook three_cycle_workbook))).
  by vm_compute.
Defined.

Lemma acyclic_graph_reports_nothing_witness :
  detect_cycles_within 900 [("A", ["B"; "C"]); ("B", ["C"])] = Some [].
Proof.
  apply (acyclic_graph_reports_nothing 900 [("A", ["B"; "C"]); ("B", ["C"])]);
    [|vm_compute; lia].
  intros n (m & He & Hr).
  assert (Hstep : forall x y, edge [("A", ["B"; "C"]); ("B", ["C"])] x y ->
                  (x = "A" /\ (y = "B" \/ y = "C")) \/ (x = "B" /\ y = "C")).
  { intros x y. unfold edge, neighbors. cbn [Dict.get].
    destruct (String.eqb_spec x "A") as [->|_]; cbn; [intuition|].
    destruct (String.eqb_spec x "B") as [->|_]; cbn; intuition. }
  assert (Hreach : forall x y, rtc (edge [("A", ["B"; "C"]); ("B", ["C"])]) x y ->
                   x = "C" -> y = "C").
  { intros x y H. induction H as [|x y z H1 _ IH]; [done|].
    intros ->. apply Hstep in H1. destruct H1 as [[? _]|[? _]]; discriminate. }
  assert (Hreach' : forall x y, rtc (edge [("A", ["B"; "C"]); ("B", ["C"])]) x y ->
                    x = "B" -> y = "B" \/ y = "C").
  { intros x y H. destruct H as [|x y z H1 H2]; [by left|].
    intros ->. apply Hstep in H1. destruct H1 as [[? _]|[_ ->]]; [discriminate|].
    right. by apply (Hreach "C"). }
  apply Hstep in He. destruct He as [[-> [-> | ->]]|[-> ->]].
  - destruct (Hreach' _ _ Hr eq_refl); discriminate.
  - pose proof (Hreach _ _ Hr eq_refl). discriminate.
  - pose proof (Hreach _ _ Hr eq_refl). discriminate.
Defined.

(** ** Cross-sheet dependencies and extraction *)

Lemma cross_sheet_inner s (P : string -> Prop) (l : list string) :
  forall acc,
    (forall t, In t l -> P t) ->
    NoDup acc /\ ~ In s acc /\ (forall t, In t acc -> P t) ->
    let acc' :=
      fold_left
        (fun acc referenced_sheet =>
           if negb (String.eqb referenced_sheet s) &&
              negb (bool_decide (referenced_sheet ∈ acc))
           then acc ++ [referenced_sheet] else acc)
        l acc in
    NoDup acc' /\ ~ In s acc' /\ (forall t, In t acc' -> P t).
Proof.
  induction l as [|x l IH]; intros acc Hl Hacc; cbn [fold_left]; [done|].
  apply IH; [intros t Ht; apply Hl; by right|].
  destruct Hacc as (Hnd & Hs & HP).
  destruct (String.eqb_spec x s) as [->|Hne]; cbn [negb andb]; [done|].
  case_bool_decide as Hin; cbn [negb]; [done|].
  split; [|split].
  - apply NoDup_app. split; [done|]. split; [|apply NoDup_singleton].
    intros y Hy Hy'. apply list_elem_of_singleton in Hy'. by subst y.
  - intros H. apply in_app_or in H. destruct H as [H|[H|[]]]; [done|].
    by subst x.
  - intros t H. apply in_app_or in H. destruct H as [H|[<-|[]]]; [auto|].
    apply Hl. by left.
Qed.

Lemma cross_sheet_formulas s sd (fs : Dict.t string) :
  (forall e, In e fs -> In e (formulas sd)) ->
  forall acc,
    let P t := exists c f, In (c, f) (formulas sd) /\ In t (referenced_sheets f) in
    NoDup acc /\ ~ In s acc /\ (forall t, In t acc -> P t) ->
    let acc' :=
      fold_left
        (fun acc '(_, formula) =>
           fold_left
             (fun acc referenced_sheet =>
                if negb (String.eqb referenced_sheet s) &&
                   negb (bool_decide (referenced_sheet ∈ acc))
                then acc ++ [referenced_sheet] else acc)
             (referenced_sheets formula) acc)
        fs acc in
    NoDup acc' /\ ~ In s acc' /\ (forall t, In t acc' -> P t).
Proof.
  induction fs as [|[c f] fs IH]; intros Hfs acc P Hacc; cbn [fold_left];
    [done|].
  apply IH; [intros e He; apply Hfs; by right|].
  apply (cross_sheet_inner s P); [|done].
  intros t Ht. exists c, f. split; [apply Hfs; by left|done].
Qed.

Lemma cross_sheet_document (all sheets : sheets_t) :
  (forall x, In x sheets -> In x all) ->
  forall deps,
    Forall (cross_sheet_entry_ok all) deps ->
    Forall (cross_sheet_entry_ok all)
      (fold_left
         (fun dependencies '(sheet_name, sd) =>
            let sheet_dependencies :=
              fold_left
                (fun acc '(_, formula) =>
                   fold_left
                     (fun acc referenced_sheet =>
                        if negb (String.eqb referenced_sheet sheet_name) &&
                           negb (bool_decide (referenced_sheet ∈ acc))
                        then acc ++ [referenced_sheet] else acc)
                     (referenced_sheets formula) acc)
                (formulas sd) [] in
            match sheet_dependencies with
            | [] => dependencies
            | _ => Dict.set dependencies sheet_name sheet_dependencies
            end)
         sheets deps).
Proof.
  induction sheets as [|[s sd] sheets IH]; intros Hall deps Hd;
    cbn [fold_left]; [done|].
  apply IH; [intros x Hx; apply Hall; by right|].
  destruct (cross_sheet_formulas s sd (formulas sd) (fun e He => He) [])
    as (Hnd & Hs & HP).
  { split; [constructor|]. split; [intros []|intros t []]. }
  cbn zeta in *.
  destruct (fold_left _ (formulas sd) []) as [|x l] eqn:E; [done|].
  apply List.Forall_forall. intros [k v] Hin. apply set_In in Hin.
  destruct Hin as [Hin|[= -> ->]].
  - rewrite List.Forall_forall in Hd. by apply Hd.
  - split; [done|]. split; [done|]. split; [done|]. cbn [fst snd].
    intros t Ht. destruct (HP t Ht) as (c & f & Hc & Hf).
    exists sd, c, f. split; [apply Hall; by left|done].
Qed.

(** X14: an entry of the cross-sheet dependencies never names the sheet
    itself and names no sheet twice; its list is not empty, and every sheet
    in it is read off a qualified reference in a formula of the sheet. *)
Theorem cross_sheet_dependencies_sound (sheets : sheets_t) :
  Forall (cross_sheet_entry_ok sheets)
         (_analyze_cross_sheet_dependencies sheets).
Proof.
  unfold _analyze_cross_sheet_dependencies.
  apply cross_sheet_document; [auto|constructor].
Qed.

Lemma get_set {V} (d : Dict.t V) k v k' :
  Dict.get (Dict.set d k v) k' =
  if String.eqb k' k then Some v else Dict.get d k'.
Proof.
  induction d as [|[k0 v0] d IH]; cbn [Dict.set Dict.get]; [done|].
  destruct (String.eqb_spec k k0) as [->|Hne]; cbn [Dict.get].
  - by destruct (String.eqb k' k0).
  - rewrite IH. destruct (String.eqb_spec k' k0) as [->|Hne']; [|done].
    by destruct (String.eqb_spec k0 k) as [->|Hne''].
Qed.

Lemma keys_set_eq {A B} (d1 : Dict.t A) (d2 : Dict.t B) k v1 v2 :
  Dict.keys d1 = Dict.keys d2 ->
  Dict.keys (Dict.set d1 k v1) = Dict.keys (Dict.set d2 k v2).
Proof.
  revert d2. induction d1 as [|[k1 a] d1 IH]; intros [|[k2 b] d2];
    cbn [Dict.keys map fst Dict.set]; try done.
  intros [= -> H]. destruct (String.eqb k k2); cbn [map fst]; [by f_equal|].
  f_equal. by apply IH.
Qed.

Lemma wf_set {V} (d : Dict.t V) k v : Dict.wf d -> Dict.wf (Dict.set d k v).
Proof.
  unfold Dict.wf. induction d as [|[k0 v0] d IH]; cbn [Dict.set Dict.keys map fst].
  - intros _. apply NoDup_singleton.
  - intros H. apply NoDup_cons in H. destruct H as [H0 H].
    destruct (String.eqb_spec k k0) as [->|Hne]; cbn [map fst].
    + by apply NoDup_cons.
    + apply NoDup_cons. split; [|by apply IH].
      intros Hin. apply list_elem_of_In, set_keys in Hin.
      destruct Hin as [->|Hin]; [done|]. by apply H0, list_elem_of_In.
Qed.

Lemma extract_cell_ok sd c : extracted_ok sd -> extracted_ok (extract_cell sd c).
Proof.
  intros (Hk & Hm & Hv & Hwf & Hwv). unfold extract_cell.
  destruct (cell_value c) as [v|] eqn:Ev.
  - assert (Hstep : extracted_ok
                      (SheetData (formulas sd)
                                 (Dict.set (values sd) (address c) v)
                                 (formula_metadata sd))).
    { repeat split; cbn [formulas values formula_metadata]; auto.
      - intros k Hin. apply set_keys. right. auto.
      - by apply wf_set. }
    destruct (is_formula_cell c); [|exact Hstep].
    destruct v as [| |formula|]; try exact Hstep.
    cbn [formulas values formula_metadata].
    repeat split; cbn [formulas values formula_metadata].
    + by apply keys_set_eq.
    + intros k f. rewrite !get_set.
      destruct (String.eqb_spec k (address c)) as [->|Hne]; [|auto].
      by intros [= ->].
    + intros k Hin. apply set_keys in Hin. apply set_keys.
      destruct Hin as [->|Hin]; [by left|right; auto].
    + by apply wf_set.
    + by apply wf_set.
  - destruct (is_formula_cell c); by repeat split.
Qed.

Lemma extract_cells_ok cells : forall sd,
  extracted_ok sd -> extracted_ok (fold_left extract_cell cells sd).
Proof.
  induction cells as [|c cells IH]; intros sd Hsd; cbn [fold_left]; [done|].
  by apply IH, extract_cell_ok.
Qed.

(** X15: in the sheet entry that [_extract_sheet_formulas] builds, the
    formulas and the formula metadata have the same keys in the same order,
    the metadata of a formula cell is the analysis of its formula, every
    formula cell also has a value, and no address occurs twice. *)
Theorem extracted_sheet_consistent (cells : list cell) :
  extracted_ok (_extract_sheet_formulas cells).
Proof.
  apply extract_cells_ok. repeat split; try constructor; try done.
Qed.

Lemma extract_workbook_fresh (wb : list (string * list cell)) : forall sheets,
  NoDup (Dict.keys sheets ++ map fst wb) ->
  fold_left
    (fun sheets '(sheet_name, cells) =>
       Dict.set sheets sheet_name (_extract_sheet_formulas cells))
    wb sheets =
  sheets ++ map (fun '(sheet_name, cells) =>
                   (sheet_name, _extract_sheet_formulas cells)) wb.
Proof.
  induction wb as [|[n cells] wb IH]; intros sheets Hnd; cbn [fold_left map].
  - by rewrite app_nil_r.
  - cbn [map fst] in Hnd. rewrite set_fresh.
    + rewrite IH; [by rewrite <- app_assoc|].
      rewrite keys_app. cbn [Dict.keys map fst]. by rewrite <- app_assoc.
    + apply NoDup_app in Hnd. destruct Hnd as (_ & Hd & _).
      intros Hin. apply (Hd n); [by apply list_elem_of_In|]. by left.
Qed.

Lemma total_fold (wb : list (string * list cell)) : forall n,
  fold_left
    (fun total '(sheet_name, cells) =>
       total + length (formulas (_extract_sheet_formulas cells)))
    wb n =
  n + length (formula_entries
                (map (fun '(sheet_name, cells) =>
                        (sheet_name, _extract_sheet_formulas cells)) wb)).
Proof.
  induction wb as [|[s cells] wb IH]; intros n; cbn [fold_left map].
  - cbn. lia.
  - rewrite IH, formula_entries_cons. lia.
Qed.

(** X16: for a workbook whose sheets have distinct names, the number of
    formulas counted at extraction is the number counted at validation. *)
Theorem extraction_total_is_validation_total (wb : list (string * list cell)) :
  NoDup (map fst wb) ->
  total_formulas
    (validate_formula_integrity (extract_formulas_from_workbook wb)) =
  workbook_total_formulas wb.
Proof.
  intros Hnd. unfold extract_formulas_from_workbook, workbook_total_formulas.
  rewrite extract_workbook_fresh by done. cbn [app].
  rewrite total_fold. cbn [plus].
  set (sheets := map _ wb).
  destruct (validate_document_counts (all_cells sheets) sheets
              (ValidationResults [] (Some []) [] 0 0 0 0)) as (A1 & _).
  unfold validate_formula_integrity. cbn [total_formulas] in *. exact A1.
Qed.

Lemma extraction_total_is_validation_total_witness :
  total_formulas
    (validate_formula_integrity
       (extract_formulas_from_workbook cross_sheet_workbook)) =
  workbook_total_formulas cross_sheet_workbook.
Proof.
  apply (extraction_total_is_validation_total cross_sheet_workbook).
  apply (bool_decide_unpack _). by vm_compute.
Defined.

(** ** The master mapping of several files *)

Lemma filename_inj f1 : forall f2 k1 k2,
  contains_char "#" f1 = false -> contains_char "#" f2 = false ->
  f1 +:+ "#" +:+ k1 = f2 +:+ "#" +:+ k2 -> f1 = f2.
Proof.
  unfold contains_char, str_chars.
  induction f1 as [|c f1 IH]; intros [|c' f2] k1 k2 H1 H2 E;
    cbn [list_ascii_of_string existsb] in *.
  - reflexivity.
  - change (String "#" k1 = String c' (f2 +:+ "#" +:+ k2)) in E.
    injection E as <- _. by rewrite Ascii.eqb_refl in H2.
  - change (String c (f1 +:+ "#" +:+ k1) = String "#" k2) in E.
    injection E as -> _. by rewrite Ascii.eqb_refl in H1.
  - change (String c (f1 +:+ "#" +:+ k1) = String c' (f2 +:+ "#" +:+ k2)) in E.
    injection E as -> E. f_equal.
    apply orb_false_iff in H1, H2. destruct H1 as [_ H1], H2 as [_ H2].
    by apply (IH f2 k1 k2).
Qed.

Lemma global_keys_nodup filename (sheets : processed_sheets) :
  processed_document sheets ->
  NoDup (Dict.keys (global_entries filename sheets)).
Proof.
  intros Hp. rewrite global_keys. apply NoDup_fmap_2; [|by apply flat_keys_nodup].
  intros k1 k2 E. apply append_inj_r in E. by apply append_inj_r in E.
Qed.

Lemma all_global_keys_nodup (files : list (string * processed_sheets)) :
  separable_files files -> NoDup (Dict.keys (all_global_entries files)).
Proof.
  induction files as [|[fn sheets] files IH]; intros [Hnd Hall].
  - constructor.
  - cbn [map fst] in Hnd. apply NoDup_cons in Hnd. destruct Hnd as [Hfn Hnd].
    destruct (Hall fn sheets (or_introl eq_refl)) as [Hhash Hp].
    unfold all_global_entries. cbn [flat_map]. rewrite keys_app.
    apply NoDup_app. split; [by apply global_keys_nodup|]. split.
    + intros k Hk1 Hk2. rewrite global_keys in Hk1.
      apply list_elem_of_In, in_map_iff in Hk1. destruct Hk1 as (k1 & <- & _).
      apply list_elem_of_In in Hk2. unfold Dict.keys in Hk2.
      apply in_map_iff in Hk2. destruct Hk2 as ([k' g] & E & Hk2).
      apply in_flat_map in Hk2. destruct Hk2 as ([fn' sheets'] & Hf & Hk2).
      assert (Hk' : In k' (Dict.keys (global_entries fn' sheets')))
        by (apply in_map_iff; by exists (k', g)).
      rewrite global_keys in Hk'. apply in_map_iff in Hk'.
      destruct Hk' as (k2 & E' & _). cbn [fst] in E. subst k'.
      destruct (Hall fn' sheets' (or_intror Hf)) as [Hhash' _].
      apply filename_inj in E'; [|done|done]. subst fn'.
      apply Hfn, list_elem_of_In. by apply (in_map fst) in Hf.
    + apply IH. split; [done|]. intros fn' sheets' Hin. apply Hall. by right.
Qed.

Lemma global_fold (files : list (string * processed_sheets)) : forall out,
  NoDup (Dict.keys out ++ Dict.keys (all_global_entries files)) ->
  fold_left
    (fun out '(filename, sheets) =>
       fold_left
         (fun out '(sheet_name, sheet_formulas) =>
            fold_left
              (fun out '(cell_ref, formula) =>
                 Dict.set out (global_ref filename sheet_name cell_ref)
                   (GlobalFormula formula filename sheet_name cell_ref))
              sheet_formulas out)
         sheets out)
    files out =
  out ++ all_global_entries files.
Proof.
  induction files as [|[fn sheets] files IH]; intros out Hnd; cbn [fold_left].
  - unfold all_global_entries. cbn. by rewrite app_nil_r.
  - unfold all_global_entries in *. cbn [flat_map] in *.
    rewrite keys_app, app_assoc in Hnd.
    rewrite (nested_fold_fresh (global_ref fn)
               (fun s c f => GlobalFormula f fn s c)).
    + rewrite IH; [by rewrite <- app_assoc|]. by rewrite keys_app.
    + by apply NoDup_app in Hnd as (Hnd & _ & _).
Qed.

(** X17: when the files have pairwise distinct names without a number sign
    and each is a processed document, the master mapping holds every formula
    of every file once, in order and under pairwise distinct keys: no file
    overwrites an entry of another. *)
Theorem master_mapping_keeps_files_apart
  (files : list (string * processed_sheets)) :
  separable_files files ->
  global_formulas files = all_global_entries files /\
  NoDup (Dict.keys (global_formulas files)).
Proof.
  intros Hs. pose proof (all_global_keys_nodup files Hs) as Hnd.
  assert (E : global_formulas files = all_global_entries files)
    by (unfold global_formulas; by rewrite global_fold).
  rewrite E. by split.
Qed.

Lemma master_mapping_keeps_files_apart_witness :
  global_formulas [("a.xlsx", test_processed_sheets);
                   ("b.xlsx", test_processed_sheets)] =
  all_global_entries [("a.xlsx", test_processed_sheets);
                      ("b.xlsx", test_processed_sheets)].
Proof.
  apply (master_mapping_keeps_files_apart
           [("a.xlsx", test_processed_sheets); ("b.xlsx", test_processed_sheets)]).
  assert (Hp : processed_document test_processed_sheets).
  { split; [unfold Dict.wf; apply (bool_decide_unpack _); by vm_compute|].
    intros s fs Hin. vm_compute in Hin.
    destruct Hin as [[= <- <-]|[[= <- <-]|[]]].
    - split; [unfold Dict.wf; apply (bool_decide_unpack _); by vm_compute|].
      intros c Hc. vm_compute in Hc. by destruct Hc as [<-|[<-|[]]].
    - split; [unfold Dict.wf; apply (bool_decide_unpack _); by vm_compute|].
      intros c Hc. vm_compute in Hc. by destruct Hc as [<-|[]]. }
  split; [apply (bool_decide_unpack _); by vm_compute|].
  intros fn sheets [[= <- <-]|[[= <- <-]|[]]]; by split.
Defined.

(** ** The dependency analysis and the validation of [ExcelProcessor] *)

Section ExcelProcessorChecks.

Import ExcelProcessor.

Lemma match_whole r p s m len :
  match_at r p s = Some (m, len) -> lang r (whole m).
Proof.
  unfold match_at. destruct (run r (MState p s [])) as [|st l] eqn:E; [done|].
  intros [= <- _]. cbn [whole].
  assert (Hin : In st (run r (MState p s []))) by (rewrite E; by left).
  destruct (run_sound r _ _ Hin) as ((w & Er & L) & _ & _). cbn [rest] in Er.
  rewrite Er, length_app.
  replace (length w + length (rest st) - length (rest st)) with (length w)
    by lia.
  by rewrite take_app_length.
Qed.

Lemma get_references_cell_ref formula ref :
  In ref (get_references formula) -> is_cell_ref ref = true.
Proof.
  unfold get_references, findall_whole. intros H.
  apply in_map_iff in H. destruct H as (m & <- & Hm).
  pose proof (scan_forall (fun m => lang cell_ref_re (whole m)) cell_ref_re
                (fun p s m len => match_whole cell_ref_re p s m len)
                (str_chars formula) 0 None) as H.
  rewrite List.Forall_forall in H. specialize (H m Hm).
  apply lang_cell_ref in H. destruct H as (u & d & -> & Hu & Hup & Hd & Hdig).
  by apply cell_ref_of_runs.
Qed.

Lemma reference_length_runs (u d post : list ascii) :
  u <> [] -> forallb is_upper u = true ->
  d <> [] -> forallb is_digit d = true ->
  starts_with_class is_digit post = false ->
  reference_length (u ++ d ++ post) = Some (length (u ++ d)).
Proof.
  intros Hu Hup Hd Hdig Hpost. unfold reference_length.
  assert (Hdu : starts_with_class is_upper (d ++ post) = false).
  { destruct d as [|c d]; [done|]. cbn [app starts_with_class].
    cbn [forallb] in Hdig. apply andb_true_iff in Hdig.
    destruct Hdig as [Hc _]. destruct (is_upper c) eqn:E; [|done].
    apply upper_not_digit in E. congruence. }
  rewrite (skip_while_all is_upper u (d ++ post)) by done.
  rewrite (skip_while_all is_digit d post) by done.
  assert (E1 : starts_with_class is_upper (u ++ d ++ post) = true).
  { destruct u as [|c u]; [done|]. cbn [app starts_with_class].
    cbn [forallb] in Hup. apply andb_true_iff in Hup. tauto. }
  assert (E2 : starts_with_class is_digit (d ++ post) = true).
  { destruct d as [|c d]; [done|]. cbn [app starts_with_class].
    cbn [forallb] in Hdig. apply andb_true_iff in Hdig. tauto. }
  rewrite E1, E2. cbn [andb]. f_equal. rewrite !length_app. lia.
Qed.

(** The matches behind a character that stands in no reference are found
    whatever stands before it. *)
Lemma scan_after_separator z t :
  is_upper z = false -> is_digit z = false ->
  forall y skip p, skip <= length y ->
    forall m, In m (scan cell_ref_re 0 (Some z) t) ->
              In m (scan cell_ref_re skip p (y ++ z :: t)).
Proof.
  intros Hu Hd. induction y as [|a y IH]; intros skip p Hskip m Hm.
  - cbn [length] in Hskip. replace skip with 0 by lia.
    cbn [app scan]. rewrite match_at_cell_ref.
    unfold reference_length. cbn [starts_with_class]. by rewrite Hu.
  - destruct skip as [|k].
    + change ((a :: y) ++ z :: t) with (a :: (y ++ z :: t)).
      cbn [scan]. rewrite match_at_cell_ref.
      destruct (reference_length_local (a :: y) z t Hu Hd) as [_ Hn].
      cbn [app] in Hn.
      destruct (reference_length (a :: y ++ z :: t)) as [n|].
      * right. apply IH; [|done]. specialize (Hn n eq_refl).
        cbn [length] in Hn. lia.
      * apply IH; [lia|done].
    + cbn [app scan]. apply IH; [|done]. cbn [length] in Hskip. lia.
Qed.

(** A reference behind the name of a sheet is read as a reference: the name
    and the exclamation mark before it are passed over. *)
Lemma get_references_qualified (sheet ref post : string) :
  is_cell_ref ref = true ->
  starts_with_class is_digit (str_chars post) = false ->
  In ref (get_references (sheet +:+ "!" +:+ ref +:+ post)).
Proof.
  intros Href Hpost.
  destruct (is_cell_ref_runs ref Href) as (u & d & Eref & Hu & Hup & Hd & Hdig).
  unfold get_references, findall_whole. apply in_map_iff.
  exists (RMatch (u ++ d) []). cbn [whole].
  split; [by rewrite <- Eref, chars_str_chars|].
  rewrite !str_chars_app, Eref. change (str_chars "!") with ["!"%char].
  cbn [app].
  apply scan_after_separator; [done|done|lia|].
  rewrite <- app_assoc. destruct u as [|c u]; [done|].
  change ((c :: u) ++ d ++ str_chars post)
    with (c :: (u ++ d ++ str_chars post)).
  cbn [scan]. rewrite match_at_cell_ref.
  change (c :: u ++ d ++ str_chars post)
    with ((c :: u) ++ d ++ str_chars post).
  rewrite reference_length_runs by done.
  left. by rewrite (app_assoc (c :: u) d), take_app_length.
Qed.
Lemma dependencies_fold (formulas : Dict.t string) :
  forall (l : Dict.t string) acc,
    (forall e, In e l -> In e formulas) ->
    Dict.wf acc -> Forall (dependency_entry_ok formulas) acc ->
    let out :=
      fold_left
        (fun dependencies '(cell_ref, formula) =>
           match other_references cell_ref formula with
           | [] => dependencies
           | referenced_cells =>
               Dict.set dependencies cell_ref (list_to_set referenced_cells)
           end) l acc in
    Dict.wf out /\ Forall (dependency_entry_ok formulas) out.
Proof.
  induction l as [|[c f] l IH]; intros acc Hl Hwf Hacc; cbn [fold_left].
  - by split.
  - apply IH; [intros e He; apply Hl; by right| |];
      destruct (other_references c f) as [|r rs] eqn:E; try done.
    + by apply wf_set.
    + apply List.Forall_forall. intros [c' d'] Hin.
      apply set_In in Hin. destruct Hin as [Hin|[= -> ->]].
      * rewrite List.Forall_forall in Hacc. by apply (Hacc (c', d')).
      * change (dependency_entry_ok formulas (c, list_to_set (r :: rs))).
        rewrite <- E. unfold dependency_entry_ok.
        split; [rewrite E; set_solver|]. split; [|split].
        -- rewrite elem_of_list_to_set. intros Hc. apply list_elem_of_In in Hc.
           unfold other_references in Hc. apply filter_In in Hc.
           destruct Hc as [_ Hc]. by rewrite String.eqb_refl in Hc.
        -- intros ref Hr. rewrite elem_of_list_to_set in Hr.
           apply list_elem_of_In in Hr. unfold other_references in Hr.
           apply filter_In in Hr. destruct Hr as [Hr _].
           by apply (get_references_cell_ref f).
        -- exists f. split; [apply Hl; by left|done].
Qed.

(** X18: the dependencies that [_analyze_formula_dependencies] returns have
    pairwise distinct keys, and every entry has a non-empty set that does not
    hold the cell itself, holds cell references only, and is the set of the
    references, other than the cell, of a formula of that cell. *)
Theorem dependencies_well_formed (formulas : Dict.t string) :
  Dict.wf (_analyze_formula_dependencies formulas) /\
  Forall (dependency_entry_ok formulas) (_analyze_formula_dependencies formulas).
Proof.
  unfold _analyze_formula_dependencies.
  apply (dependencies_fold formulas formulas []); [done| |constructor].
  unfold Dict.wf. cbn. constructor.
Qed.

Lemma first_true_false call references :
  first_true call references = Some false ->
  forall ref, In ref references -> call ref = Some false.
Proof.
  induction references as [|r rs IH]; cbn [first_true]; [by intros _ ref []|].
  destruct (call r) as [[|]|] eqn:E; try done.
  intros H ref [<-|Hin]; [done|by apply IH].
Qed.

Lemma first_true_true call references :
  first_true call references = Some true ->
  exists ref, In ref references /\ call ref = Some true.
Proof.
  induction references as [|r rs IH]; cbn [first_true]; [done|].
  destruct (call r) as [[|]|] eqn:E; try done.
  - intros _. exists r. split; [by left|done].
  - intros H. destruct (IH H) as (ref & Hin & Hc). exists ref.
    split; [by right|done].
Qed.

Lemma first_true_some call references :
  (forall ref, In ref references -> exists b, call ref = Some b) ->
  exists b, first_true call references = Some b.
Proof.
  induction references as [|r rs IH]; cbn [first_true]; intros H; [eauto|].
  destruct (H r (or_introl eq_refl)) as ([|] & ->); [eauto|].
  apply IH. intros ref Hin. apply H. by right.
Qed.

Lemma has_circular_ref_returns (formulas : Dict.t string) target_cell :
  forall fuel current_cell (visited : gset string),
    size (list_to_set (Dict.keys formulas) ∖ visited : gset string) < fuel ->
    exists b,
      has_circular_ref fuel formulas current_cell target_cell visited = Some b.
Proof.
  induction fuel as [|fuel IH]; intros cur V Hsize; [lia|].
  cbn [has_circular_ref]. case_bool_decide as Hv; [eauto|].
  destruct (Dict.get formulas cur) as [text|] eqn:E; [|eauto].
  apply first_true_some. intros ref _.
  destruct (String.eqb ref target_cell); [eauto|]. apply IH.
  assert (Hk : cur ∈ (list_to_set (Dict.keys formulas) : gset string)).
  { apply elem_of_list_to_set, list_elem_of_In. by apply (get_keys _ _ text). }
  assert (Hsub : list_to_set (Dict.keys formulas) ∖ ({[cur]} ∪ V)
                 ⊂ (list_to_set (Dict.keys formulas) ∖ V : gset string)).
  { split; [set_solver|]. intros Hs. specialize (Hs cur). set_solver. }
  apply subset_size in Hsub. lia.
Qed.

Lemma refers_get (formulas : Dict.t string) a b text :
  Dict.get formulas a = Some text ->
  names_token formulas a b <-> In b (get_references text).
Proof.
  intros E. unfold names_token. split.
  - intros (t & E' & Hin). congruence.
  - intros Hin. by exists text.
Qed.

Lemma has_circular_ref_false (formulas : Dict.t string) target_cell :
  forall fuel current_cell (visited : gset string),
    has_circular_ref fuel formulas current_cell target_cell visited
      = Some false ->
    forall n, rtc (names_token formulas) current_cell n ->
      (n ∉ visited) /\ ~ names_token formulas n target_cell /\
      ~ on_token_cycle formulas n.
Proof.
  induction fuel as [|fuel IH]; intros cur V H n Hr; [done|].
  cbn [has_circular_ref] in H. case_bool_decide as Hv; [done|].
  destruct (Dict.get formulas cur) as [text|] eqn:E.
  - assert (Hstep : forall ref, names_token formulas cur ref ->
              ref <> target_cell /\
              forall n, rtc (names_token formulas) ref n ->
                (n ∉ {[cur]} ∪ V) /\ ~ names_token formulas n target_cell /\
                ~ on_token_cycle formulas n).
    { intros ref Href. apply (refers_get _ _ _ _ E) in Href.
      pose proof (first_true_false _ _ H ref Href) as Hc. cbn beta in Hc.
      destruct (String.eqb_spec ref target_cell) as [->|Hne]; [done|].
      split; [done|]. by apply IH. }
    apply rtc_inv in Hr. destruct Hr as [<-|(ref & Href & Hr)].
    + split; [done|]. split.
      * intros Hre. by destruct (Hstep _ Hre).
      * intros (m & Hm & Hback). destruct (Hstep m Hm) as [_ Hs].
        destruct (Hs cur Hback) as [Hnot _]. set_solver.
    + destruct (Hstep ref Href) as [_ Hs].
      destruct (Hs n Hr) as (Hn & Ht & Hc). split; [set_solver|done].
  - assert (Hno : forall m, ~ names_token formulas cur m).
    { intros m (t & E' & _). congruence. }
    apply rtc_inv in Hr. destruct Hr as [<-|(ref & Href & _)];
      [|by destruct (Hno ref)].
    split; [done|]. split; [apply Hno|]. intros (m & Hm & _). by apply (Hno m).
Qed.

Lemma has_circular_ref_true (formulas : Dict.t string) target_cell :
  forall fuel current_cell (visited : gset string),
    has_circular_ref fuel formulas current_cell target_cell visited
      = Some true ->
    (exists v, v ∈ visited /\ rtc (names_token formulas) current_cell v) \/
    (exists n, rtc (names_token formulas) current_cell n /\
               names_token formulas n target_cell) \/
    reaches_token_cycle formulas current_cell.
Proof.
  induction fuel as [|fuel IH]; intros cur V H; [done|].
  cbn [has_circular_ref] in H. case_bool_decide as Hv.
  { left. exists cur. split; [done|apply rtc_refl]. }
  destruct (Dict.get formulas cur) as [text|] eqn:E; [|done].
  apply first_true_true in H. destruct H as (ref & Hin & H).
  apply (refers_get _ _ _ _ E) in Hin.
  destruct (String.eqb_spec ref target_cell) as [->|Hne].
  { right. left. exists cur. split; [apply rtc_refl|done]. }
  apply IH in H. destruct H as [(v & Hvin & Hr)|[(n & Hr & Hn)|(n & Hr & Hn)]].
  - apply elem_of_union in Hvin. destruct Hvin as [Hvin|Hvin].
    + apply elem_of_singleton in Hvin. subst v. right. right.
      exists cur. split; [apply rtc_refl|]. by exists ref.
    + left. exists v. split; [done|]. by apply (rtc_l _ _ ref).
  - right. left. exists n. split; [|done]. by apply (rtc_l _ _ ref).
  - right. right. exists n. split; [|done]. by apply (rtc_l _ _ ref).
Qed.

Lemma keys_size_lt (formulas : Dict.t string) depth :
  length formulas < depth ->
  size (list_to_set (Dict.keys formulas) ∖ ∅ : gset string) < depth.
Proof.
  intros Hdepth. unfold Dict.keys.
  assert (H : forall l : list string,
             size (list_to_set l : gset string) <= length l).
  { induction l as [|x l IH]; cbn [list_to_set length].
    - rewrite size_empty. lia.
    - rewrite size_union_alt, size_singleton.
      assert (Hs : size (list_to_set l ∖ {[x]} : gset string)
                   <= size (list_to_set l : gset string))
        by (apply subseteq_size; set_solver).
      lia. }
  specialize (H (map fst formulas)). rewrite length_map in H.
  assert (Hs : size (list_to_set (map fst formulas) ∖ ∅ : gset string)
               <= size (list_to_set (map fst formulas) : gset string))
    by (apply subseteq_size; set_solver).
  lia.
Qed.

Lemma check_circular_spec depth (all_formulas : Dict.t string)
  cell_ref formula :
  Dict.get all_formulas cell_ref = Some formula ->
  length all_formulas < depth ->
  exists b,
    _check_circular_reference depth cell_ref formula all_formulas = Some b /\
    (b = true <-> reaches_token_cycle all_formulas cell_ref).
Proof.
  intros E Hdepth. unfold _check_circular_reference.
  destruct (first_true_some
              (fun ref => has_circular_ref depth all_formulas ref cell_ref ∅)
              (get_references formula)) as (b & Hb).
  { intros ref _. by apply has_circular_ref_returns, keys_size_lt. }
  exists b. split; [done|]. destruct b.
  - split; [intros _|done]. apply first_true_true in Hb.
    destruct Hb as (ref & Hin & H). apply (refers_get _ _ _ _ E) in Hin.
    apply has_circular_ref_true in H.
    destruct H as [(v & Hv & _)|[(n & Hr & Hn)|(n & Hr & Hn)]].
    + set_solver.
    + exists cell_ref. split; [apply rtc_refl|]. exists ref. split; [done|].
      by apply (rtc_r _ n).
    + exists n. split; [|done]. by apply (rtc_l _ _ ref).
  - split; [done|]. intros (n & Hr & Hn). exfalso.
    pose proof (first_true_false _ _ Hb) as Hf. cbn beta in Hf.
    assert (Hs : forall ref, names_token all_formulas cell_ref ref ->
              forall n, rtc (names_token all_formulas) ref n ->
                ~ names_token all_formulas n cell_ref /\ ~ on_token_cycle all_formulas n).
    { intros ref Href n' Hr'. apply (refers_get _ _ _ _ E) in Href.
      destruct (has_circular_ref_false _ _ _ _ _ (Hf ref Href) n' Hr')
        as (_ & H1 & H2). by split. }
    apply rtc_inv in Hr. destruct Hr as [<-|(ref & Href & Hr)].
    + destruct Hn as (m & Hm & Hback). apply rtc_inv_r in Hback.
      destruct Hback as [->|(n' & Hr' & Hlast)].
      * by destruct (Hs _ Hm cell_ref (rtc_refl _ _)).
      * by destruct (Hs _ Hm n' Hr').
    + by destruct (Hs _ Href n Hr).
Qed.

Lemma own_address_reaches (all_formulas : Dict.t string) cell_ref formula :
  Dict.get all_formulas cell_ref = Some formula ->
  In cell_ref (get_references formula) ->
  reaches_token_cycle all_formulas cell_ref.
Proof.
  intros E Hin. exists cell_ref. split; [apply rtc_refl|].
  exists cell_ref. split; [by exists formula|apply rtc_refl].
Qed.

(** X19: when the recursion limit leaves room for one nested call per
    formula of the dictionary, [_check_circular_reference] returns, and it
    returns [True] exactly when the cell reaches a token cycle: when the
    tokens [[A-Z]+\d+] of the formula texts lead from it to a cell from which
    they lead back to that cell.  The tokens are read without what stands
    before them, so this is not the circularity of the workbook: a cell on no
    cycle that reaches one is flagged, and so is every cell whose formula
    text holds the cell's own address, also behind the name of another
    sheet. *)
Theorem circular_check_follows_reference_tokens (depth : nat)
  (all_formulas : Dict.t string) cell_ref formula :
  Dict.get all_formulas cell_ref = Some formula ->
  length all_formulas < depth ->
  exists b,
    _check_circular_reference depth cell_ref formula all_formulas = Some b /\
    (b = true <-> reaches_token_cycle all_formulas cell_ref) /\
    (In cell_ref (get_references formula) -> b = true).
Proof.
  intros E Hdepth.
  destruct (check_circular_spec depth all_formulas cell_ref formula E Hdepth)
    as (b & Hb & Hiff).
  exists b. split; [done|]. split; [done|].
  intros Hin. apply Hiff. by apply (own_address_reaches _ _ formula).
Qed.

Lemma circular_check_follows_reference_tokens_witness :
  _check_circular_reference 900 "A1" "=Sheet2!A1+1"
    [("A1", "=Sheet2!A1+1"); ("B1", "=A1*2")] = Some true.
Proof.
  destruct (circular_check_follows_reference_tokens 900
              [("A1", "=Sheet2!A1+1"); ("B1", "=A1*2")] "A1" "=Sheet2!A1+1")
    as (b & Hb & _ & Hown).
  - reflexivity.
  - cbn [length]. lia.
  - rewrite Hb. f_equal. apply Hown. vm_compute. by left.
Defined.

(** X27: a formula that refers to the cell with its own address on another
    sheet is flagged as circular: when the formula text of a cell holds the
    cell's own address behind a sheet name and an exclamation mark, and the
    recursion limit leaves room for one nested call per formula,
    [_check_circular_reference] returns [True]. *)
Theorem qualified_own_address_is_flagged (depth : nat)
  (all_formulas : Dict.t string) (cell_ref sheet post : string) :
  Dict.get all_formulas cell_ref =
    Some (sheet +:+ "!" +:+ cell_ref +:+ post) ->
  is_cell_ref cell_ref = true ->
  starts_with_class is_digit (str_chars post) = false ->
  length all_formulas < depth ->
  _check_circular_reference depth cell_ref
    (sheet +:+ "!" +:+ cell_ref +:+ post) all_formulas = Some true.
Proof.
  intros E Href Hpost Hdepth.
  destruct (check_circular_spec depth all_formulas cell_ref _ E Hdepth)
    as (b & Hb & Hiff).
  rewrite Hb. f_equal. apply Hiff.
  apply (own_address_reaches _ _ _ E).
  by apply get_references_qualified.
Qed.

Lemma qualified_own_address_is_flagged_witness :
  _check_circular_reference 900 "A1" ("=Sheet2" +:+ "!" +:+ "A1" +:+ "+1")
    [("A1", "=Sheet2!A1+1")] = Some true.
Proof.
  apply (qualified_own_address_is_flagged 900 [("A1", "=Sheet2!A1+1")]
           "A1" "=Sheet2" "+1").
  - reflexivity.
  - reflexivity.
  - reflexivity.
  - cbn [length]. lia.
Defined.

Lemma wf_In_get {V} (d : Dict.t V) k v :
  Dict.wf d -> In (k, v) d -> Dict.get d k = Some v.
Proof.
  unfold Dict.wf, Dict.keys.
  induction d as [|[k' v'] d IH]; cbn [map fst Dict.get In]; [done|].
  intros Hnd [[= -> ->]|Hin].
  - by rewrite String.eqb_refl.
  - apply NoDup_cons in Hnd. destruct Hnd as [Hk Hnd].
    destruct (String.eqb_spec k k') as [->|Hne]; [|by apply IH].
    exfalso. apply Hk, list_elem_of_In. by apply (in_map fst) in Hin.
Qed.

Lemma validate_cell_step depth done r sheet_name (fs : Dict.t string) c f :
  validated done r -> Dict.get fs c = Some f -> length fs < depth ->
  exists r',
    validate_cell depth sheet_name fs (Some r) (c, f) = Some r' /\
    validated (done ++ [(fs, FormulaIssue sheet_name c f)]) r'.
Proof.
  intros (Ht & Hv & Hre & Hw & Hs & Hc) E Hdepth. unfold validate_cell.
  destruct (check_circular_spec depth fs c f E Hdepth) as (b & -> & Hb).
  eexists. split; [done|]. unfold validated.
  cbn [total_formulas valid_formulas syntax_errors reference_errors
       circular_references warnings].
  rewrite length_app. cbn [length].
  split; [lia|]. split.
  { destruct (_validate_formula_syntax f); [lia|].
    rewrite length_app. cbn [length]. lia. }
  split; [done|]. split; [done|]. split.
  - intros i. setoid_rewrite in_app_iff. cbn [In].
    destruct (_validate_formula_syntax f) eqn:Ef.
    + rewrite Hs. split.
      * intros (fs' & Hin & Hi). exists fs'. by split; [left|].
      * intros (fs' & [Hin|[[= <- <-]|[]]] & Hi); [by exists fs'|].
        cbn [issue_formula] in Hi. congruence.
    + rewrite in_app_iff, Hs. cbn [In]. split.
      * intros [(fs' & Hin & Hi)|[<-|[]]].
        -- exists fs'. by split; [left|].
        -- exists fs. split; [right; by left|done].
      * intros (fs' & [Hin|[[= <- <-]|[]]] & Hi).
        -- left. by exists fs'.
        -- right. by left.
  - intros i. setoid_rewrite in_app_iff. cbn [In]. destruct b.
    + rewrite in_app_iff, Hc. cbn [In]. split.
      * intros [(fs' & Hin & Hi)|[<-|[]]].
        -- exists fs'. by split; [left|].
        -- exists fs. split; [right; by left|]. by apply Hb.
      * intros (fs' & [Hin|[[= <- <-]|[]]] & Hi).
        -- left. by exists fs'.
        -- right. by left.
    + rewrite Hc. split.
      * intros (fs' & Hin & Hi). exists fs'. by split; [left|].
      * intros (fs' & [Hin|[[= <- <-]|[]]] & Hi); [by exists fs'|].
        cbn [issue_cell] in Hi. apply Hb in Hi. done.
Qed.

Lemma validate_sheet_fold depth sheet_name (fs : Dict.t string) :
  length fs < depth ->
  forall (l : Dict.t string) done r,
    validated done r ->
    (forall c f, In (c, f) l -> Dict.get fs c = Some f) ->
    exists r',
      fold_left (validate_cell depth sheet_name fs) l (Some r) = Some r' /\
      validated
        (done ++ map (fun '(c, f) => (fs, FormulaIssue sheet_name c f)) l) r'.
Proof.
  intros Hdepth.
  induction l as [|[c f] l IH]; intros done r Hv Hl; cbn [fold_left map].
  - exists r. by rewrite app_nil_r.
  - destruct (validate_cell_step depth done r sheet_name fs c f Hv)
      as (r1 & -> & Hv1); [apply Hl; by left|done|].
    destruct (IH _ r1 Hv1) as (r' & -> & Hv'); [intros; apply Hl; by right|].
    exists r'. split; [done|]. by rewrite <- app_assoc in Hv'.
Qed.

Lemma validate_document_fold depth :
  forall (sheets : processed_sheets) done r,
    validated done r ->
    (forall s fs, In (s, fs) sheets -> Dict.wf fs /\ length fs < depth) ->
    exists r',
      fold_left
        (fun results '(sheet_name, sheet_formulas) =>
           fold_left (validate_cell depth sheet_name sheet_formulas)
                     sheet_formulas results)
        sheets (Some r) = Some r' /\
      validated (done ++ tagged_issues sheets) r'.
Proof.
  induction sheets as [|[s fs] sheets IH]; intros done r Hv Hwf;
    cbn [fold_left].
  - exists r. unfold tagged_issues. cbn. by rewrite app_nil_r.
  - destruct (Hwf s fs (or_introl eq_refl)) as [Hwfs Hdepth].
    destruct (validate_sheet_fold depth s fs Hdepth fs done r Hv)
      as (r1 & -> & Hv1).
    { intros c f Hin. by apply wf_In_get. }
    destruct (IH _ r1 Hv1) as (r' & -> & Hv');
      [intros s' fs' Hin; apply (Hwf s'); by right|].
    exists r'. split; [done|]. unfold tagged_issues in *. cbn [flat_map].
    by rewrite <- app_assoc in Hv'.
Qed.

(** X20: when the recursion limit leaves room for one nested call per
    formula of a sheet, [validate_formulas] returns a report in which
    [total_formulas] is the number of formulas, [valid_formulas] plus the
    number of syntax errors is that total, [reference_errors] and [warnings]
    are empty, [syntax_errors] holds exactly the formulas that fail the
    syntax check, and [circular_references] holds exactly the formulas whose
    cell reaches a token cycle of its sheet, the tokens being read without
    the sheet names before them. *)
Theorem validate_formulas_report (depth : nat) (sheets : processed_sheets) :
  (forall s fs, In (s, fs) sheets -> Dict.wf fs /\ length fs < depth) ->
  exists r,
    validate_formulas depth sheets = Some r /\
    validated (tagged_issues sheets) r.
Proof.
  intros Hwf. unfold validate_formulas.
  apply (validate_document_fold depth sheets [] _); [|done].
  unfold validated.
  cbn [total_formulas valid_formulas syntax_errors reference_errors
       circular_references warnings length In].
  do 4 (split; [done|]).
  split; intros i; (split; [intros []|by intros (fs & [] & _)]).
Qed.

Lemma validate_formulas_report_witness :
  exists r,
    validate_formulas 900 test_processed_sheets = Some r /\
    validated (tagged_issues test_processed_sheets) r.
Proof.
  apply (validate_formulas_report 900 test_processed_sheets).
  intros s fs Hin. vm_compute in Hin.
  destruct Hin as [[= <- <-]|[[= <- <-]|[]]];
    (split; [unfold Dict.wf; apply (bool_decide_unpack _); by vm_compute
            |cbn [length]; lia]).
Defined.

Lemma validate_cell_syntax depth sheet_name (fs : Dict.t string) r r' c f :
  validate_cell depth sheet_name fs (Some r) (c, f) = Some r' ->
  forall i, In i (syntax_errors r') ->
    In i (syntax_errors r) \/
    (i = FormulaIssue sheet_name c f /\ _validate_formula_syntax f = false).
Proof.
  unfold validate_cell.
  destruct (_check_circular_reference depth c f fs) as [b|]; [|done].
  intros [= <-] i. cbn [syntax_errors].
  destruct (_validate_formula_syntax f); [by left|].
  rewrite in_app_iff. cbn [In]. intros [H|[<-|[]]]; [by left|by right].
Qed.

Lemma validate_cells_none depth sheet_name (fs l : Dict.t string) :
  fold_left (validate_cell depth sheet_name fs) l None = None.
Proof. induction l as [|[c f] l IH]; cbn [fold_left validate_cell]; done. Qed.

Lemma validate_sheet_syntax depth sheet_name (fs : Dict.t string) :
  forall (l : Dict.t string) r r',
    fold_left (validate_cell depth sheet_name fs) l (Some r) = Some r' ->
    forall i, In i (syntax_errors r') ->
      In i (syntax_errors r) \/
      (issue_sheet i = sheet_name /\ In (issue_cell i, issue_formula i) l /\
       _validate_formula_syntax (issue_formula i) = false).
Proof.
  induction l as [|[c f] l IH]; intros r r' H i Hi; cbn [fold_left] in H.
  - injection H as <-. by left.
  - destruct (validate_cell depth sheet_name fs (Some r) (c, f)) as [r1|] eqn:E;
      [|by rewrite validate_cells_none in H].
    destruct (IH r1 r' H i Hi) as [H1|(Hs & Hin & Hf)].
    + destruct (validate_cell_syntax _ _ _ _ _ _ _ E i H1) as [H0|[-> Hf]].
      * by left.
      * right. cbn [issue_sheet issue_cell issue_formula].
        split; [done|]. split; [by left|done].
    + right. split; [done|]. split; [by right|done].
Qed.

Lemma validate_sheets_none depth (sheets : processed_sheets) :
  fold_left
    (fun results '(sheet_name, sheet_formulas) =>
       fold_left (validate_cell depth sheet_name sheet_formulas)
                 sheet_formulas results)
    sheets None = None.
Proof.
  induction sheets as [|[s fs] sheets IH]; cbn [fold_left]; [done|].
  by rewrite validate_cells_none.
Qed.

Lemma validate_document_syntax depth :
  forall (sheets : processed_sheets) r r',
    fold_left
      (fun results '(sheet_name, sheet_formulas) =>
         fold_left (validate_cell depth sheet_name sheet_formulas)
                   sheet_formulas results)
      sheets (Some r) = Some r' ->
    forall i, In i (syntax_errors r') ->
      In i (syntax_errors r) \/
      (exists fs, In (issue_sheet i, fs) sheets /\
                  In (issue_cell i, issue_formula i) fs /\
                  _validate_formula_syntax (issue_formula i) = false).
Proof.
  induction sheets as [|[s fs] sheets IH]; intros r r' H i Hi;
    cbn [fold_left] in H.
  - injection H as <-. by left.
  - destruct (fold_left (validate_cell depth s fs) fs (Some r)) as [r1|] eqn:E;
      [|by rewrite validate_sheets_none in H].
    destruct (IH r1 r' H i Hi) as [H1|(fs' & Hs & Hin & Hf)].
    + destruct (validate_sheet_syntax depth s fs fs r r1 E i H1)
        as [H0|(Hs & Hin & Hf)]; [by left|].
      right. exists fs. split; [left; by rewrite Hs|by split].
    + right. exists fs'. split; [by right|by split].
Qed.

End ExcelProcessorChecks.

(** ** The engineering categories *)

Lemma sorted_into_nil categories :
  Forall (fun e => category_formulas (snd e) = []) categories ->
  sorted_into categories [] = categories.
Proof.
  unfold sorted_into. induction 1 as [|[c [kws fs]] l H _ IH]; cbn [map].
  - done.
  - rewrite IH. cbn [snd category_formulas] in H. by subst fs.
Qed.

Lemma categorize_sorted categories done entry :
  categorize entry (sorted_into categories done) =
  sorted_into categories (done ++ [entry]).
Proof.
  unfold categorize, sorted_into. rewrite map_map. apply map_ext.
  intros [c [kws fs]]. cbn [keywords category_formulas].
  rewrite List.filter_app. cbn [List.filter ef_formula].
  destruct (mentions kws (ef_formula entry)).
  - by rewrite <- app_assoc.
  - by rewrite app_nil_r.
Qed.

Lemma engineering_sheet_fold categories sheet_name (sd : sheet_data) :
  forall (l : Dict.t string) done,
    fold_left
      (fun categories '(cell_address, formula) =>
         categorize
           (EngineeringFormula sheet_name cell_address formula
              (Dict.get (formula_metadata sd) cell_address))
           categories)
      l (sorted_into categories done) =
    sorted_into categories
      (done ++ map (fun '(cell_address, formula) =>
                      EngineeringFormula sheet_name cell_address formula
                        (Dict.get (formula_metadata sd) cell_address)) l).
Proof.
  induction l as [|[c f] l IH]; intros done; cbn [fold_left map].
  - by rewrite app_nil_r.
  - rewrite categorize_sorted, IH. by rewrite <- app_assoc.
Qed.

Lemma engineering_fold categories :
  forall (sheets : sheets_t) done,
    fold_left
      (fun categories '(sheet_name, sd) =>
         fold_left
           (fun categories '(cell_address, formula) =>
              categorize
                (EngineeringFormula sheet_name cell_address formula
                   (Dict.get (formula_metadata sd) cell_address))
                categories)
           (formulas sd) categories)
      sheets (sorted_into categories done) =
    sorted_into categories (done ++ engineering_entries sheets).
Proof.
  induction sheets as [|[s sd] sheets IH]; intros done; cbn [fold_left].
  - unfold engineering_entries. cbn. by rewrite app_nil_r.
  - rewrite engineering_sheet_fold, IH. unfold engineering_entries.
    cbn [flat_map]. by rewrite <- app_assoc.
Qed.

Lemma engineering_sorted (sheets : sheets_t) :
  extract_engineering_formulas sheets =
  sorted_into engineering_categories (engineering_entries sheets).
Proof.
  unfold extract_engineering_formulas.
  rewrite <- (sorted_into_nil engineering_categories) at 1.
  - apply (engineering_fold engineering_categories sheets []).
  - unfold engineering_categories. repeat constructor.
Qed.

(** X21: [extract_engineering_formulas] returns the five categories in their
    order, and the list of each is, in the order of the document, exactly the
    formulas in whose lower-cased text one of the keywords of the category
    occurs; a formula is listed under every category it mentions. *)
Theorem engineering_categories_hold_their_mentions (sheets : sheets_t) :
  extract_engineering_formulas sheets =
  map (fun '(category, data) =>
         (category,
          CategoryData (keywords data)
            (List.filter
               (fun entry => mentions (keywords data) (ef_formula entry))
               (engineering_entries sheets))))
      engineering_categories.
Proof.
  rewrite engineering_sorted. unfold sorted_into. apply map_ext_in.
  intros [c [kws fs]] Hin. cbn [keywords category_formulas].
  assert (E : fs = []); [|by rewrite E].
  unfold engineering_categories in Hin. cbn [In] in Hin.
  destruct Hin as [H|[H|[H|[H|[H|[]]]]]]; by injection H as _ _ <-.
Qed.

Lemma prefix_run p n : forall keyword text : list ascii,
  keyword `prefix_of` text ->
  run_of p n keyword = true -> run_of p n text = true.
Proof.
  induction n as [|n IH]; intros kw text [k ->]; [done|].
  destruct kw as [|c kw]; cbn [run_of app]; [done|].
  intros H. apply andb_true_iff in H. destruct H as [Hc H].
  rewrite Hc. cbn [andb]. apply (IH kw); [by exists k|done].
Qed.

Lemma occurs_run p n keyword : forall text,
  occurs_in keyword text = true ->
  run_of p n keyword = true -> has_run p n text = true.
Proof.
  induction text as [|c text IH]; cbn [occurs_in has_run]; intros H Hr.
  - rewrite orb_false_r in H. apply bool_decide_eq_true in H.
    by rewrite (prefix_run p n keyword [] H Hr).
  - apply orb_true_iff in H. destruct H as [H|H].
    + apply bool_decide_eq_true in H.
      by rewrite (prefix_run p n keyword _ H Hr).
    + rewrite (IH H Hr). apply orb_true_r.
Qed.

Lemma lower_char_letter c : is_lower (lower_char c) = true -> is_letter c = true.
Proof.
  unfold lower_char, is_letter. destruct (is_upper c); [done|].
  intros ->. apply orb_true_r.
Qed.

Lemma run_lower n : forall s,
  run_of is_lower n (map lower_char s) = true -> run_of is_letter n s = true.
Proof.
  induction n as [|n IH]; intros [|c s]; cbn [run_of map]; try done.
  intros H. apply andb_true_iff in H. destruct H as [Hc H].
  by rewrite (lower_char_letter c Hc), (IH s H).
Qed.

Lemma has_run_lower n : forall s,
  has_run is_lower n (map lower_char s) = true -> has_run is_letter n s = true.
Proof.
  induction s as [|c s IH]; cbn [has_run map]; intros H.
  - rewrite orb_false_r in H. by rewrite (run_lower n [] H).
  - apply orb_true_iff in H. destruct H as [H|H].
    + by rewrite (run_lower n (c :: s) H).
    + rewrite (IH H). apply orb_true_r.
Qed.

Lemma mentions_run keywords formula :
  forallb (fun keyword => run_of is_lower 4 (str_chars keyword)) keywords = true ->
  mentions keywords formula = true ->
  has_run is_letter 4 (str_chars formula) = true.
Proof.
  intros Hk Hm. unfold mentions in Hm. apply existsb_exists in Hm.
  destruct Hm as (kw & Hin & Hc). rewrite forallb_forall in Hk.
  specialize (Hk kw Hin). unfold contains, lower in Hc.
  rewrite str_chars_of_chars in Hc. apply has_run_lower.
  by apply (occurs_run is_lower 4 (str_chars kw)).
Qed.

Lemma engineering_entries_In (sheets : sheets_t) entry :
  In entry (engineering_entries sheets) ->
  exists sd,
    In (ef_sheet entry, sd) sheets /\
    In (ef_cell entry, ef_formula entry) (formulas sd).
Proof.
  unfold engineering_entries. intros H. apply in_flat_map in H.
  destruct H as ([s sd] & Hs & H). apply in_map_iff in H.
  destruct H as ([c f] & <- & Hc). by exists sd.
Qed.

Lemma filter_none {A} (f : A -> bool) (l : list A) :
  (forall x, In x l -> f x = false) -> List.filter f l = [].
Proof.
  induction l as [|x l IH]; intros H; cbn [List.filter]; [done|].
  rewrite (H x (or_introl eq_refl)). apply IH. intros y Hy. apply H. by right.
Qed.

(** X22: a document none of whose formulas has four letters in a row (cell
    references, numbers, operators, function names of up to three letters) is
    sorted into no category: every list is empty. *)
Theorem short_names_fall_in_no_category (sheets : sheets_t) :
  short_names_only sheets ->
  Forall (fun e => category_formulas (snd e) = [])
         (extract_engineering_formulas sheets).
Proof.
  intros Hs. rewrite engineering_sorted. unfold sorted_into.
  apply List.Forall_forall. intros [c d] Hin. apply in_map_iff in Hin.
  destruct Hin as ([c' [kws fs]] & [= <- <-] & Hin).
  cbn [snd keywords category_formulas].
  assert (Hk : fs = [] /\
               forallb (fun kw => run_of is_lower 4 (str_chars kw)) kws = true).
  { unfold engineering_categories in Hin. cbn [In] in Hin.
    destruct Hin as [H|[H|[H|[H|[H|[]]]]]]; injection H as _ <- <-;
      by split. }
  destruct Hk as [-> Hk]. cbn [app]. apply filter_none. intros e He.
  apply engineering_entries_In in He. destruct He as (sd & Hsd & Hf).
  specialize (Hs _ _ _ _ Hsd Hf).
  destruct (mentions kws (ef_formula e)) eqn:Em; [|done].
  apply (mentions_run kws _ Hk) in Em. congruence.
Qed.

Lemma short_names_fall_in_no_category_witness :
  Forall (fun e => category_formulas (snd e) = [])
         (extract_engineering_formulas
            [("Design",
              SheetData [("C1", "=SUM(A1:B2)*C3"); ("C2", "=MAX(C1,2)/PI()")]
                        [] [])]).
Proof.
  apply (short_names_fall_in_no_category
           [("Design",
             SheetData [("C1", "=SUM(A1:B2)*C3"); ("C2", "=MAX(C1,2)/PI()")]
                       [] [])]).
  intros s sd c f [[= <- <-]|[]] Hf. cbn [formulas In] in Hf.
  destruct Hf as [[= <- <-]|[[= <- <-]|[]]]; reflexivity.
Defined.

(** ** The processed sheets of [ExcelProcessor] *)

Section ExcelProcessorSheets.

Import ExcelProcessor.

Lemma processed_ok_mono cells cells' sd :
  (forall c, In c cells -> In c cells') ->
  processed_ok cells sd -> processed_ok cells' sd.
Proof.
  intros Hsub H ref f E. destruct (H ref f E) as (Hv & c & Hin & Hc).
  split; [done|]. exists c. split; [by apply Hsub|done].
Qed.

Lemma process_cell_ok done sd c :
  processed_ok done sd -> processed_ok (done ++ [c]) (process_cell sd c).
Proof.
  intros H.
  assert (Hold : forall values',
            (forall ref, (exists v, Dict.get (sheet_values sd) ref = Some v) ->
                         exists v, Dict.get values' ref = Some v) ->
            processed_ok (done ++ [c])
              (ProcessedSheet (sheet_formulas sd) values')).
  { intros values' Hv ref f E. cbn [sheet_formulas sheet_values] in *.
    destruct (H ref f E) as (Hval & c' & Hin & Hc).
    split; [by apply Hv|]. exists c'. split; [|done].
    apply in_app_iff. by left. }
  assert (Hnew : forall v formula,
            wc_value c = Some v ->
            (formula_attribute c = Some formula \/
             (formula_attribute c = None /\ wc_value c = Some (VStr formula) /\
              startswith_eq formula = true)) ->
            processed_ok (done ++ [c])
              (ProcessedSheet
                 (Dict.set (sheet_formulas sd) (wc_ref c) formula)
                 (Dict.set (sheet_values sd) (wc_ref c) v))).
  { intros v formula Ev Hf ref f E. cbn [sheet_formulas sheet_values] in *.
    rewrite get_set in E. rewrite get_set.
    destruct (String.eqb_spec ref (wc_ref c)) as [->|Hne].
    - injection E as <-. split; [by exists v|]. exists c.
      split; [apply in_app_iff; right; by left|done].
    - destruct (H ref f E) as (Hval & c' & Hin & Hc). split; [done|].
      exists c'. split; [|done]. apply in_app_iff. by left. }
  assert (Hset : forall v ref,
            (exists v', Dict.get (sheet_values sd) ref = Some v') ->
            exists v', Dict.get (Dict.set (sheet_values sd) (wc_ref c) v) ref
                       = Some v').
  { intros v ref (v' & E). rewrite get_set.
    destruct (String.eqb ref (wc_ref c)); [by exists v|by exists v']. }
  unfold process_cell. destruct (wc_value c) as [v|] eqn:Ev.
  - destruct (formula_attribute c) as [formula|] eqn:Ef.
    + apply (Hnew v formula); [done|by left].
    + destruct v as [z|b|text|]; try (apply Hold; apply Hset).
      destruct (startswith_eq text) eqn:Es.
      * apply (Hnew (VStr text) text); [done|]. right. by split.
      * apply Hold. apply Hset.
  - destruct sd as [fs vs]. apply (Hold vs). auto.
Qed.

Lemma process_cells_ok : forall cells done sd,
  processed_ok done sd ->
  processed_ok (done ++ cells) (fold_left process_cell cells sd).
Proof.
  induction cells as [|c cells IH]; intros done sd H; cbn [fold_left].
  - by rewrite app_nil_r.
  - replace (done ++ c :: cells) with ((done ++ [c]) ++ cells)
      by (by rewrite <- app_assoc).
    apply IH. by apply process_cell_ok.
Qed.

Lemma process_sheet_ok cells : processed_ok cells (_process_sheet cells).
Proof.
  unfold _process_sheet. apply (process_cells_ok cells []).
  intros ref f E. done.
Qed.

(** X23: in the entry that [_process_sheet] builds for a sheet, every formula
    has a value under the same reference, and it is either the formula
    attribute of a cell with that reference or the text of such a cell, which
    then starts with the equals sign. *)
Theorem processed_formulas_come_from_cells (cells : list worksheet_cell) :
  processed_ok cells (_process_sheet cells).
Proof. apply process_sheet_ok. Qed.

Lemma process_cell_wf sd c :
  Dict.wf (sheet_formulas sd) -> Dict.wf (sheet_formulas (process_cell sd c)).
Proof.
  intros H. unfold process_cell. destruct (wc_value c) as [v|]; [|done].
  destruct (formula_attribute c); cbn [sheet_formulas]; [by apply wf_set|].
  destruct v as [z|b|text|]; cbn [sheet_formulas]; try done.
  destruct (startswith_eq text); cbn [sheet_formulas]; [by apply wf_set|done].
Qed.

Lemma process_sheet_wf cells : Dict.wf (sheet_formulas (_process_sheet cells)).
Proof.
  unfold _process_sheet.
  assert (H : forall sd, Dict.wf (sheet_formulas sd) ->
                         Dict.wf (sheet_formulas (fold_left process_cell cells sd))).
  { induction cells as [|c cells IH]; intros sd Hsd; cbn [fold_left]; [done|].
    apply IH. by apply process_cell_wf. }
  apply H. unfold Dict.wf. cbn. constructor.
Qed.

Lemma process_file_In (wb : list (string * list worksheet_cell)) :
  forall sheets sheet_name sd,
    In (sheet_name, sd)
       (fold_left
          (fun sheets '(sheet_name, cells) =>
             Dict.set sheets sheet_name (_process_sheet cells))
          wb sheets) ->
    In (sheet_name, sd) sheets \/
    exists cells, In (sheet_name, cells) wb /\ sd = _process_sheet cells.
Proof.
  induction wb as [|[n cells] wb IH]; intros sheets s sd H; cbn [fold_left] in H.
  - by left.
  - apply IH in H. destruct H as [H|(cells' & Hin & ->)].
    + apply set_In in H. destruct H as [H|[= -> ->]]; [by left|].
      right. exists cells. split; [by left|done].
    + right. exists cells'. split; [by right|done].
Qed.

Lemma tagged_issues_In (sheets : processed_sheets) fs i :
  In (fs, i) (tagged_issues sheets) ->
  In (issue_sheet i, fs) sheets /\ In (issue_cell i, issue_formula i) fs.
Proof.
  unfold tagged_issues. intros H. apply in_flat_map in H.
  destruct H as ([s fs'] & Hs & H). apply in_map_iff in H.
  destruct H as ([c f] & [= <- <-] & Hc). by split.
Qed.

(** X24: for a workbook none of whose cells has a formula attribute,
    every syntax error in a report that [validate_formulas] returns on the
    processed sheets lies in the content of the formula: the parentheses
    differ in number or an invalid character occurs.  The test for the
    leading equals sign never fails on processed data. *)
Theorem processed_syntax_errors_lie_in_content (depth : nat)
  (wb : list (string * list worksheet_cell)) (r : formula_validation) :
  plain_cells wb ->
  validate_formulas depth (formulas_of_sheets (process_excel_file wb))
    = Some r ->
  Forall content_error (syntax_errors r).
Proof.
  intros Hplain Hr.
  assert (Hsheet : forall s fs,
            In (s, fs) (formulas_of_sheets (process_excel_file wb)) ->
            exists cells, In (s, cells) wb /\
                          fs = sheet_formulas (_process_sheet cells)).
  { intros s fs H. unfold formulas_of_sheets in H. apply in_map_iff in H.
    destruct H as ([s' sd] & [= <- <-] & H). unfold process_excel_file in H.
    apply process_file_In in H. destruct H as [[]|(cells & Hin & ->)].
    by exists cells. }
  apply List.Forall_forall. intros i Hi.
  unfold validate_formulas in Hr.
  destruct (validate_document_syntax depth _ _ _ Hr i Hi)
    as [[]|(fs & Hsh & Hc & Hsyn)].
  destruct (Hsheet _ _ Hsh) as (cells & Hwb & ->).
  apply wf_In_get in Hc; [|apply process_sheet_wf].
  destruct (process_sheet_ok cells _ _ Hc) as (_ & c & Hcin & _ & Hfrom).
  assert (Hstart : startswith_eq (issue_formula i) = true).
  { destruct Hfrom as [Hattr|(_ & _ & Hstart)]; [|done].
    unfold formula_attribute in Hattr.
    by rewrite (Hplain _ _ _ Hwb Hcin) in Hattr. }
  unfold _validate_formula_syntax in Hsyn. unfold content_error.
  rewrite Hstart in Hsyn. cbn [negb] in Hsyn.
  destruct (Nat.eqb_spec (count_char "(" (issue_formula i))
                         (count_char ")" (issue_formula i))) as [E|Hne];
    [|by left].
  cbn [negb] in Hsyn. right.
  by destruct (existsb (fun c => contains_char c (issue_formula i))
                       invalid_chars).
Qed.

Lemma processed_syntax_errors_lie_in_content_witness :
  Forall content_error [FormulaIssue "Design" "A2" "=(A1+1"].
Proof.
  apply (processed_syntax_errors_lie_in_content 900
           [("Design",
             [WorksheetCell "A1" (Some (VInt 4)) None;
              WorksheetCell "A2" (Some (VStr "=(A1+1")) None;
              WorksheetCell "A3" (Some (VStr "span")) None])]
           (FormulaValidation [FormulaIssue "Design" "A2" "=(A1+1"]
                              [] [] [] 1 0)).
  - intros s cells c [[= <- <-]|[]] [<-|[<-|[<-|[]]]]; reflexivity.
  - by vm_compute.
Defined.

End ExcelProcessorSheets.

(** ** The calculation sequences of [ExcelProcessor] *)

Section ExcelProcessorSequences.

Import ExcelProcessor.

Lemma sequence_sheet_fold steps sheet_name : forall (fs : Dict.t string) found,
  fold_left
    (fun found '(cell_ref, formula) =>
       match first_step steps formula with
       | Some step => found ++ [SequenceFormula step sheet_name cell_ref formula]
       | None => found
       end)
    fs found =
  found ++
  flat_map
    (fun '(cell_ref, formula) =>
       match first_step steps formula with
       | Some step => [SequenceFormula step sheet_name cell_ref formula]
       | None => []
       end)
    fs.
Proof.
  induction fs as [|[c f] fs IH]; intros found; cbn [fold_left flat_map].
  - by rewrite app_nil_r.
  - rewrite IH. destruct (first_step steps f); cbn [app].
    + by rewrite <- app_assoc.
    + done.
Qed.

Lemma sequence_formulas_assigned steps (sheets : processed_sheets) :
  sequence_formulas steps sheets = assigned_steps steps sheets.
Proof.
  unfold sequence_formulas, assigned_steps.
  assert (H : forall found,
            fold_left
              (fun found '(sheet_name, fs) =>
                 fold_left
                   (fun found '(cell_ref, formula) =>
                      match first_step steps formula with
                      | Some step =>
                          found ++
                          [SequenceFormula step sheet_name cell_ref formula]
                      | None => found
                      end)
                   fs found)
              sheets found =
            found ++ assigned_steps steps sheets).
  { unfold assigned_steps.
    induction sheets as [|[s fs] sheets IH]; intros found;
      cbn [fold_left flat_map].
    - by rewrite app_nil_r.
    - rewrite sequence_sheet_fold, IH. by rewrite <- app_assoc. }
  apply (H []).
Qed.

Lemma sequences_filter (sheets : processed_sheets) :
  _identify_calculation_sequences sheets =
  List.filter
    (fun e => match snd e with [] => false | _ => true end)
    (map (fun '(sequence_name, steps) =>
            (sequence_name, assigned_steps steps sheets))
         sequence_patterns).
Proof.
  unfold _identify_calculation_sequences, sequence_patterns.
  cbn [fold_left map List.filter snd].
  rewrite !sequence_formulas_assigned.
  destruct (assigned_steps _ sheets) as [|a1 l1];
    destruct (assigned_steps _ sheets) as [|a2 l2];
    destruct (assigned_steps _ sheets) as [|a3 l3]; reflexivity.
Qed.

(** X25: [_identify_calculation_sequences] returns, in the order of the
    table, the sequences that have at least one formula; the list of a
    sequence holds, in the order of the document, each formula that some step
    of the sequence mentions, once and under the first such step. *)
Theorem calculation_sequences_take_first_step (sheets : processed_sheets) :
  _identify_calculation_sequences sheets =
  List.filter
    (fun e => match snd e with [] => false | _ => true end)
    (map (fun '(sequence_name, steps) =>
            (sequence_name, assigned_steps steps sheets))
         sequence_patterns).
Proof. apply sequences_filter. Qed.

Lemma first_step_none steps formula :
  forallb
    (fun step =>
       forallb (fun keyword => run_of is_lower 4 (str_chars keyword))
               (step_keywords step))
    steps = true ->
  has_run is_letter 4 (str_chars formula) = false ->
  first_step steps formula = None.
Proof.
  intros Hk Hf. induction steps as [|step steps IH]; cbn [first_step]; [done|].
  cbn [forallb] in Hk. apply andb_true_iff in Hk. destruct Hk as [Hstep Hk].
  destruct (mentions (step_keywords step) formula) eqn:Em.
  - apply (mentions_run _ _ Hstep) in Em. congruence.
  - by apply IH.
Qed.

Lemma assigned_steps_none steps (sheets : processed_sheets) :
  forallb
    (fun step =>
       forallb (fun keyword => run_of is_lower 4 (str_chars keyword))
               (step_keywords step))
    steps = true ->
  short_formulas_only sheets ->
  assigned_steps steps sheets = [].
Proof.
  intros Hk Hs. unfold assigned_steps.
  induction sheets as [|[s fs] sheets IH]; cbn [flat_map]; [done|].
  rewrite IH by (intros s' fs' c f Hin; apply (Hs s' fs' c f); by right).
  rewrite app_nil_r.
  assert (Hfs : forall c f, In (c, f) fs ->
                  has_run is_letter 4 (str_chars f) = false)
    by (intros c f; apply (Hs s fs c f); by left).
  clear IH Hs. induction fs as [|[c f] fs IH]; cbn [flat_map]; [done|].
  rewrite (first_step_none steps f Hk) by (apply (Hfs c); by left).
  cbn [app]. apply IH. intros c' f' Hin. apply (Hfs c'). by right.
Qed.

(** X26: for a document none of whose formulas has four letters in a row
    (cell references, numbers, operators, function names of up to three
    letters), no calculation sequence is identified. *)
Theorem short_formulas_give_no_sequence (sheets : processed_sheets) :
  short_formulas_only sheets -> _identify_calculation_sequences sheets = [].
Proof.
  intros Hs. rewrite sequences_filter. unfold sequence_patterns.
  cbn [map]. rewrite !assigned_steps_none; try done.
Qed.

Lemma short_formulas_give_no_sequence_witness :
  _identify_calculation_sequences
    [("Design", [("C1", "=SUM(A1:B2)*C3"); ("C2", "=MAX(C1,2)/PI()")])] = [].
Proof.
  apply (short_formulas_give_no_sequence
           [("Design", [("C1", "=SUM(A1:B2)*C3"); ("C2", "=MAX(C1,2)/PI()")])]).
  intros s fs c f [[= <- <-]|[]] [[= <- <-]|[[= <- <-]|[]]]; reflexivity.
Defined.

End ExcelProcessorSequences.
